(** * vscode-taskexplorer: the file cache, the provider base class and the
      pipenv provider

    A shallow embedding of [src/cache.ts], of the provider base class
    ([TaskExplorerProvider]) and of [PipenvTaskProvider], together with the
    older copy of the cache module that the repository still carries.

    Conventions of the embedding.
    - Module-level [let] variables of [cache.ts] are the fields of [State].
    - A JavaScript [Set] holds object references: every object literal
      [{ uri, folder }] is a new object.  Items therefore carry an [oid]
      (their identity), drawn from the allocator [nextId], and [Set_add]
      compares identities, as [Set.prototype.add] does.  Iteration order
      of a [Set] is insertion order, so a set is a list.
    - A [Set] object itself has an identity ([sid]): [buildCache] keeps a
      reference [fCache] to the set across its [await]s, and writes through
      a reference whose set is no longer stored in [filesCache] are not
      visible in the map.
    - [async] functions are run against a schedule: at every [await] that
      really suspends ([util.timeout], [workspace.findFiles]) the next
      action of the schedule runs, standing for whatever the other
      coroutines of the extension host do meanwhile.  A polling loop that
      is still busy when the schedule is exhausted never returns ([None]).
    - A plain object whose keys are data ([taskGlobs], the table that
      the TOML reader returns) keeps what JavaScript gives it: members
      inherited from [Object.prototype] answer a read, and
      [Object.entries] lists the array indices among the keys first.
    - Logging and the status bar item have no effect on the modelled state
      and are left out. *)

From Stdlib Require Import String.
From stdpp Require Import base strings list gmap sorting pretty.

(** ** Data of the vscode API *)

Record Uri := mkUri {
  path : string;
  fsPath : string
}.

#[global] Instance Uri_eq_dec : EqDecision Uri.
Proof. solve_decision. Defined.

Record WorkspaceFolder := mkWorkspaceFolder {
  folderUri : Uri;
  folderName : string;
  folderIndex : nat
}.

#[global] Instance WorkspaceFolder_eq_dec : EqDecision WorkspaceFolder.
Proof. solve_decision. Defined.

(** JavaScript truthiness of a [string | undefined]. *)
Definition truthy (g : option string) : bool :=
  match g with
  | Some s => negb (String.eqb s "")
  | None => false
  end.

(** The order of [Array.prototype.sort] on strings. *)
Definition string_le (a b : string) : Prop := String.leb a b = true.

#[global] Instance string_le_dec : RelDecision string_le.
Proof. intros a b. unfold string_le. apply _. Defined.

(** ** JavaScript values

    What a reader of TOML hands back: texts, arrays, tables, and values
    without own enumerable properties (numbers, booleans, dates).  The
    properties of an object are listed in the order of their creation;
    their names are distinct. *)
#[local] Unset Elimination Schemes.
Inductive JsValue :=
| JsString (s : string)
| JsOther
| JsArray (elems : list JsValue)
| JsObject (props : list (string * JsValue)).
#[local] Set Elimination Schemes.

Definition digitOf (c : Ascii.ascii) : option N :=
  let n := Ascii.N_of_ascii c in
  if (48 <=? n)%N && (n <=? 57)%N then Some (n - 48)%N else None.

Fixpoint digitsValue (acc : N) (s : string) : option N :=
  match s with
  | EmptyString => Some acc
  | String c s' =>
      match digitOf c with
      | Some d => digitsValue (acc * 10 + d)%N s'
      | None => None
      end
  end.

(** A property name that is an array index: the decimal numeral, without
    leading zero, of an integer below 2^32 - 1. *)
Definition arrayIndex (key : string) : option N :=
  match key with
  | EmptyString => None
  | String c rest =>
      match digitOf c, rest with
      | Some 0%N, String _ _ => None
      | _, _ =>
          match digitsValue 0 key with
          | Some n => if (n <? 4294967295)%N then Some n else None
          | None => None
          end
      end
  end.

(** The order in which an object lists its own properties: array indices
    in ascending order, then the other names in the order of their
    creation. *)
Definition indexLe {V} (x y : N * V) : Prop := (x.1 ≤ y.1)%N.

#[global] Instance indexLe_dec {V} : RelDecision (@indexLe V).
Proof. intros x y. unfold indexLe. apply _. Defined.

Definition ownPropertyOrder {V} (props : list (string * V)) : list (string * V) :=
  (snd <$> merge_sort indexLe
             (omap (λ p, (λ n, (n, p)) <$> arrayIndex p.1) props))
  ++ filter (λ p, arrayIndex p.1 = None) props.

(** The elements of an array, or the code units of a text, under their
    indices. *)
Fixpoint indexedFrom {V} (i : N) (l : list V) : list (string * V) :=
  match l with
  | [] => []
  | x :: l' => (pretty i, x) :: indexedFrom (N.succ i) l'
  end.

(** [Object.entries(v)] *)
Definition Object_entries (v : JsValue) : list (string * JsValue) :=
  match v with
  | JsObject props => ownPropertyOrder props
  | JsArray elems => indexedFrom 0 elems
  | JsString s =>
      indexedFrom 0 ((λ c, JsString (String c EmptyString)) <$> list_ascii_of_string s)
  | JsOther => []
  end.

(** What [cache.ts] uses of a registered provider object. *)
Record ProviderApi := mkProviderApi {
  getGlobPattern : string → option string
}.

(** The parts of the extension host, of the configuration and of
    [common/utils] that the modelled code calls; they are not part of the
    modelled files and are taken as given. *)
Record Host := mkHost {
  (* vscode.workspace *)
  workspaceFolders : option (list WorkspaceFolder);
  getWorkspaceFolder : Uri → option WorkspaceFolder;
  (* workspace.findFiles(new RelativePattern(folder, glob),
                         getExcludesPattern(folder)) *)
  findFiles : WorkspaceFolder → option string → list Uri;
  (* extension.ts *)
  providers : gmap string ProviderApi;
  providersExternal : gmap string ProviderApi;
  (* common/utils.ts and common/configuration.ts *)
  getTaskTypes : list string;
  getTaskProviderType : string → string;
  isWatchTask : string → bool;
  utilGetGlobPattern : string → option string;
  isExcluded : string → bool;
  (* configuration.get<boolean>(util.getTaskTypeEnabledSettingName(t)) *)
  taskTypeEnabled : string → bool;
  pathExists : string → bool;
  (* configuration.get("exclude", []) *)
  excludeSetting : list string;
  readFileSync : string → string;
  (* util.getRelativePath, and path.dirname / path.basename of node *)
  getRelativePath : WorkspaceFolder → Uri → string;
  dirname : string → string;
  basename : string → string;
  (* configuration.get<string>("pathToPipenv") *)
  pathToPipenv : string;
  (* workspace.getConfiguration("python").get("pythonPath") *)
  pythonPathSetting : option string;
  (* The TOML reader of @sgarciac/bombadil applied to the contents of a
     file: [result?.scripts], the properties of a table in the order in
     which the file gives them; [None] when [result] or [result.scripts]
     is null or undefined. *)
  tomlScripts : string → option JsValue
}.

(** ** Tasks *)

Inductive TaskGroup := Build | Clean | Rebuild | Test.

Record TaskExplorerDefinition := mkDefinition {
  type : string;
  script : string;
  target : string;
  defPath : string;
  fileName : string;
  defUri : option Uri
}.

Record ShellExecution := mkShellExecution {
  command : string;
  args : list string;
  cwd : string
}.

Record Task := mkTask {
  definition : TaskExplorerDefinition;
  scope : WorkspaceFolder;
  taskName : string;
  source : string;
  execution : ShellExecution;
  problemMatchers : list string;
  group : option TaskGroup
}.

(** * cache.ts *)
Module Cache.

Record ICacheItem := mkItem {
  oid : nat;
  uri : Uri;
  folder : WorkspaceFolder
}.

#[global] Instance ICacheItem_eq_dec : EqDecision ICacheItem.
Proof. solve_decision. Defined.

(** A [Set<ICacheItem>] object: its identity and its members in insertion
    order. *)
Record SetObj := mkSet {
  sid : nat;
  items : list ICacheItem
}.

(** A reference to a [Set] object obtained from [filesCache.get(key)]. *)
Record SetRef := mkRef {
  refKey : string;
  refId : nat
}.

Record State := mkState {
  cacheBuilding : bool;
  folderCaching : bool;
  cancel : bool;
  taskGlobs : gmap string (option string);
  filesCache : gmap string SetObj;
  (* allocator of object identities *)
  nextId : nat;
  (* the delays requested from util.timeout so far, latest first *)
  timeouts : list nat
}.

Definition initial : State :=
  mkState false false false ∅ ∅ 0 [].

Definition set_cacheBuilding (b : bool) (st : State) : State :=
  mkState b (folderCaching st) (cancel st) (taskGlobs st) (filesCache st)
          (nextId st) (timeouts st).
Definition set_folderCaching (b : bool) (st : State) : State :=
  mkState (cacheBuilding st) b (cancel st) (taskGlobs st) (filesCache st)
          (nextId st) (timeouts st).
Definition set_cancel (b : bool) (st : State) : State :=
  mkState (cacheBuilding st) (folderCaching st) b (taskGlobs st)
          (filesCache st) (nextId st) (timeouts st).
Definition set_taskGlobs (g : gmap string (option string)) (st : State) : State :=
  mkState (cacheBuilding st) (folderCaching st) (cancel st) g
          (filesCache st) (nextId st) (timeouts st).
Definition set_filesCache (c : gmap string SetObj) (st : State) : State :=
  mkState (cacheBuilding st) (folderCaching st) (cancel st) (taskGlobs st)
          c (nextId st) (timeouts st).
Definition set_nextId (n : nat) (st : State) : State :=
  mkState (cacheBuilding st) (folderCaching st) (cancel st) (taskGlobs st)
          (filesCache st) n (timeouts st).
Definition logTimeout (ms : nat) (st : State) : State :=
  mkState (cacheBuilding st) (folderCaching st) (cancel st) (taskGlobs st)
          (filesCache st) (nextId st) (ms :: timeouts st).

(** *** Set operations *)

(** [Set.prototype.add]: membership is by object identity. *)
Definition Set_add (x : ICacheItem) (l : list ICacheItem) : list ICacheItem :=
  if bool_decide (oid x ∈ map oid l) then l else l ++ [x].

(** [Set.prototype.delete]. *)
Definition Set_delete (x : ICacheItem) (l : list ICacheItem) : list ICacheItem :=
  filter (λ y, oid y ≠ oid x) l.

(** The members of the set stored under [key]; no set reads as [None]. *)
Definition cacheItems (key : string) (st : State) : option (list ICacheItem) :=
  items <$> filesCache st !! key.

(** Write through a reference: only a set still stored in the map under
    its key is seen in [filesCache]. *)
Definition updRef (r : SetRef) (f : list ICacheItem → list ICacheItem)
    (st : State) : State :=
  match filesCache st !! refKey r with
  | Some s =>
      if bool_decide (sid s = refId r)
      then set_filesCache (<[refKey r := mkSet (sid s) (f (items s))]> (filesCache st)) st
      else st
  | None => st
  end.

(** [if (!filesCache.get(k)) filesCache.set(k, new Set());
     ... filesCache.get(k)] *)
Definition getOrCreateSet (key : string) (st : State) : SetRef * State :=
  match filesCache st !! key with
  | Some s => (mkRef key (sid s), st)
  | None =>
      (mkRef key (nextId st),
       set_nextId (S (nextId st))
         (set_filesCache (<[key := mkSet (nextId st) []]> (filesCache st)) st))
  end.

(** [ref.add({ uri, folder })]: the object literal allocates a new item. *)
Definition addNewItem (r : SetRef) (u : Uri) (f : WorkspaceFolder)
    (st : State) : State :=
  updRef r (Set_add (mkItem (nextId st) u f)) (set_nextId (S (nextId st)) st).

(** *** The coroutine monad *)

Definition Action := State → State.
Definition Sched := list Action.
Definition M (A : Type) := Sched → State → option (A * Sched * State).

Definition mret {A} (a : A) : M A := λ sch st, Some (a, sch, st).
Definition mbind {A B} (m : M A) (k : A → M B) : M B :=
  λ sch st,
    match m sch st with
    | Some (a, sch', st') => k a sch' st'
    | None => None
    end.

Notation "x ←' m ;; k" := (mbind m (λ x, k))
  (at level 100, m at next level, right associativity).
Notation "m ;;' k" := (mbind m (λ _, k))
  (at level 100, right associativity).

Definition getState : M State := λ sch st, Some (st, sch, st).
Definition modify (f : State → State) : M unit := λ sch st, Some (tt, sch, f st).

(** An [await] on the host: the next action of the schedule runs. *)
Definition yield : M unit :=
  λ sch st,
    match sch with
    | [] => Some (tt, [], st)
    | a :: sch' => Some (tt, sch', a st)
    end.

(** [await util.timeout(ms)] *)
Definition timeout (ms : nat) : M unit :=
  modify (logTimeout ms) ;;' yield.

Section WithHost.
Context (h : Host).

Definition isCachingBusy (st : State) : bool :=
  bool_decide (cacheBuilding st = true) || bool_decide (folderCaching st = true).

Fixpoint waitForCache (sch : Sched) (st : State) {struct sch}
    : option (unit * Sched * State) :=
  if bool_decide (cacheBuilding st = true) || bool_decide (folderCaching st = true) then
    match sch with
    | [] => None
    | a :: sch' => waitForCache sch' (a (logTimeout 100 st))
    end
  else Some (tt, sch, st).

Fixpoint waitForFolderCaching (sch : Sched) (st : State) {struct sch}
    : option (unit * Sched * State) :=
  if bool_decide (folderCaching st = true) then
    match sch with
    | [] => None
    | a :: sch' => waitForFolderCaching sch' (a (logTimeout 100 st))
    end
  else Some (tt, sch, st).

Definition cancelInternal (setCacheBuilding : bool) (st : State) : State :=
  if setCacheBuilding then set_cancel false (set_cacheBuilding false st) else st.

(** The [while (wait && cacheBuilding && waitCount > 0)] loop. *)
Fixpoint cancelWait (wait : bool) (waitCount : nat) : M unit :=
  match waitCount with
  | 0 => mret tt
  | S n =>
      st ←' getState ;;
      if wait && cacheBuilding st
      then timeout 500 ;;' cancelWait wait n
      else mret tt
  end.

Definition cancelBuildCache (wait : bool) : M unit :=
  st ←' getState ;;
  if negb (cacheBuilding st) then mret tt
  else modify (set_cancel true) ;;' cancelWait wait 20.

(** The [for (const fPath of paths)] loop of [buildFolderCache]; it
    contains no [await]. *)
Fixpoint scanPaths (fCache : SetRef) (fld : WorkspaceFolder)
    (setCacheBuilding : bool) (paths : list Uri) (st : State) : State :=
  match paths with
  | [] => st
  | fPath :: rest =>
      if cancel st then cancelInternal setCacheBuilding st
      else
        scanPaths fCache fld setCacheBuilding rest
          (if negb (isExcluded h (path fPath))
           then addNewItem fCache fPath fld st
           else st)
  end.

Definition buildFolderCache (fCache : SetRef) (fld : WorkspaceFolder)
    (taskType : string) (fileGlob : option string) (setCacheBuilding : bool)
    : M unit :=
  match providersExternal h !! taskType with
  | None =>
      yield ;;'
      modify (scanPaths fCache fld setCacheBuilding (findFiles h fld fileGlob))
  | Some _ => timeout 150
  end.

Fixpoint forFolders (fCache : SetRef) (taskType : string)
    (fileGlob : option string) (setCacheBuilding : bool)
    (folders : list WorkspaceFolder) : M unit :=
  match folders with
  | [] => mret tt
  | fld :: rest =>
      buildFolderCache fCache fld taskType fileGlob setCacheBuilding ;;'
      forFolders fCache taskType fileGlob setCacheBuilding rest
  end.

Definition buildFolderCaches (fCache : SetRef) (taskType : string)
    (fileGlob : option string) (setCacheBuilding : bool) : M unit :=
  match workspaceFolders h with
  | Some folders => forFolders fCache taskType fileGlob setCacheBuilding folders
  | None => mret tt
  end.

(** [taskGlobs] is a plain object ([const taskGlobs: any = {}]).  A read
    of a name that the object does not own answers the member of
    [Object.prototype] of that name, a function or an object; the field
    [taskGlobs] of the state holds the own properties. *)
Definition objectPrototypeMembers : list string :=
  ["constructor"; "__defineGetter__"; "__defineSetter__"; "hasOwnProperty";
   "__lookupGetter__"; "__lookupSetter__"; "isPrototypeOf";
   "propertyIsEnumerable"; "toString"; "valueOf"; "__proto__";
   "toLocaleString"].

Inductive GlobValue :=
| Glob (g : option string)
| Inherited.

#[global] Instance GlobValue_eq_dec : EqDecision GlobValue.
Proof. solve_decision. Defined.

Definition globTruthy (v : GlobValue) : bool :=
  match v with
  | Glob g => truthy g
  | Inherited => true
  end.

(** [taskGlobs[taskType]]; [__proto__] is an accessor of the prototype
    and never an own property. *)
Definition lookupGlob (taskType : string) (st : State) : GlobValue :=
  if String.eqb taskType "__proto__" then Inherited
  else
    match taskGlobs st !! taskType with
    | Some g => Glob g
    | None =>
        if bool_decide (taskType ∈ objectPrototypeMembers) then Inherited
        else Glob None
    end.

(** [taskGlobs[taskType] = fileGlob]; the setter of [__proto__] ignores a
    value that is neither an object nor null. *)
Definition setGlob (taskType : string) (fileGlob : option string)
    (globs : gmap string (option string)) : gmap string (option string) :=
  if String.eqb taskType "__proto__" then globs
  else <[taskType := fileGlob]> globs.

Definition buildCache (taskType : string) (fileGlob : option string)
    (wsFolder : option WorkspaceFolder) (setCacheBuilding : bool) : M unit :=
  let taskAlias := getTaskProviderType h taskType in
  st0 ←' getState ;;
  let fCache := (getOrCreateSet taskAlias st0).1 in
  modify (λ st, (getOrCreateSet taskAlias st).2) ;;'
  (if setCacheBuilding
   then waitForCache ;;' modify (set_cacheBuilding true)
   else mret tt) ;;'
  st ←' getState ;;
  (if globTruthy (lookupGlob taskType st) && negb (String.eqb taskAlias "script")
   then
     if bool_decide (lookupGlob taskType st ≠ Glob fileGlob)
     then modify (updRef fCache (λ _, []))
     else mret tt
   else mret tt) ;;'
  modify (λ st, set_taskGlobs (setGlob taskType fileGlob (taskGlobs st)) st) ;;'
  (match wsFolder with
   | None => buildFolderCaches fCache taskType fileGlob setCacheBuilding
   | Some fld => buildFolderCache fCache fld taskType fileGlob setCacheBuilding
   end) ;;'
  (if setCacheBuilding
   then modify (λ st, set_cacheBuilding false (set_cancel false st))
   else mret tt).

Definition addFileToCache (taskAlias : string) (u : Uri) (st : State) : State :=
  let '(taskCache, st1) := getOrCreateSet taskAlias st in
  match getWorkspaceFolder h u with
  | Some wsf => addNewItem taskCache u wsf st1
  | None => st1
  end.

(** [[ ...util.getTaskTypes(), ...providersExternal.keys() ].sort()] *)
Definition taskProviders : list string :=
  merge_sort string_le
    (getTaskTypes h ++ (map_to_list (providersExternal h)).*1).

(** The glob that [addFolderToCache] passes to [buildCache]. *)
Definition providerGlob (providerName : string) : option string :=
  let externalProvider := providersExternal h !! providerName in
  let glob :=
    if negb (isWatchTask h providerName) then
      match
        (match providers h !! getTaskProviderType h providerName with
         | Some p => Some p
         | None => externalProvider
         end)
      with
      | Some provider => getGlobPattern provider providerName
      | None => None
      end
    else None in
  if truthy glob then glob else utilGetGlobPattern h providerName.

Fixpoint forProviders (fld : option WorkspaceFolder) (names : list string)
    : M unit :=
  match names with
  | [] => mret tt
  | providerName :: rest =>
      st ←' getState ;;
      (if negb (cancel st)
          && (bool_decide (is_Some (providersExternal h !! providerName))
              || taskTypeEnabled h providerName)
       then buildCache providerName (providerGlob providerName) fld false
       else mret tt) ;;'
      forProviders fld rest
  end.

Definition addFolderToCache (fld : option WorkspaceFolder) : M unit :=
  waitForCache ;;'
  waitForFolderCaching ;;'
  modify (set_folderCaching true) ;;'
  modify (set_cacheBuilding true) ;;'
  forProviders fld taskProviders ;;'
  modify (set_cacheBuilding false) ;;'
  modify (set_folderCaching false) ;;'
  modify (set_cancel false).

Definition rebuildCache : M unit :=
  modify (set_filesCache ∅) ;;'
  addFolderToCache None.

Definition removeFileFromCache (taskAlias : string) (u : Uri) (st : State)
    : State :=
  match filesCache st !! taskAlias with
  | Some itemCache =>
      let toRemove := filter (λ item, fsPath (uri item) = fsPath u) (items itemCache) in
      foldl (λ s tr, updRef (mkRef taskAlias (sid itemCache)) (Set_delete tr) s)
            st toRemove
  | None => st
  end.

End WithHost.
End Cache.

(** * The older copy of the cache module

    The repository carries a second, older cache module whose
    [filesCache] is a [Map<string, Set<any>>]; its functions contain no
    [await] between reading the set and writing it, so the sets are kept
    by value here. *)
Module Legacy.

Record Item := mkItem {
  oid : nat;
  uri : Uri;
  (* workspace.getWorkspaceFolder(uri), possibly undefined *)
  folder : option WorkspaceFolder
}.

Record State := mkState {
  cacheBuilding : bool;
  cancel : bool;
  filesCache : gmap string (list Item);
  nextId : nat
}.

Definition Set_add (x : Item) (l : list Item) : list Item :=
  if bool_decide (oid x ∈ map oid l) then l else l ++ [x].

Definition Set_delete (x : Item) (l : list Item) : list Item :=
  filter (λ y, oid y ≠ oid x) l.

Section WithHost.
Context (h : Host).

Definition addFileToCache (taskAlias : string) (u : Uri) (st : State) : State :=
  let cache1 :=
    match filesCache st !! taskAlias with
    | Some _ => filesCache st
    | None => <[taskAlias := []]> (filesCache st)
    end in
  let taskCache := default [] (cache1 !! taskAlias) in
  let item := mkItem (nextId st) u (getWorkspaceFolder h u) in
  mkState (cacheBuilding st) (cancel st)
          (<[taskAlias := Set_add item taskCache]> cache1)
          (S (nextId st)).

Definition removeFileFromCache (taskAlias : string) (u : Uri) (st : State)
    : State :=
  match filesCache st !! taskAlias with
  | None => st
  | Some taskCache =>
      let toRemove := filter (λ item, fsPath (uri item) = fsPath u) taskCache in
      if bool_decide (0 < length toRemove) then
        mkState (cacheBuilding st) (cancel st)
                (<[taskAlias := foldl (λ s tr, Set_delete tr s) taskCache toRemove]>
                   (filesCache st))
                (nextId st)
      else st
  end.

End WithHost.
End Legacy.

(** * The provider base class, [TaskExplorerProvider] *)
Module Provider.

(** The fields of a provider object. *)
Record Provider := mkProvider {
  cachedTasks : option (list Task);
  invalidating : bool;
  providerName : string;
  queue : list Uri
}.

(** A provider object together with the module state of [cache.ts] that
    it reads and writes, and the arguments of the [readUriTasks] calls
    made so far, in order. *)
Record World := mkWorld {
  self : Provider;
  cache : Cache.State;
  uriReads : list Uri
}.

(** The methods that a concrete provider supplies: the abstract
    [readUriTasks], and [readTasks], which a subclass may override. *)
Record Class := mkClass {
  vReadUriTasks : Uri → list Task;
  vReadTasks : Provider → Cache.State → list Task * list Uri
}.

Definition new (name : string) : Provider := mkProvider None false name [].

Definition set_cachedTasks (c : option (list Task)) (p : Provider) : Provider :=
  mkProvider c (invalidating p) (providerName p) (queue p).
Definition set_invalidating (b : bool) (p : Provider) : Provider :=
  mkProvider (cachedTasks p) b (providerName p) (queue p).
Definition set_queue (q : list Uri) (p : Provider) : Provider :=
  mkProvider (cachedTasks p) (invalidating p) (providerName p) q.

Section WithHost.
Context (h : Host).

(** The [for (const fObj of paths)] loop of [readTasks]; the result is
    [allTasks] and the uris handed to [readUriTasks], in order. *)
Fixpoint readLoop (readUriTasks : Uri → list Task)
    (paths : list Cache.ICacheItem) (visitedFiles : gset string)
    (allTasks : list Task) (reads : list Uri) : list Task * list Uri :=
  match paths with
  | [] => (allTasks, reads)
  | fObj :: rest =>
      let u := Cache.uri fObj in
      if negb (isExcluded h (path u))
         && negb (bool_decide (fsPath u ∈ visitedFiles))
         && pathExists h (fsPath u)
      then
        readLoop readUriTasks rest ({[fsPath u]} ∪ visitedFiles)
                 (allTasks ++ readUriTasks u) (reads ++ [u])
      else readLoop readUriTasks rest visitedFiles allTasks reads
  end.

Definition readTasks (readUriTasks : Uri → list Task) (p : Provider)
    (c : Cache.State) : list Task * list Uri :=
  let enabled := taskTypeEnabled h (providerName p) in
  match Cache.filesCache c !! providerName p with
  | Some paths =>
      if enabled then readLoop readUriTasks (Cache.items paths) ∅ [] []
      else ([], [])
  | None => ([], [])
  end.

(** A provider class that does not override [readTasks]. *)
Definition baseClass (readUriTasks : Uri → list Task) : Class :=
  mkClass readUriTasks (readTasks readUriTasks).

Section WithClass.
Context (cls : Class).

Definition provideTasks (w : World) : list Task * World :=
  match cachedTasks (self w) with
  | Some tasks => (tasks, w)
  | None =>
      let '(tasks, reads) := vReadTasks cls (self w) (cache w) in
      (tasks,
       mkWorld (set_cachedTasks (Some tasks) (self w)) (cache w)
               (uriReads w ++ reads))
  end.

(** The tasks that [invalidate(uri)] drops from [cachedTasks]. *)
Definition staleTask (u : Uri) (each : Task) : bool :=
  match defUri (definition each) with
  | Some du =>
      bool_decide (fsPath du = fsPath u) || negb (pathExists h (fsPath du))
  | None => false
  end.

(** The body of [invalidate] between [this.invalidating = true] and
    [this.invalidating = false].  [util.removeFromArray] and
    [util.existsInArray] are not among the sources; the first is taken to
    remove the given element from the array, the second to return [false]
    exactly when the element does not occur. *)
Definition invalidateCached (u : option Uri) (w : World) : World :=
  match cachedTasks (self w) with
  | Some cached =>
      match u with
      | Some ur =>
          let exists_ := pathExists h (fsPath ur) in
          let kept := filter (λ each, staleTask ur each = false) cached in
          let w1 :=
            if exists_ && bool_decide (path ur ∉ excludeSetting h) then
              mkWorld (set_cachedTasks (Some (kept ++ vReadUriTasks cls ur)) (self w))
                      (cache w) (uriReads w ++ [ur])
            else if negb exists_ then
              mkWorld (set_cachedTasks (Some kept) (self w))
                      (Cache.removeFileFromCache (providerName (self w)) ur (cache w))
                      (uriReads w)
            else
              mkWorld (set_cachedTasks (Some kept) (self w)) (cache w) (uriReads w) in
          match cachedTasks (self w1) with
          | Some (_ :: _) => w1
          | _ => mkWorld (set_cachedTasks None (self w1)) (cache w1) (uriReads w1)
          end
      | None => mkWorld (set_cachedTasks None (self w)) (cache w) (uriReads w)
      end
  | None => w
  end.

(** [invalidate], with [processQueue] inlined at its end; each nested
    call of [invalidate] through [processQueue] uses one unit of [fuel]. *)
Fixpoint invalidate (fuel : nat) (u : option Uri) (w : World) : option World :=
  match fuel with
  | 0 => None
  | S fuel' =>
      match u, invalidating (self w) with
      | Some ur, true =>
          Some (mkWorld (set_queue (queue (self w) ++ [ur]) (self w))
                        (cache w) (uriReads w))
      | _, _ =>
          let w1 := mkWorld (set_invalidating true (self w)) (cache w) (uriReads w) in
          let w2 := invalidateCached u w1 in
          let w3 := mkWorld (set_invalidating false (self w2)) (cache w2) (uriReads w2) in
          match queue (self w3) with
          | [] => Some w3
          | next :: rest =>
              invalidate fuel' (Some next)
                (mkWorld (set_queue rest (self w3)) (cache w3) (uriReads w3))
          end
      end
  end.

End WithClass.
End WithHost.
End Provider.

(** * The pipenv provider, [PipenvTaskProvider] *)
Module Pipenv.

Section WithHost.
Context (h : Host).

Definition getDefaultDefinition (tgt : string) (fld : WorkspaceFolder)
    (u : Uri) : TaskExplorerDefinition :=
  mkDefinition "pipenv" tgt tgt (getRelativePath h fld u)
               (basename h (path u)) (Some u).

Definition createTask (tgt cmd : string) (fld : WorkspaceFolder) (u : Uri)
    : Task :=
  let pipenv := pathToPipenv h in
  let pythonPath : option string :=
    if String.eqb pipenv "pipenv"
    then Some (default "python" (pythonPathSetting h))
    else None in
  let def := getDefaultDefinition tgt fld u in
  let cwd := dirname h (fsPath u) in
  let args := ["run"; tgt] in
  let args := if truthy pythonPath then ["-m"; "pipenv"] ++ args else args in
  let execution := mkShellExecution (default pipenv pythonPath) args cwd in
  mkTask def fld tgt "pipenv" execution ["$msCompile"] None.

(** [Object.entries(pipfile.result?.scripts ?? {}).forEach(...)] *)
Definition findTargets (fsPath : string) : list string :=
  let contents := readFileSync h fsPath in
  foldl (λ scripts entry, scripts ++ [entry.1]) []
        (Object_entries (default (JsObject []) (tomlScripts h contents))).

Definition set_group (g : TaskGroup) (t : Task) : Task :=
  mkTask (definition t) (scope t) (taskName t) (source t) (execution t)
         (problemMatchers t) (Some g).

Definition readUriTasks (u : Uri) : list Task :=
  match getWorkspaceFolder h u with
  | Some fld =>
      let scripts := findTargets (fsPath u) in
      foldl (λ result s, result ++ [set_group Build (createTask s s fld u)])
            [] scripts
  | None => []
  end.

(** The loop of the overriding [readTasks]: no [pathExists] test. *)
Fixpoint readLoop (paths : list Cache.ICacheItem) (visitedFiles : gset string)
    (allTasks : list Task) (reads : list Uri) : list Task * list Uri :=
  match paths with
  | [] => (allTasks, reads)
  | obj :: rest =>
      let u := Cache.uri obj in
      if negb (isExcluded h (path u))
         && negb (bool_decide (fsPath u ∈ visitedFiles))
      then
        readLoop rest ({[fsPath u]} ∪ visitedFiles)
                 (allTasks ++ readUriTasks u) (reads ++ [u])
      else readLoop rest visitedFiles allTasks reads
  end.

Definition readTasks (c : Cache.State) : list Task * list Uri :=
  match workspaceFolders h, Cache.filesCache c !! "pipenv" with
  | Some _, Some paths => readLoop (Cache.items paths) ∅ [] []
  | _, _ => ([], [])
  end.

Definition class : Provider.Class :=
  Provider.mkClass readUriTasks (λ _, readTasks).

End WithHost.
End Pipenv.

(** * Specification vocabulary *)

(** ** Well-formed cache states

    In a cache state produced by the code, the members of a [Set] are
    distinct objects, and every object was handed out by the allocator. *)

Definition wfSet (lo bound : nat) (l : list Cache.ICacheItem) : Prop :=
  NoDup (Cache.oid <$> l) ∧ Forall (λ x, lo ≤ Cache.oid x < bound) l.

(** [wfFrom lo st]: every set of the cache is well formed and holds only
    objects allocated at or after [lo]. *)
Definition wfFrom (lo : nat) (st : Cache.State) : Prop :=
  lo ≤ Cache.nextId st
  ∧ map_Forall (λ _ s, wfSet lo (Cache.nextId st) (Cache.items s))
               (Cache.filesCache st).

Definition wf (st : Cache.State) : Prop := wfFrom 0 st.

#[global] Instance wfSet_dec lo b l : Decision (wfSet lo b l).
Proof. unfold wfSet. apply _. Defined.

#[global] Instance wfFrom_dec lo st : Decision (wfFrom lo st).
Proof. unfold wfFrom. apply _. Defined.

#[global] Instance wf_dec st : Decision (wf st).
Proof. unfold wf. apply _. Defined.

(** ** Coroutines *)

(** A computation that returns whatever the other coroutines do. *)
Definition always_returns {A} (m : Cache.M A) : Prop := ∀ sch st, is_Some (m sch st).

(** What the schedule does to the state while a polling loop sleeps:
    before each action the loop has asked for a 100 ms timeout. *)
Definition sleepThrough (ran : Cache.Sched) (st : Cache.State) : Cache.State :=
  foldl (λ s a, a (Cache.logTimeout 100 s)) st ran.

(** The test of the base class, and the test of the pipenv provider. *)
Definition readable (h : Host) (u : Uri) : bool :=
  negb (isExcluded h (path u)) && pathExists h (fsPath u).

Definition included (h : Host) (u : Uri) : bool :=
  negb (isExcluded h (path u)).

(** ** Sample data *)

Definition uA : Uri := mkUri "/ws/a/Pipfile" "/ws/a/Pipfile".
Definition uB : Uri := mkUri "/ws/b/Pipfile" "/ws/b/Pipfile".
Definition wsF : WorkspaceFolder := mkWorkspaceFolder (mkUri "/ws" "/ws") "ws" 0.

Definition stEx : Cache.State :=
  Cache.mkState false false false ∅
    {[ "pipenv" := Cache.mkSet 0 [Cache.mkItem 1 uA wsF; Cache.mkItem 2 uB wsF;
                                  Cache.mkItem 3 uA wsF] ]}
    4 [].


Definition uOut : Uri := mkUri "/elsewhere/Pipfile" "/elsewhere/Pipfile".

Definition sampleHost : Host :=
  {| workspaceFolders := Some [wsF];
     getWorkspaceFolder :=
       λ u, if String.prefix "/ws/" (path u) then Some wsF else None;
     findFiles := λ _ _, [uA; uB];
     providers := ∅;
     providersExternal := ∅;
     getTaskTypes := ["pipenv"];
     getTaskProviderType := λ t, t;
     isWatchTask := λ _, false;
     utilGetGlobPattern := λ _, Some "**/Pipfile";
     isExcluded := λ _, false;
     taskTypeEnabled := λ _, true;
     pathExists := λ _, true;
     excludeSetting := [];
     readFileSync := λ p, p;
     getRelativePath := λ _ u, path u;
     dirname := λ p, p;
     basename := λ p, p;
     pathToPipenv := "pipenv";
     pythonPathSetting := None;
     tomlScripts :=
       λ contents,
         if String.eqb contents "/ws/a/Pipfile"
         then Some (JsObject [("test", JsString "pytest");
                              ("lint", JsString "flake8")])
         else None |}.

Definition legacyEx : Legacy.State :=
  Legacy.mkState false false
    {[ "pipenv" := [Legacy.mkItem 1 uA (Some wsF); Legacy.mkItem 2 uB (Some wsF)] ]}
    3.

(** ** Callers of the cache module

    What the rest of the extension does to the cache while an [async]
    function of [cache.ts] is suspended: the file watchers add and remove
    files, and the user may ask for the build to be cancelled. *)
Inductive Client :=
| FileCreated (taskAlias : string) (u : Uri)
| FileDeleted (taskAlias : string) (u : Uri)
| CancelRequested.

Definition clientAction (h : Host) (c : Client) : Cache.Action :=
  match c with
  | FileCreated taskAlias u => Cache.addFileToCache h taskAlias u
  | FileDeleted taskAlias u => Cache.removeFileFromCache taskAlias u
  | CancelRequested =>
      λ st, match Cache.cancelBuildCache false [] st with
            | Some (_, _, st') => st'
            | None => st
            end
  end.

(** The exported operations that write the cache, each [async] one with
    what its callers do while it is suspended. *)
Inductive Op :=
| OpAddFile (taskAlias : string) (u : Uri)
| OpRemoveFile (taskAlias : string) (u : Uri)
| OpBuildCache (taskType : string) (fileGlob : option string)
    (wsFolder : option WorkspaceFolder) (setCacheBuilding : bool)
    (others : list Client)
| OpAddFolder (fld : option WorkspaceFolder) (others : list Client)
| OpRebuild (others : list Client).

Definition finalState {A} (r : option (A * Cache.Sched * Cache.State))
    : option Cache.State :=
  snd <$> r.

Definition runOp (h : Host) (op : Op) (st : Cache.State) : option Cache.State :=
  match op with
  | OpAddFile taskAlias u => Some (Cache.addFileToCache h taskAlias u st)
  | OpRemoveFile taskAlias u => Some (Cache.removeFileFromCache taskAlias u st)
  | OpBuildCache taskType fileGlob wsFolder setCacheBuilding others =>
      finalState (Cache.buildCache h taskType fileGlob wsFolder setCacheBuilding
                    (clientAction h <$> others) st)
  | OpAddFolder fld others =>
      finalState (Cache.addFolderToCache h fld (clientAction h <$> others) st)
  | OpRebuild others =>
      finalState (Cache.rebuildCache h (clientAction h <$> others) st)
  end.

Fixpoint runOps (h : Host) (ops : list Op) (st : Cache.State)
    : option Cache.State :=
  match ops with
  | [] => Some st
  | op :: rest =>
      match runOp h op st with
      | Some st' => runOps h rest st'
      | None => None
      end
  end.

(** ** Invariants of coroutines *)

(** Every action of the schedule keeps [I]. *)
Definition respects (I : Cache.State → Prop) (sch : Cache.Sched) : Prop :=
  Forall (λ act, ∀ s, I s → I (act s)) sch.

(** [m] keeps [I], provided the coroutines it yields to do. *)
Definition keeps (I : Cache.State → Prop) {A} (m : Cache.M A) : Prop :=
  ∀ sch st a sch' st',
    respects I sch → I st → m sch st = Some (a, sch', st') →
    I st' ∧ respects I sch'.

(** The cache after one scan of the sample workspace for Pipfiles. *)
Definition scanOnce : list Op :=
  [OpBuildCache "pipenv" (Some "**/Pipfile") None true []].

Definition stScanned : Cache.State :=
  default Cache.initial (runOps sampleHost scanOnce Cache.initial).


(** ** Reading the cache once per file *)

(** The loop of [readTasks] with the test on the file left open. *)
Fixpoint visitLoop (ok : Uri → bool) (readUriTasks : Uri → list Task)
    (paths : list Cache.ICacheItem) (visitedFiles : gset string)
    (allTasks : list Task) (reads : list Uri) : list Task * list Uri :=
  match paths with
  | [] => (allTasks, reads)
  | fObj :: rest =>
      let u := Cache.uri fObj in
      if ok u && negb (bool_decide (fsPath u ∈ visitedFiles))
      then visitLoop ok readUriTasks rest ({[fsPath u]} ∪ visitedFiles)
                     (allTasks ++ readUriTasks u) (reads ++ [u])
      else visitLoop ok readUriTasks rest visitedFiles allTasks reads
  end.

(** [reads] visits the files of [items] that pass [ok], each [fsPath]
    once. *)
Definition visitsOnce (ok : Uri → bool) (items : list Cache.ICacheItem)
    (reads : list Uri) : Prop :=
  NoDup (fsPath <$> reads)
  ∧ (∀ u, u ∈ reads → ok u = true ∧ u ∈ Cache.uri <$> items)
  ∧ (∀ it, it ∈ items → ok (Cache.uri it) = true →
       fsPath (Cache.uri it) ∈ fsPath <$> reads).

(** The sample host with every task type disabled in the settings. *)
Definition disabledHost : Host :=
  {| workspaceFolders := workspaceFolders sampleHost;
     getWorkspaceFolder := getWorkspaceFolder sampleHost;
     findFiles := findFiles sampleHost;
     providers := providers sampleHost;
     providersExternal := providersExternal sampleHost;
     getTaskTypes := getTaskTypes sampleHost;
     getTaskProviderType := getTaskProviderType sampleHost;
     isWatchTask := isWatchTask sampleHost;
     utilGetGlobPattern := utilGetGlobPattern sampleHost;
     isExcluded := isExcluded sampleHost;
     taskTypeEnabled := λ _, false;
     pathExists := pathExists sampleHost;
     excludeSetting := excludeSetting sampleHost;
     readFileSync := readFileSync sampleHost;
     getRelativePath := getRelativePath sampleHost;
     dirname := dirname sampleHost;
     basename := basename sampleHost;
     pathToPipenv := pathToPipenv sampleHost;
     pythonPathSetting := pythonPathSetting sampleHost;
     tomlScripts := tomlScripts sampleHost |}.

(** A pipenv provider that already provided its tasks and has a uri
    waiting in its queue. *)
Definition worldEx : Provider.World :=
  Provider.mkWorld
    (Provider.mkProvider (Some (Pipenv.readUriTasks sampleHost uA)) false "pipenv" [uB])
    stEx [uA].

(** Another build finishes. *)
Definition finishBuild : Cache.Action :=
  λ s, Cache.set_folderCaching false (Cache.set_cacheBuilding false s).

(** The user asks for the build to be cancelled while it runs. *)
Definition requestCancel : Cache.Action := Cache.set_cancel true.

(** * More of the code

    ** JavaScript strings

    A string is its sequence of code units; what the modelled code uses
    of [String.prototype] is defined on that sequence. *)
Module JS.

Fixpoint drop (n : nat) (s : string) : string :=
  match n, s with
  | 0, _ => s
  | S n', String _ s' => drop n' s'
  | S _, EmptyString => EmptyString
  end.

Fixpoint take (n : nat) (s : string) : string :=
  match n, s with
  | 0, _ => EmptyString
  | S n', String c s' => String c (take n' s')
  | S _, EmptyString => EmptyString
  end.

(** An index argument, brought into [0 .. s.length]. *)
Definition clamp (i : Z) (s : string) : nat :=
  Z.to_nat (Z.min (Z.max i 0) (Z.of_nat (String.length s))).

(** [s.substring(start, end)] *)
Definition substring (s : string) (start end_ : Z) : string :=
  let a := clamp start s in
  let b := clamp end_ s in
  take (Nat.max a b - Nat.min a b) (drop (Nat.min a b) s).

(** The first index at which [needle] starts in [s]. *)
Fixpoint search (needle s : string) : option nat :=
  if String.prefix needle s then Some 0
  else match s with
       | EmptyString => None
       | String _ s' => S <$> search needle s'
       end.

(** [s.indexOf(needle, position)] *)
Definition indexOf (s needle : string) (position : Z) : Z :=
  let pos := clamp position s in
  match search needle (drop pos s) with
  | Some k => Z.of_nat (pos + k)
  | None => (-1)%Z
  end.

(** [s.endsWith(suffix)] *)
Definition endsWith (s suffix : string) : bool :=
  if String.length suffix <=? String.length s
  then String.eqb (drop (String.length s - String.length suffix) s) suffix
  else false.

(** [s.replace(pattern, "")] for a string [pattern]: the first
    occurrence goes. *)
Definition removeFirst (s pattern : string) : string :=
  match search pattern s with
  | Some k => take k s +:+ drop (k + String.length pattern) s
  | None => s
  end.

(** Numbers are IEEE 754 doubles; those that are integers are modelled
    by [Z], an integer that is no double standing for the double nearest
    to it.  [toDouble z] is that double, ties to the even significand;
    integers of magnitude up to 2^53 are doubles themselves.
    (Magnitudes from 2^1024 on, which are infinite as doubles, do not
    occur among positions in a text.) *)
Definition toDouble (z : Z) : Z :=
  let a := Z.abs z in
  if (a <? 2 ^ 53)%Z then z
  else
    let e := (Z.log2 a - 52)%Z in
    let q := Z.shiftr a e in
    let r := (a - Z.shiftl q e)%Z in
    let half := Z.shiftl 1 (e - 1) in
    let q' :=
      if (r <? half)%Z then q
      else if (half <? r)%Z then (q + 1)%Z
      else if Z.even q then q else (q + 1)%Z in
    (Z.sgn z * Z.shiftl q' e)%Z.

(** [a + b] on numbers. *)
Definition add (a b : Z) : Z := toDouble (toDouble a + toDouble b).

(** The code unit of the backslash, as a text. *)
Definition backslash : string := String (Ascii.ascii_of_nat 92) EmptyString.

End JS.

(** [needle] starts at index [k] of [s]. *)
Definition occursAt (needle s : string) (k : nat) : Prop :=
  k ≤ String.length s ∧ String.prefix needle (JS.drop k s) = true.

(** ** cache.ts: the text of the status bar *)
Module StatusBar.

(** The loop [for (let i = msg.length; i < statusLength; i++) msg += " "],
    by the number of rounds it makes. *)
Fixpoint pad (rounds : nat) (msg : string) : string :=
  match rounds with
  | 0 => msg
  | S n => pad n (msg +:+ " ")
  end.

Definition getStatusString (msg : string) (statusLength : Z) : string :=
  let msg' :=
    if (Z.of_nat (String.length msg) <? statusLength)%Z
    then pad (Z.to_nat (statusLength - Z.of_nat (String.length msg))) msg
    else JS.substring msg 0 (statusLength - 3) +:+ "..." in
  "$(loading~spin) " +:+ msg'.

End StatusBar.

(** [n] blanks. *)
Fixpoint spaces (n : nat) : string :=
  match n with
  | 0 => ""
  | S n' => String (Ascii.ascii_of_nat 32) (spaces n')
  end.

(** ** What a scan adds *)

Definition pairOf (it : Cache.ICacheItem) : Uri * WorkspaceFolder :=
  (Cache.uri it, Cache.folder it).

(** The files that a scan of [fld] puts into the cache: those that
    [findFiles] reports and [isExcluded] lets pass, each with [fld]. *)
Definition scanned (h : Host) (fileGlob : option string) (fld : WorkspaceFolder)
    : list (Uri * WorkspaceFolder) :=
  (λ u, (u, fld)) <$> filter (λ u, isExcluded h (path u) = false)
                              (findFiles h fld fileGlob).

(** [st'] is [st] with one new object for each of [pairs], in order, at
    the end of the set stored under [key]; but for the allocator nothing
    else differs. *)
Definition grows (key : string) (pairs : list (Uri * WorkspaceFolder))
    (st st' : Cache.State) : Prop :=
  ∃ i its new,
    Cache.filesCache st !! key = Some (Cache.mkSet i its)
    ∧ st' = Cache.set_nextId (Cache.nextId st + length pairs)
              (Cache.set_filesCache
                 (<[key := Cache.mkSet i (its ++ new)]> (Cache.filesCache st)) st)
    ∧ pairOf <$> new = pairs
    ∧ Cache.oid <$> new = seq (Cache.nextId st) (length pairs).



(** A second folder of the sample workspace. *)
Definition wsG : WorkspaceFolder := mkWorkspaceFolder (mkUri "/ws2" "/ws2") "ws2" 1.

(** [cancel] is set and the cache is [c]. *)
Definition cancelledAt (c : gmap string Cache.SetObj) (s : Cache.State) : Prop :=
  Cache.cancel s = true ∧ Cache.filesCache s = c.

(** ** Pipfiles *)




(** ** Who sees the busy flags *)

(** Both busy flags are set. *)
Definition bothBusy (s : Cache.State) : Prop :=
  Cache.cacheBuilding s = true ∧ Cache.folderCaching s = true.

(** Two actions that do the same to every state in which both busy flags
    are set. *)
Definition sameWhileBusy (a a' : Cache.Action) : Prop :=
  ∀ s, bothBusy s → a s = a' s.

(** [m] lets the other coroutines run only while both busy flags are
    set: started with both flags set, against coroutines that keep them
    set, it runs alike against any others that do the same while both
    flags are set, and it ends with both flags set. *)
Definition blind {A} (m : Cache.M A) : Prop :=
  ∀ sch sch2 st,
    bothBusy st → respects bothBusy sch → Forall2 sameWhileBusy sch sch2 →
    ∃ a n st',
      m sch st = Some (a, drop n sch, st')
      ∧ m sch2 st = Some (a, drop n sch2, st')
      ∧ bothBusy st'.

(** [a] where both busy flags are set, and the loss of the whole state
    anywhere else. *)
Definition onlyWhileBusy (a : Cache.Action) : Cache.Action :=
  λ s, if Cache.cacheBuilding s && Cache.folderCaching s then a s
       else Cache.initial.

(** ** What a rebuild finds *)




(** ** The provider base class: positions in a document *)
Module ProviderText.

Definition dquote : string := String (Ascii.ascii_of_nat 34) EmptyString.
Definition squote : string := "'".

(** [advance] and [start] are taken to be integers. *)
Definition getDocumentPositionLine (lineName scriptName documentText : string)
    (advance start : Z) (skipQuotes : bool) : Z :=
  let idx :=
    JS.indexOf documentText
      (lineName +:+ (if negb skipQuotes then dquote else "") +:+ scriptName
                +:+ (if negb skipQuotes then dquote else "")) start in
  let idx :=
    if (idx =? -1)%Z
    then JS.indexOf documentText
           (lineName +:+ (if negb skipQuotes then squote else "") +:+ scriptName
                     +:+ (if negb skipQuotes then squote else "")) start
    else idx in
  if negb (advance =? 0)%Z && negb (idx =? -1)%Z then JS.add idx advance else idx.

(** [PipenvTaskProvider.getDocumentPosition]; an undefined task name is
    concatenated as the text "undefined", and [indexOf] on an undefined
    document throws ([None]). *)
Definition getDocumentPosition (taskName documentText : option string)
    : option Z :=
  match documentText with
  | None => None
  | Some text =>
      Some (getDocumentPositionLine "" (default "undefined" taskName) text 0 0 true)
  end.

End ProviderText.

(** ** The provider base class: one round of [invalidate]

    What [invalidate] does for one uri when it is not turned away: set
    [invalidating], update [cachedTasks], clear [invalidating]. *)
Definition invalidateOne (h : Host) (cls : Provider.Class) (u : option Uri)
    (w : Provider.World) : Provider.World :=
  let w1 := Provider.mkWorld (Provider.set_invalidating true (Provider.self w))
                             (Provider.cache w) (Provider.uriReads w) in
  let w2 := Provider.invalidateCached h cls u w1 in
  Provider.mkWorld (Provider.set_invalidating false (Provider.self w2))
                   (Provider.cache w2) (Provider.uriReads w2).

Definition withQueue (q : list Uri) (w : Provider.World) : Provider.World :=
  Provider.mkWorld (Provider.set_queue q (Provider.self w))
                   (Provider.cache w) (Provider.uriReads w).

(** [undefined] for an array without elements, else the array. *)
Definition nonEmpty {A} (l : list A) : option (list A) :=
  match l with
  | [] => None
  | _ :: _ => Some l
  end.

(** ** The tree nodes, [TaskFile] and [TaskItem] *)
Module TaskFile.

(** What the methods below use of a tree node object; a [TaskItem] has a
    [groupLevel] and no [treeNodes], which reads as the empty list. *)
Record Node := mkNode {
  groupLevel : Z;
  treeNodes : list nat
}.

(** The node objects by identity. *)
Definition Heap := gmap nat Node.

Definition addTreeNode (this : nat) (treeNode : option nat) (hp : gmap nat Node)
    : gmap nat Node :=
  match treeNode, hp !! this with
  | Some child, Some me =>
      let hp1 := alter (λ c, mkNode (groupLevel me) (treeNodes c)) child hp in
      alter (λ t, mkNode (groupLevel t) (treeNodes t ++ [child])) this hp1
  | _, _ => hp
  end.

(** Where [Array.prototype.splice(start, ...)] starts in an array of
    length [len]. *)
Definition spliceStart (start : Z) (len : nat) : nat :=
  if (start <? 0)%Z
  then Z.to_nat (Z.max (Z.of_nat len + start) 0)
  else Z.to_nat (Z.min start (Z.of_nat len)).

Definition insertTreeNode (this : nat) (treeItem : nat) (index : Z)
    (hp : gmap nat Node) : gmap nat Node :=
  alter (λ t, let k := spliceStart index (length (treeNodes t)) in
              mkNode (groupLevel t)
                     (take k (treeNodes t) ++ [treeItem] ++ drop k (treeNodes t)))
        this hp.

(** The [forEach] of [removeTreeNode]: [idx] counts the elements, [idx2]
    is the index of the latest element identical to [treeItem]. *)
Definition removeLoop (treeItem : nat) (l : list nat) : Z * Z :=
  foldl (λ acc each,
           let idx := (acc.1 + 1)%Z in
           (idx, if bool_decide (treeItem = each) then idx else acc.2))
        ((-1)%Z, (-1)%Z) l.

Definition removeTreeNode (this : nat) (treeItem : nat) (hp : gmap nat Node)
    : gmap nat Node :=
  alter (λ t, let idx2 := (removeLoop treeItem (treeNodes t)).2 in
              if negb (idx2 =? -1)%Z && (idx2 <? Z.of_nat (length (treeNodes t)))%Z
              then mkNode (groupLevel t)
                          (take (Z.to_nat idx2) (treeNodes t)
                           ++ drop (S (Z.to_nat idx2)) (treeNodes t))
              else t)
        this hp.

(** The index of the last element of [l] identical to [x]. *)
Fixpoint lastIndex (x : nat) (l : list nat) : option nat :=
  match l with
  | [] => None
  | y :: l' =>
      match lastIndex x l' with
      | Some i => Some (S i)
      | None => if bool_decide (x = y) then Some 0 else None
      end
  end.

Section Label.
(** [String.prototype.toLowerCase], and the two regular expressions of
    [getLabel]: whether [/build.xml/i] matches, and the first group of
    [/\.publishrc\.(.+)\.(?:js(?:on)?|ya?ml)$/i] when it matches. *)
Context (toLowerCase : string → string)
        (matchesBuildXml : string → bool)
        (publishrcTag : string → option string).

(** An undefined [fileName] or [type] of the task definition reads as the
    empty text, which [getLabel] treats alike. *)
Definition getLabel (taskDef : TaskExplorerDefinition) (source relativePath : string)
    (group : bool) : string :=
  let label := if String.eqb source "Workspace" then "vscode" else source in
  let len := Z.of_nat (String.length relativePath) in
  if negb group then
    if String.eqb source "ant" then
      if truthy (Some (fileName taskDef)) && negb (matchesBuildXml (fileName taskDef))
      then
        if (0 <? len)%Z && negb (String.eqb relativePath ".vscode")
           && truthy (Some (type taskDef))
        then label +:+ " (" +:+ toLowerCase (JS.substring relativePath 0 (len - 1))
                   +:+ "/" +:+ toLowerCase (fileName taskDef) +:+ ")"
        else label +:+ " (" +:+ toLowerCase (fileName taskDef) +:+ ")"
      else toLowerCase label
    else if String.eqb source "app-publisher" then
      match publishrcTag (fileName taskDef) with
      | Some tag =>
          if truthy (Some tag) then label +:+ " (" +:+ toLowerCase tag +:+ ")"
          else toLowerCase label
      | None => toLowerCase label
      end
    else if (0 <? len)%Z && negb (String.eqb relativePath ".vscode")
            && negb (String.eqb source "Workspace")
            && negb (String.eqb relativePath ".")
    then
      if JS.endsWith relativePath JS.backslash || JS.endsWith relativePath "/"
      then label +:+ " (" +:+ toLowerCase (JS.substring relativePath 0 (len - 1)) +:+ ")"
      else label +:+ " (" +:+ toLowerCase relativePath +:+ ")"
    else toLowerCase label
  else toLowerCase label.

End Label.
End TaskFile.

Module TaskItem.

(** The closure [getDisplayName] of the constructor; [groupSeparator] is
    [util.getGroupSeparator()]. *)
Definition getDisplayName (groupSeparator : string) (taskName taskGroup : string)
    : string :=
  let displayName := taskName in
  if negb (JS.indexOf displayName " - " 0 =? -1)%Z
     && (negb (JS.indexOf displayName "/" 0 =? -1)%Z
         || negb (JS.indexOf displayName JS.backslash 0 =? -1)%Z
         || negb (JS.indexOf displayName " - tsconfig.json" 0 =? -1)%Z)
  then
    if truthy (Some taskGroup)
    then JS.removeFirst taskName (taskGroup +:+ groupSeparator)
    else JS.substring taskName 0 (JS.indexOf taskName " - " 0)
  else displayName.

End TaskItem.

(** A small tree: node 1 (a [TaskFile] at group level 2) with the
    children 5 and 6; node 7 is not in the tree. *)
Definition heapEx : gmap nat TaskFile.Node :=
  {[ 1 := TaskFile.mkNode 2 [5; 6];
     5 := TaskFile.mkNode 0 [];
     6 := TaskFile.mkNode 0 [];
     7 := TaskFile.mkNode 0 [] ]}.

(** [relativePath] without one slash or backslash at its end. *)
Definition trimSlash (relativePath : string) : string :=
  if JS.endsWith relativePath JS.backslash || JS.endsWith relativePath "/"
  then JS.take (String.length relativePath - 1) relativePath
  else relativePath.

(** [needle] occurs in [s], and [k] is the first place. *)
Definition firstAt (needle s : string) (k : nat) : Prop :=
  occursAt needle s k ∧ ∀ j, j < k → ¬ occursAt needle s j.

Definition absent (needle s : string) : Prop := ∀ j, ¬ occursAt needle s j.
(** * Properties *)

(** ** Lists as sets of objects *)

Section ListFacts.
Context {A B : Type}.

Lemma filter_ext_elem (P Q : A → Prop) `{!∀ x, Decision (P x)}
    `{!∀ x, Decision (Q x)} (l : list A) :
  (∀ x, x ∈ l → P x ↔ Q x) → filter P l = filter Q l.
Proof.
  induction l as [|a l IH]; intros Hpq; [done|].
  rewrite !filter_cons.
  assert (P a ↔ Q a) as Ha by (apply Hpq; left).
  rewrite IH; [|intros x Hx; apply Hpq; by right].
  destruct (decide (P a)), (decide (Q a)); tauto.
Qed.

Lemma filter_all (P : A → Prop) `{!∀ x, Decision (P x)} (l : list A) :
  (∀ x, x ∈ l → P x) → filter P l = l.
Proof.
  induction l as [|a l IH]; intros Hp; [done|].
  rewrite filter_cons, decide_True by (apply Hp; left).
  f_equal. apply IH. intros x Hx. apply Hp. by right.
Qed.

Lemma NoDup_fmap_same (f : A → B) (l : list A) (x y : A) :
  NoDup (f <$> l) → x ∈ l → y ∈ l → f x = f y → x = y.
Proof.
  induction l as [|a l IH]; intros Hnd Hx Hy Hf; [by inversion Hx|].
  rewrite fmap_cons in Hnd. apply NoDup_cons in Hnd as [Hna Hnd].
  apply elem_of_cons in Hx as [->|Hx]; apply elem_of_cons in Hy as [->|Hy];
    try done.
  - exfalso. apply Hna. rewrite Hf. by apply list_elem_of_fmap_2.
  - exfalso. apply Hna. rewrite <- Hf. by apply list_elem_of_fmap_2.
  - by apply IH.
Qed.

(** Deleting from [l], one after the other, the elements of [rm], each by
    its key [f]. *)
Lemma foldl_delete_by `{!EqDecision B} (f : A → B) (l rm : list A) :
  foldl (λ s tr, filter (λ y, f y ≠ f tr) s) l rm
  = filter (λ y, f y ∉ f <$> rm) l.
Proof.
  revert l. induction rm as [|tr rm IH]; intros l; simpl.
  - symmetry. apply filter_all. intros x _. apply not_elem_of_nil.
  - rewrite IH, list_filter_filter.
    apply list_filter_iff. intros x. rewrite not_elem_of_cons. tauto.
Qed.

Lemma delete_matching_by `{!EqDecision B} (f : A → B) (P : A → Prop)
    `{!∀ x, Decision (P x)} (l : list A) :
  NoDup (f <$> l) →
  foldl (λ s tr, filter (λ y, f y ≠ f tr) s) l (filter P l)
  = filter (λ y, ¬ P y) l.
Proof.
  intros Hnd. rewrite foldl_delete_by.
  apply filter_ext_elem. intros x Hx. split.
  - intros Hni Hp. apply Hni. apply list_elem_of_fmap_2.
    apply list_elem_of_filter. done.
  - intros Hnp Hin. apply list_elem_of_fmap in Hin as (y & Hy & Hyl).
    apply list_elem_of_filter in Hyl as [Hpy Hyl].
    assert (x = y) by (eapply (NoDup_fmap_same f); eauto).
    subst. done.
Qed.

End ListFacts.

(** ** Well-formed cache states *)

Lemma wfSet_mono lo b b' l : b ≤ b' → wfSet lo b l → wfSet lo b' l.
Proof.
  intros Hle [Hnd Hall]. split; [done|].
  eapply Forall_impl; [exact Hall|]. simpl. intros x Hx. lia.
Qed.

Lemma wfSet_nil lo b : wfSet lo b [].
Proof. split; constructor. Qed.

Lemma wfSet_filter lo b (P : Cache.ICacheItem → Prop) `{!∀ x, Decision (P x)} l :
  wfSet lo b l → wfSet lo b (filter P l).
Proof.
  intros [Hnd Hall]. split.
  - eapply sublist_NoDup; [exact Hnd|]. apply fmap_sublist, sublist_filter.
  - rewrite Forall_forall in *. intros x Hx.
    apply list_elem_of_filter in Hx as [_ Hx]. by apply Hall.
Qed.

(** An object that the allocator has just handed out is in no set yet. *)
Lemma Set_add_fresh lo b l u f :
  wfSet lo b l → Cache.Set_add (Cache.mkItem b u f) l = l ++ [Cache.mkItem b u f].
Proof.
  intros [_ Hall]. unfold Cache.Set_add.
  rewrite bool_decide_eq_false_2; [done|]. simpl.
  intros Hin. apply list_elem_of_fmap in Hin as (y & Hy & Hyl).
  rewrite Forall_forall in Hall. apply Hall in Hyl. lia.
Qed.

Lemma wfSet_Set_add lo b x l :
  lo ≤ Cache.oid x < b → wfSet lo b l → wfSet lo b (Cache.Set_add x l).
Proof.
  intros Hx [Hnd Hall]. unfold Cache.Set_add.
  case_bool_decide as Hin; [done|]. split.
  - rewrite fmap_app. apply NoDup_app. split; [done|]. split.
    + intros y Hy Hy'. simpl in Hy'. apply list_elem_of_singleton in Hy'. by subst y.
    + simpl. apply NoDup_singleton.
  - apply Forall_app. split; [done|]. by apply Forall_singleton.
Qed.

(** ** Writing through a set reference *)

Lemma updRef_hit k i its f st :
  Cache.filesCache st !! k = Some (Cache.mkSet i its) →
  Cache.updRef (Cache.mkRef k i) f st
  = Cache.set_filesCache (<[k := Cache.mkSet i (f its)]> (Cache.filesCache st)) st.
Proof.
  intros Hk. unfold Cache.updRef. simpl. rewrite Hk. simpl.
  by rewrite bool_decide_eq_true_2.
Qed.

Lemma updRef_other r f st key :
  key ≠ Cache.refKey r →
  Cache.filesCache (Cache.updRef r f st) !! key = Cache.filesCache st !! key.
Proof.
  intros Hne. unfold Cache.updRef.
  destruct (Cache.filesCache st !! Cache.refKey r) as [s|]; [|done].
  case_bool_decide; [|done]. simpl. by rewrite lookup_insert_ne.
Qed.

Lemma foldl_updRef {T} k i (g : T → list Cache.ICacheItem → list Cache.ICacheItem)
    (l : list T) : ∀ st its,
  Cache.filesCache st !! k = Some (Cache.mkSet i its) →
  foldl (λ s tr, Cache.updRef (Cache.mkRef k i) (g tr) s) st l
  = Cache.set_filesCache
      (<[k := Cache.mkSet i (foldl (λ acc tr, g tr acc) its l)]> (Cache.filesCache st))
      st.
Proof.
  induction l as [|a l IH]; intros st its Hk; simpl.
  - rewrite insert_id by done. by destruct st.
  - rewrite (updRef_hit _ _ _ _ _ Hk).
    erewrite IH; [|simpl; apply lookup_insert_eq].
    unfold Cache.set_filesCache. simpl. by rewrite insert_insert_eq.
Qed.

(** ** C9: removeFileFromCache *)

(** C9.  [removeFileFromCache(taskAlias, uri)], in [cache.ts] and in the
    older copy alike, removes from the set stored under [taskAlias]
    exactly the items whose [uri.fsPath] equals that of [uri]: what stays
    is the set filtered to the items with another [fsPath], in their
    order; the sets under every other key, the flags and the glob table
    stay as they are; and when no set is stored under [taskAlias] the
    state is unchanged. *)
Theorem removeFileFromCache_frame (taskAlias : string) (u : Uri) :
  (∀ st, wf st →
     let st' := Cache.removeFileFromCache taskAlias u st in
     Cache.cacheItems taskAlias st'
       = filter (λ it, fsPath (Cache.uri it) ≠ fsPath u)
           <$> Cache.cacheItems taskAlias st
     ∧ (∀ key, key ≠ taskAlias →
          Cache.filesCache st' !! key = Cache.filesCache st !! key)
     ∧ (Cache.filesCache st !! taskAlias = None → st' = st)
     ∧ Cache.cacheBuilding st' = Cache.cacheBuilding st
     ∧ Cache.folderCaching st' = Cache.folderCaching st
     ∧ Cache.cancel st' = Cache.cancel st
     ∧ Cache.taskGlobs st' = Cache.taskGlobs st)
  ∧ (∀ st,
       map_Forall (λ _ its, NoDup (Legacy.oid <$> its)) (Legacy.filesCache st) →
       let st' := Legacy.removeFileFromCache taskAlias u st in
       Legacy.filesCache st' !! taskAlias
         = filter (λ it, fsPath (Legacy.uri it) ≠ fsPath u)
             <$> Legacy.filesCache st !! taskAlias
       ∧ (∀ key, key ≠ taskAlias →
            Legacy.filesCache st' !! key = Legacy.filesCache st !! key)
       ∧ (Legacy.filesCache st !! taskAlias = None → st' = st)).
Proof.
  split.
  - intros st Hwf st'. subst st'. unfold Cache.removeFileFromCache, Cache.cacheItems.
    destruct (Cache.filesCache st !! taskAlias) as [[i its]|] eqn:Hk;
      [|by rewrite Hk].
    simpl. rewrite (foldl_updRef _ _ _ _ _ _ Hk). simpl.
    rewrite lookup_insert_eq. simpl.
    repeat split; try done.
    + f_equal. apply (delete_matching_by Cache.oid).
      destruct Hwf as [_ Hwf]. apply Hwf in Hk. apply Hk.
    + intros key Hne. by rewrite lookup_insert_ne.
  - intros st Hwf st'. subst st'. unfold Legacy.removeFileFromCache.
    destruct (Legacy.filesCache st !! taskAlias) as [its|] eqn:Hk;
      [|by rewrite Hk].
    case_bool_decide as Hlen; simpl.
    + rewrite lookup_insert_eq. repeat split; try done.
      * f_equal. apply (delete_matching_by Legacy.oid). by apply Hwf in Hk.
      * intros key Hne. by rewrite lookup_insert_ne.
    + rewrite Hk. simpl. repeat split; try done. f_equal.
      symmetry. apply filter_all. intros x Hx Heq.
      apply Hlen.
      assert (x ∈ filter (λ item, fsPath (Legacy.uri item) = fsPath u) its) as Hin
        by (by apply list_elem_of_filter).
      destruct (filter _ its); [by inversion Hin|simpl; lia].
Qed.

Lemma wf_stEx : wf stEx.
Proof. apply (bool_decide_unpack (wf stEx)). vm_compute. reflexivity. Defined.

Lemma removeFileFromCache_frame_witness :
  Cache.cacheItems "pipenv" (Cache.removeFileFromCache "pipenv" uA stEx)
    = Some [Cache.mkItem 2 uB wsF]
  ∧ Legacy.filesCache (Legacy.removeFileFromCache "pipenv" uA legacyEx) !! "pipenv"
    = Some [Legacy.mkItem 2 uB (Some wsF)].
Proof.
  destruct (removeFileFromCache_frame "pipenv" uA) as [Hc Hl].
  split.
  - destruct (Hc stEx wf_stEx) as [Heq _]. rewrite Heq. vm_compute. reflexivity.
  - assert (map_Forall (λ _ its, NoDup (Legacy.oid <$> its))
                       (Legacy.filesCache legacyEx)) as Hnd.
    { apply (bool_decide_unpack _). vm_compute. exact I. }
    destruct (Hl legacyEx Hnd) as [Heq _]. rewrite Heq. vm_compute. reflexivity.
Defined.

(** ** The coroutine monad *)

Lemma mbind_Some {A B} (m : Cache.M A) (k : A → Cache.M B) sch st r :
  Cache.mbind m k sch st = Some r ↔
  ∃ a sch1 st1, m sch st = Some (a, sch1, st1) ∧ k a sch1 st1 = Some r.
Proof.
  unfold Cache.mbind. split.
  - destruct (m sch st) as [[[a sch1] st1]|]; [|done]. intros Hk. by exists a, sch1, st1.
  - intros (a & sch1 & st1 & -> & Hk). done.
Qed.


Lemma returns_mret {A} (a : A) : always_returns (Cache.mret a).
Proof. intros sch st. by eexists. Qed.

Lemma returns_mbind {A B} (m : Cache.M A) (k : A → Cache.M B) :
  always_returns m → (∀ a, always_returns (k a)) → always_returns (Cache.mbind m k).
Proof.
  intros Hm Hk sch st. unfold Cache.mbind.
  destruct (Hm sch st) as [[[a sch1] st1] ->]. apply Hk.
Qed.

Lemma returns_modify f : always_returns (Cache.modify f).
Proof. intros sch st. by eexists. Qed.

Lemma returns_getState : always_returns Cache.getState.
Proof. intros sch st. by eexists. Qed.

Lemma returns_yield : always_returns Cache.yield.
Proof. intros [|a sch] st; by eexists. Qed.

Lemma returns_timeout ms : always_returns (Cache.timeout ms).
Proof. apply returns_mbind; [apply returns_modify|intros _; apply returns_yield]. Qed.

Create HintDb returns.

#[global] Hint Resolve returns_mret returns_modify returns_getState returns_yield
  returns_timeout : returns.

Ltac returns_step :=
  first [ apply returns_mbind; [|intros ?] | solve [eauto with returns] ].

(** ** C5: waitForCache *)


Lemma isCachingBusy_false st :
  Cache.isCachingBusy st = false ↔
  Cache.cacheBuilding st = false ∧ Cache.folderCaching st = false.
Proof.
  unfold Cache.isCachingBusy.
  destruct (Cache.cacheBuilding st), (Cache.folderCaching st); compute;
    intuition congruence.
Qed.

Lemma waitForCache_unfold sch st :
  Cache.waitForCache sch st =
  if Cache.isCachingBusy st then
    match sch with
    | [] => None
    | a :: sch' => Cache.waitForCache sch' (a (Cache.logTimeout 100 st))
    end
  else Some (tt, sch, st).
Proof. by destruct sch. Qed.

Lemma waitForCache_idle sch st :
  Cache.isCachingBusy st = false → Cache.waitForCache sch st = Some (tt, sch, st).
Proof. intros Hb. by rewrite waitForCache_unfold, Hb. Qed.

Lemma waitForCache_inv sch : ∀ st r sch' st',
  Cache.waitForCache sch st = Some (r, sch', st') →
  Cache.isCachingBusy st' = false
  ∧ ∃ ran, sch = ran ++ sch' ∧ st' = sleepThrough ran st
      ∧ ∀ n, n < length ran → Cache.isCachingBusy (sleepThrough (take n ran) st) = true.
Proof.
  induction sch as [|a sch IH]; intros st r sch' st'; rewrite waitForCache_unfold;
    destruct (Cache.isCachingBusy st) eqn:Hb; intros Hw; simplify_eq.
  - split; [done|]. exists []. simpl. split_and!; [done..|]. intros n Hn; lia.
  - apply IH in Hw as (Hidle & ran & -> & -> & Hbusy).
    split; [done|]. exists (a :: ran). split_and!; [done..|].
    intros [|n] Hn; simpl; [done|]. apply Hbusy. simpl in Hn. lia.
  - split; [done|]. exists []. simpl. split_and!; [done..|]. intros n Hn; lia.
Qed.

(** The loop returns at the first look that finds no flag set. *)
Lemma waitForCache_first sch : ∀ st n,
  n ≤ length sch →
  (∀ j, j < n → Cache.isCachingBusy (sleepThrough (take j sch) st) = true) →
  Cache.isCachingBusy (sleepThrough (take n sch) st) = false →
  Cache.waitForCache sch st = Some (tt, drop n sch, sleepThrough (take n sch) st).
Proof.
  induction sch as [|a sch IH]; intros st n Hn Hbusy Hidle.
  - assert (n = 0) as -> by (simpl in Hn; lia). by apply waitForCache_idle.
  - destruct n as [|n]; [by apply waitForCache_idle|].
    rewrite waitForCache_unfold.
    assert (Cache.isCachingBusy st = true) as -> by (apply (Hbusy 0); lia).
    simpl. apply IH; [simpl in Hn; lia| |done].
    intros j Hj. apply (Hbusy (S j)). lia.
Qed.

Lemma replicate_shift {A} (x : A) n t :
  replicate n x ++ x :: t = x :: replicate n x ++ t.
Proof. induction n as [|n IH]; simpl; [done|]. by rewrite IH. Qed.

(** What the sleeps themselves write: a state that the other coroutines
    leave alone differs after the sleeps only in the log of the
    timeouts, which has one more entry of 100 ms for each. *)
Lemma sleepThrough_idle ran : ∀ st,
  Forall (λ a : Cache.Action, ∀ s, a s = s) ran →
  sleepThrough ran st
  = Cache.mkState (Cache.cacheBuilding st) (Cache.folderCaching st) (Cache.cancel st)
      (Cache.taskGlobs st) (Cache.filesCache st) (Cache.nextId st)
      (replicate (length ran) 100 ++ Cache.timeouts st).
Proof.
  induction ran as [|a ran IH]; intros st Hid; simpl.
  - by destruct st.
  - apply Forall_cons in Hid as [Ha Hid]. rewrite Ha, IH by done. simpl.
    f_equal. apply replicate_shift.
Qed.

(** C5.  [waitForCache] is a polling loop.  While [cacheBuilding] or
    [folderCaching] is set it sleeps, each sleep a timeout of 100 ms
    during which the next of the other coroutines runs, and it returns
    at the first look that finds both flags false: when that is after
    [n] sleeps, it returns then, in the state that the others produced,
    with the rest of the schedule still to run; with no flag set at the
    start it returns at once.  Whenever it returns, both flags are
    false.  The loop itself writes neither the flags nor the cache: a
    sleep only logs its timeout of 100 ms.  And if a flag is still set
    when nothing else runs any more, it does not return. *)
Theorem waitForCache_polls (sch : Cache.Sched) (st : Cache.State) :
  (∀ n, n ≤ length sch →
        (∀ j, j < n → Cache.isCachingBusy (sleepThrough (take j sch) st) = true) →
        Cache.isCachingBusy (sleepThrough (take n sch) st) = false →
        Cache.waitForCache sch st
        = Some (tt, drop n sch, sleepThrough (take n sch) st))
  ∧ (Cache.isCachingBusy st = false → Cache.waitForCache sch st = Some (tt, sch, st))
  ∧ (∀ sch' st', Cache.waitForCache sch st = Some (tt, sch', st') →
       Cache.cacheBuilding st' = false ∧ Cache.folderCaching st' = false
       ∧ ∃ ran, sch = ran ++ sch' ∧ st' = sleepThrough ran st
           ∧ ∀ n, n < length ran →
               Cache.isCachingBusy (sleepThrough (take n ran) st) = true)
  ∧ (∀ ran s, Forall (λ a : Cache.Action, ∀ s', a s' = s') ran →
       sleepThrough ran s
       = Cache.mkState (Cache.cacheBuilding s) (Cache.folderCaching s) (Cache.cancel s)
           (Cache.taskGlobs s) (Cache.filesCache s) (Cache.nextId s)
           (replicate (length ran) 100 ++ Cache.timeouts s))
  ∧ ((∀ n, n ≤ length sch →
        Cache.isCachingBusy (sleepThrough (take n sch) st) = true) →
     Cache.waitForCache sch st = None).
Proof.
  split_and!.
  - apply waitForCache_first.
  - apply waitForCache_idle.
  - intros sch' st' Hw. apply waitForCache_inv in Hw as (Hidle & Hran).
    apply isCachingBusy_false in Hidle as [? ?]. done.
  - intros ran s. apply sleepThrough_idle.
  - intros Hbusy. destruct (Cache.waitForCache sch st) as [[[[] sch'] st']|] eqn:Hw;
      [|done].
    apply waitForCache_inv in Hw as (Hidle & ran & -> & -> & _).
    assert (length ran ≤ length (ran ++ sch')) as Hle
      by (rewrite length_app; lia).
    specialize (Hbusy _ Hle). rewrite take_app_length in Hbusy. congruence.
Qed.

Lemma waitForCache_polls_witness :
  Cache.waitForCache [id; finishBuild; requestCancel]
    (Cache.set_cacheBuilding true Cache.initial)
  = Some (tt, [requestCancel],
          Cache.mkState false false false ∅ ∅ 0 [100; 100])
  ∧ Cache.waitForCache [finishBuild] Cache.initial
    = Some (tt, [finishBuild], Cache.initial)
  ∧ Cache.waitForCache [id] (Cache.set_cacheBuilding true Cache.initial) = None.
Proof.
  split_and!.
  - destruct (waitForCache_polls [id; finishBuild; requestCancel]
                (Cache.set_cacheBuilding true Cache.initial)) as (Hfirst & _).
    apply (Hfirst 2).
    + simpl. lia.
    + intros j Hj. destruct j as [|[|j]]; [reflexivity|reflexivity|lia].
    + reflexivity.
  - apply (waitForCache_polls [finishBuild] Cache.initial). reflexivity.
  - apply (waitForCache_polls [id] (Cache.set_cacheBuilding true Cache.initial)).
    intros n Hn. simpl in Hn. destruct n as [|[|n]]; [reflexivity|reflexivity|lia].
Defined.

(** ** C3: cancellation *)

Lemma cancelInternal_filesCache scb st :
  Cache.filesCache (Cache.cancelInternal scb st) = Cache.filesCache st.
Proof. by destruct scb. Qed.

Lemma scanPaths_cancelled h fCache fld scb paths st :
  Cache.cancel st = true →
  Cache.scanPaths h fCache fld scb paths st
  = match paths with [] => st | _ :: _ => Cache.cancelInternal scb st end.
Proof. intros Hc. destruct paths as [|p rest]; simpl; [done|]. by rewrite Hc. Qed.

(** C3.  Once [cancel] is set when the loop of [buildFolderCache] looks at
    it, the loop adds nothing more to the cache, whatever paths remain,
    and [buildFolderCache] returns: a scan whose [findFiles] call was
    pending while [cancel] got set returns with the cache sets as they
    were when [findFiles] resolved.  And [cancelBuildCache] called while
    [cacheBuilding] is false returns at once and leaves the whole state,
    the [cancel] flag included, as it was. *)
Theorem scan_is_cancelable (h : Host) :
  (∀ fCache fld scb paths st,
     Cache.cancel st = true →
     Cache.filesCache (Cache.scanPaths h fCache fld scb paths st)
       = Cache.filesCache st)
  ∧ (∀ fCache fld taskType fileGlob scb a sch st,
       providersExternal h !! taskType = None →
       Cache.cancel (a st) = true →
       ∃ st', Cache.buildFolderCache h fCache fld taskType fileGlob scb (a :: sch) st
                = Some (tt, sch, st')
              ∧ Cache.filesCache st' = Cache.filesCache (a st))
  ∧ (∀ wait sch st,
       Cache.cacheBuilding st = false →
       Cache.cancelBuildCache wait sch st = Some (tt, sch, st)).
Proof.
  split_and!.
  - intros fCache fld scb paths st Hc. rewrite scanPaths_cancelled by done.
    destruct paths; [done|]. apply cancelInternal_filesCache.
  - intros fCache fld taskType fileGlob scb a sch st Hext Hc.
    unfold Cache.buildFolderCache. rewrite Hext.
    eexists. split; [reflexivity|].
    rewrite scanPaths_cancelled by done.
    destruct (findFiles h fld fileGlob); [done|]. apply cancelInternal_filesCache.
  - intros wait sch st Hcb. unfold Cache.cancelBuildCache, Cache.mbind, Cache.getState.
    by rewrite Hcb.
Qed.


Lemma scan_is_cancelable_witness :
  Cache.filesCache
    (Cache.scanPaths sampleHost (Cache.mkRef "pipenv" 0) wsF false [uA; uB]
                     (Cache.set_cancel true stEx))
    = Cache.filesCache stEx
  ∧ (∃ st', Cache.buildFolderCache sampleHost (Cache.mkRef "pipenv" 0) wsF "pipenv"
              (Some "**/Pipfile") false [requestCancel] stEx = Some (tt, [], st')
            ∧ Cache.filesCache st' = Cache.filesCache stEx)
  ∧ Cache.cancelBuildCache true [] stEx = Some (tt, [], stEx).
Proof.
  destruct (scan_is_cancelable sampleHost) as (Hscan & Hbuild & Hno).
  split_and!.
  - apply (Hscan (Cache.mkRef "pipenv" 0) wsF false [uA; uB] (Cache.set_cancel true stEx)).
    reflexivity.
  - apply (Hbuild (Cache.mkRef "pipenv" 0) wsF "pipenv" (Some "**/Pipfile") false
                  requestCancel [] stEx); reflexivity.
  - apply (Hno true [] stEx). reflexivity.
Defined.

(** ** C4: the busy flags *)

Lemma returns_waitless_buildFolderCache h fCache fld taskType fileGlob scb :
  always_returns (Cache.buildFolderCache h fCache fld taskType fileGlob scb).
Proof.
  unfold Cache.buildFolderCache.
  destruct (providersExternal h !! taskType); repeat returns_step.
Qed.

Lemma returns_forFolders h fCache taskType fileGlob scb folders :
  always_returns (Cache.forFolders h fCache taskType fileGlob scb folders).
Proof.
  induction folders as [|f folders IH]; simpl; [apply returns_mret|].
  apply returns_mbind; [apply returns_waitless_buildFolderCache|done].
Qed.

Lemma returns_buildFolderCaches h fCache taskType fileGlob scb :
  always_returns (Cache.buildFolderCaches h fCache taskType fileGlob scb).
Proof.
  unfold Cache.buildFolderCaches.
  destruct (workspaceFolders h); [apply returns_forFolders|apply returns_mret].
Qed.

#[global] Hint Resolve returns_waitless_buildFolderCache returns_buildFolderCaches : returns.

(** Without [setCacheBuilding], [buildCache] waits for nobody. *)
Lemma returns_buildCache h taskType fileGlob wsFolder :
  always_returns (Cache.buildCache h taskType fileGlob wsFolder false).
Proof.
  unfold Cache.buildCache. repeat returns_step.
  - destruct (_ && _); [case_bool_decide|]; eauto with returns.
  - destruct wsFolder; eauto with returns.
Qed.

Lemma returns_forProviders h fld names :
  always_returns (Cache.forProviders h fld names).
Proof.
  induction names as [|n names IH]; simpl; [apply returns_mret|].
  repeat returns_step.
  destruct (_ && _); [apply returns_buildCache|apply returns_mret].
Qed.

Lemma waitForFolderCaching_unfold sch st :
  Cache.waitForFolderCaching sch st =
  if Cache.folderCaching st then
    match sch with
    | [] => None
    | a :: sch' => Cache.waitForFolderCaching sch' (a (Cache.logTimeout 100 st))
    end
  else Some (tt, sch, st).
Proof. destruct sch; simpl; by destruct (Cache.folderCaching st). Qed.

(** How a run of [addFolderToCache] that returns is made up. *)
Lemma addFolderToCache_inv h fld sch st r sch' st' :
  Cache.addFolderToCache h fld sch st = Some (r, sch', st') →
  ∃ schA stA schB stB st2,
    Cache.waitForCache sch st = Some (tt, schA, stA)
    ∧ Cache.waitForFolderCaching schA stA = Some (tt, schB, stB)
    ∧ Cache.forProviders h fld (Cache.taskProviders h) schB
        (Cache.set_cacheBuilding true (Cache.set_folderCaching true stB))
      = Some (tt, sch', st2)
    ∧ st' = Cache.set_cancel false
              (Cache.set_folderCaching false (Cache.set_cacheBuilding false st2)).
Proof.
  unfold Cache.addFolderToCache. intros Hrun.
  apply mbind_Some in Hrun as ([] & schA & stA & HwA & Hrun).
  apply mbind_Some in Hrun as ([] & schB & stB & HwB & Hrun).
  apply mbind_Some in Hrun as ([] & ? & ? & [= <- <-] & Hrun).
  apply mbind_Some in Hrun as ([] & ? & ? & [= <- <-] & Hrun).
  apply mbind_Some in Hrun as ([] & schC & st2 & Hfor & Hrun).
  apply mbind_Some in Hrun as ([] & ? & ? & [= <- <-] & Hrun).
  apply mbind_Some in Hrun as ([] & ? & ? & [= <- <-] & Hrun).
  injection Hrun as <- <- <-.
  by exists schA, stA, schB, stB, st2.
Qed.

(** *** What runs while the flags are set *)

Lemma blind_mret {A} (a : A) : blind (Cache.mret a).
Proof. intros sch sch2 st Hb _ _. by exists a, 0, st. Qed.

Lemma blind_mbind {A B} (m : Cache.M A) (k : A → Cache.M B) :
  blind m → (∀ a, blind (k a)) → blind (Cache.mbind m k).
Proof.
  intros Hm Hk sch sch2 st Hb Hr Hs.
  destruct (Hm sch sch2 st Hb Hr Hs) as (a & n & st1 & E1 & E2 & Hb1).
  destruct (Hk a (drop n sch) (drop n sch2) st1 Hb1 (Forall_drop _ _ _ Hr)
              (Forall2_drop _ _ _ _ Hs)) as (b & n' & st2 & F1 & F2 & Hb2).
  exists b, (n + n'), st2. unfold Cache.mbind.
  by rewrite E1, E2, F1, F2, !drop_drop.
Qed.

Lemma blind_modify f : (∀ s, bothBusy s → bothBusy (f s)) → blind (Cache.modify f).
Proof. intros Hf sch sch2 st Hb _ _. exists tt, 0, (f st). split_and!; auto. Qed.

Lemma blind_getState : blind Cache.getState.
Proof. intros sch sch2 st Hb _ _. by exists st, 0, st. Qed.

Lemma blind_yield : blind Cache.yield.
Proof.
  intros sch sch2 st Hb Hr Hs. destruct Hs as [|a a2 sch sch2 Ha Hs].
  - by exists tt, 0, st.
  - apply Forall_cons in Hr as [Hka _]. exists tt, 1, (a st). simpl.
    rewrite <- (Ha st Hb). split_and!; auto.
Qed.

Lemma blind_timeout ms : blind (Cache.timeout ms).
Proof.
  apply blind_mbind; [by apply blind_modify|intros _; apply blind_yield].
Qed.

Lemma updRef_flags r f st :
  Cache.cacheBuilding (Cache.updRef r f st) = Cache.cacheBuilding st
  ∧ Cache.folderCaching (Cache.updRef r f st) = Cache.folderCaching st.
Proof.
  unfold Cache.updRef. destruct (Cache.filesCache st !! Cache.refKey r); [|done].
  by case_bool_decide.
Qed.

Lemma bothBusy_scanPaths h fCache fld paths : ∀ st,
  bothBusy st → bothBusy (Cache.scanPaths h fCache fld false paths st).
Proof.
  induction paths as [|p paths IH]; intros st Hb; simpl; [done|].
  destruct (Cache.cancel st); [done|]. apply IH.
  destruct (negb _); [|done]. unfold bothBusy, Cache.addNewItem.
  by destruct (updRef_flags fCache
                 (Cache.Set_add (Cache.mkItem (Cache.nextId st) p fld))
                 (Cache.set_nextId (S (Cache.nextId st)) st)) as [-> ->].
Qed.

Lemma bothBusy_getOrCreateSet key st :
  bothBusy st → bothBusy (Cache.getOrCreateSet key st).2.
Proof. unfold Cache.getOrCreateSet. by destruct (Cache.filesCache st !! key). Qed.

Section Blind.
Context (h : Host).

Lemma blind_buildFolderCache fCache fld taskType fileGlob :
  blind (Cache.buildFolderCache h fCache fld taskType fileGlob false).
Proof.
  unfold Cache.buildFolderCache. destruct (providersExternal h !! taskType).
  - apply blind_timeout.
  - apply blind_mbind; [apply blind_yield|intros _].
    apply blind_modify. apply bothBusy_scanPaths.
Qed.

Lemma blind_forFolders fCache taskType fileGlob folders :
  blind (Cache.forFolders h fCache taskType fileGlob false folders).
Proof.
  induction folders as [|f folders IH]; simpl; [apply blind_mret|].
  apply blind_mbind; [apply blind_buildFolderCache|done].
Qed.

Lemma blind_buildCache taskType fileGlob wsFolder :
  blind (Cache.buildCache h taskType fileGlob wsFolder false).
Proof.
  unfold Cache.buildCache.
  apply blind_mbind; [apply blind_getState|intros st0].
  apply blind_mbind; [apply blind_modify, bothBusy_getOrCreateSet|intros _].
  apply blind_mbind; [apply blind_mret|intros _].
  apply blind_mbind; [apply blind_getState|intros st].
  apply blind_mbind; [|intros _].
  { destruct (_ && _); [case_bool_decide|]; try apply blind_mret.
    apply blind_modify. intros s Hb. unfold bothBusy.
    by destruct (updRef_flags (Cache.getOrCreateSet (getTaskProviderType h taskType) st0).1
                   (λ _, []) s) as [-> ->]. }
  apply blind_mbind; [by apply blind_modify|intros _].
  apply blind_mbind; [|intros _; apply blind_mret].
  destruct wsFolder; [apply blind_buildFolderCache|].
  unfold Cache.buildFolderCaches.
  destruct (workspaceFolders h); [apply blind_forFolders|apply blind_mret].
Qed.

Lemma blind_forProviders fld names : blind (Cache.forProviders h fld names).
Proof.
  induction names as [|n names IH]; simpl; [apply blind_mret|].
  apply blind_mbind; [apply blind_getState|intros st].
  apply blind_mbind; [|done].
  destruct (_ && _); [apply blind_buildCache|apply blind_mret].
Qed.

End Blind.

(** [addFolderToCache] starts only when its wait is over. *)
Lemma addFolderToCache_waits h fld sch st schA stA :
  Cache.waitForCache sch st = Some (tt, schA, stA) →
  Cache.addFolderToCache h fld sch st = Cache.addFolderToCache h fld schA stA.
Proof.
  intros Hw. unfold Cache.addFolderToCache. unfold Cache.mbind at 1.
  rewrite Hw. symmetry. unfold Cache.mbind at 1.
  apply waitForCache_inv in Hw as [Hidle _]. by rewrite waitForCache_idle.
Qed.

(** C4.  [isCachingBusy] is true exactly when [cacheBuilding] or
    [folderCaching] is.  [addFolderToCache] starts when its wait for the
    flags is over, and sets both flags before it turns to the first
    provider: from then until the last provider is done, the other
    coroutines run only in states in which both flags are set (as long
    as they do not clear a flag themselves), so that what they would do
    in any other state has no bearing on the run.  Every run that
    returns does so with [cacheBuilding], [folderCaching] and [cancel]
    all false, whatever the other coroutines did meanwhile (a
    cancellation request among them).  Started while the cache is not
    busy, it does return. *)
Theorem busy_flags_track_building (h : Host) (fld : option WorkspaceFolder) :
  (∀ st, Cache.isCachingBusy st = true ↔
         Cache.cacheBuilding st = true ∨ Cache.folderCaching st = true)
  ∧ (∀ sch st schA stA,
       Cache.waitForCache sch st = Some (tt, schA, stA) →
       Cache.addFolderToCache h fld sch st = Cache.addFolderToCache h fld schA stA)
  ∧ (∀ sch sch2 st,
       Cache.isCachingBusy st = false →
       respects bothBusy sch →
       Forall2 sameWhileBusy sch sch2 →
       ∃ n st',
         Cache.addFolderToCache h fld sch st = Some (tt, drop n sch, st')
         ∧ Cache.addFolderToCache h fld sch2 st = Some (tt, drop n sch2, st'))
  ∧ (∀ sch st sch' st',
       Cache.addFolderToCache h fld sch st = Some (tt, sch', st') →
       Cache.cacheBuilding st' = false ∧ Cache.folderCaching st' = false
       ∧ Cache.cancel st' = false)
  ∧ (∀ sch st, Cache.isCachingBusy st = false →
       is_Some (Cache.addFolderToCache h fld sch st)).
Proof.
  split_and!.
  - intros st. unfold Cache.isCachingBusy.
    destruct (Cache.cacheBuilding st), (Cache.folderCaching st); compute;
      intuition congruence.
  - apply addFolderToCache_waits.
  - intros sch sch2 st Hidle Hr Hs.
    pose proof Hidle as Hflags. apply isCachingBusy_false in Hflags as [_ Hfc].
    destruct (blind_forProviders h fld (Cache.taskProviders h) sch sch2
                (Cache.set_cacheBuilding true (Cache.set_folderCaching true st)))
      as ([] & n & st2 & E1 & E2 & _); [done..|].
    exists n, (Cache.set_cancel false
                 (Cache.set_folderCaching false (Cache.set_cacheBuilding false st2))).
    unfold Cache.addFolderToCache.
    split; unfold Cache.mbind at 1; rewrite (waitForCache_idle _ _ Hidle);
      unfold Cache.mbind at 1; rewrite waitForFolderCaching_unfold, Hfc;
      unfold Cache.mbind at 1; unfold Cache.modify at 1;
      unfold Cache.mbind at 1; unfold Cache.modify at 1;
      unfold Cache.mbind at 1; [rewrite E1|rewrite E2]; done.
  - intros sch st sch' st' Hrun.
    apply addFolderToCache_inv in Hrun
      as (schA & stA & schB & stB & st2 & _ & _ & _ & ->). done.
  - intros sch st Hidle. unfold Cache.addFolderToCache.
    unfold Cache.mbind at 1. rewrite (waitForCache_idle _ _ Hidle).
    unfold Cache.mbind at 1. rewrite waitForFolderCaching_unfold.
    apply isCachingBusy_false in Hidle as [_ ->].
    match goal with
    | |- is_Some (?m ?sch ?st) =>
        cut (always_returns m); [intros Htot; apply Htot|]
    end.
    repeat returns_step. apply returns_forProviders.
Qed.

Lemma busy_flags_track_building_witness :
  ∃ n st',
    Cache.addFolderToCache sampleHost None [requestCancel; id] Cache.initial
      = Some (tt, drop n [requestCancel; id], st')
    ∧ Cache.addFolderToCache sampleHost None
        [onlyWhileBusy requestCancel; onlyWhileBusy id] Cache.initial
      = Some (tt, drop n [onlyWhileBusy requestCancel; onlyWhileBusy id], st').
Proof.
  destruct (busy_flags_track_building sampleHost None) as (_ & _ & Hseen & _).
  apply (Hseen [requestCancel; id] [onlyWhileBusy requestCancel; onlyWhileBusy id]
               Cache.initial).
  - reflexivity.
  - apply Forall_cons; split; [intros s Hs; exact Hs|].
    apply Forall_cons; split; [intros s Hs; exact Hs|]. constructor.
  - assert (∀ a, sameWhileBusy a (onlyWhileBusy a)) as Hsame.
    { intros a s [Hcb Hfc]. unfold onlyWhileBusy. rewrite Hcb, Hfc. reflexivity. }
    constructor; [apply Hsame|].
    constructor; [apply Hsame|]. constructor.
Defined.

(** ** Operations keep the cache well formed *)

Lemma wfFrom_same lo st st' :
  Cache.nextId st' = Cache.nextId st →
  Cache.filesCache st' = Cache.filesCache st →
  wfFrom lo st → wfFrom lo st'.
Proof. unfold wfFrom. by intros -> ->. Qed.

Ltac wf_same := eapply wfFrom_same; [| |eassumption]; reflexivity.

Lemma wfFrom_updRef lo r f st :
  (∀ l, wfSet lo (Cache.nextId st) l → wfSet lo (Cache.nextId st) (f l)) →
  wfFrom lo st → wfFrom lo (Cache.updRef r f st).
Proof.
  intros Hf [Hlo Hall]. unfold Cache.updRef.
  destruct (Cache.filesCache st !! Cache.refKey r) as [s|] eqn:Hk; [|done].
  case_bool_decide; [|done]. split; [done|]. simpl.
  apply map_Forall_insert_2; [|done]. simpl. apply Hf. by apply Hall in Hk.
Qed.

Lemma wfFrom_bump lo st :
  wfFrom lo st → wfFrom lo (Cache.set_nextId (S (Cache.nextId st)) st).
Proof.
  intros [Hlo Hall]. split; simpl; [lia|].
  eapply map_Forall_impl; [exact Hall|]. simpl.
  intros _ s. apply wfSet_mono. lia.
Qed.

Lemma wfFrom_addNewItem lo r u f st :
  wfFrom lo st → wfFrom lo (Cache.addNewItem r u f st).
Proof.
  intros Hwf. unfold Cache.addNewItem.
  apply wfFrom_updRef; [|by apply wfFrom_bump].
  simpl. intros l. apply wfSet_Set_add. simpl. destruct Hwf. lia.
Qed.

Lemma wfFrom_getOrCreateSet lo key st :
  wfFrom lo st → wfFrom lo (Cache.getOrCreateSet key st).2.
Proof.
  intros Hwf. unfold Cache.getOrCreateSet.
  destruct (Cache.filesCache st !! key); [done|]. simpl.
  destruct Hwf as [Hlo Hall]. split; simpl; [lia|].
  apply map_Forall_insert_2; [apply wfSet_nil|].
  eapply map_Forall_impl; [exact Hall|]. simpl.
  intros _ s. apply wfSet_mono. lia.
Qed.

Lemma wfFrom_addFileToCache lo h taskAlias u st :
  wfFrom lo st → wfFrom lo (Cache.addFileToCache h taskAlias u st).
Proof.
  intros Hwf. unfold Cache.addFileToCache.
  pose proof (wfFrom_getOrCreateSet lo taskAlias st Hwf) as Hwf1.
  destruct (Cache.getOrCreateSet taskAlias st) as [taskCache st1].
  destruct (getWorkspaceFolder h u); [|done]. by apply wfFrom_addNewItem.
Qed.

Lemma wfFrom_foldl_updRef {T} lo r
    (g : T → list Cache.ICacheItem → list Cache.ICacheItem) (l : list T) :
  (∀ tr b s, wfSet lo b s → wfSet lo b (g tr s)) →
  ∀ st, wfFrom lo st → wfFrom lo (foldl (λ s tr, Cache.updRef r (g tr) s) st l).
Proof.
  intros Hg. induction l as [|a l IH]; intros st Hwf; simpl; [done|].
  apply IH. apply wfFrom_updRef; [|done]. intros s. apply Hg.
Qed.

Lemma wfFrom_removeFileFromCache lo taskAlias u st :
  wfFrom lo st → wfFrom lo (Cache.removeFileFromCache taskAlias u st).
Proof.
  intros Hwf. unfold Cache.removeFileFromCache.
  destruct (Cache.filesCache st !! taskAlias) as [s|]; [|done].
  apply wfFrom_foldl_updRef; [|done].
  intros tr b l. unfold Cache.Set_delete. apply wfSet_filter.
Qed.

Lemma wfFrom_cancelInternal lo scb st :
  wfFrom lo st → wfFrom lo (Cache.cancelInternal scb st).
Proof. intros Hwf. destruct scb; [wf_same|done]. Qed.

Lemma wfFrom_scanPaths lo h fCache fld scb paths : ∀ st,
  wfFrom lo st → wfFrom lo (Cache.scanPaths h fCache fld scb paths st).
Proof.
  induction paths as [|p paths IH]; intros st Hwf; simpl; [done|].
  destruct (Cache.cancel st); [by apply wfFrom_cancelInternal|].
  apply IH. destruct (negb _); [by apply wfFrom_addNewItem|done].
Qed.

Lemma wfFrom_clientAction lo h c st :
  wfFrom lo st → wfFrom lo (clientAction h c st).
Proof.
  intros Hwf. destruct c as [a u|a u|]; simpl.
  - by apply wfFrom_addFileToCache.
  - by apply wfFrom_removeFileFromCache.
  - unfold Cache.cancelBuildCache, Cache.mbind, Cache.getState.
    destruct (Cache.cacheBuilding st); simpl; [wf_same|done].
Qed.

Lemma respects_clients lo h (others : list Client) :
  respects (wfFrom lo) (clientAction h <$> others).
Proof.
  unfold respects. apply Forall_fmap, Forall_forall.
  intros c _ s. apply wfFrom_clientAction.
Qed.

(** *** Rules for [keeps] *)

Section Keeps.
Context (I : Cache.State → Prop).

Lemma keeps_mret {A} (a : A) : keeps I (Cache.mret a).
Proof. intros sch st a' sch' st' Hs Hi [= <- <- <-]. done. Qed.

Lemma keeps_mbind {A B} (m : Cache.M A) (k : A → Cache.M B) :
  keeps I m → (∀ a, keeps I (k a)) → keeps I (Cache.mbind m k).
Proof.
  intros Hm Hk sch st b sch' st' Hs Hi Hrun.
  apply mbind_Some in Hrun as (a & sch1 & st1 & Hrun1 & Hrun2).
  destruct (Hm _ _ _ _ _ Hs Hi Hrun1) as [Hi1 Hs1].
  eapply Hk; eauto.
Qed.

Lemma keeps_modify f : (∀ s, I s → I (f s)) → keeps I (Cache.modify f).
Proof. intros Hf sch st a' sch' st' Hs Hi [= <- <- <-]. auto. Qed.

Lemma keeps_getState : keeps I Cache.getState.
Proof. intros sch st a' sch' st' Hs Hi [= <- <- <-]. done. Qed.

Lemma keeps_yield : keeps I Cache.yield.
Proof.
  intros [|act sch] st a' sch' st' Hs Hi [= <- <- <-]; [done|].
  apply Forall_cons in Hs as [Hact Hs]. auto.
Qed.

Lemma keeps_timeout ms :
  (∀ s, I s → I (Cache.logTimeout ms s)) → keeps I (Cache.timeout ms).
Proof.
  intros Hlog. apply keeps_mbind; [by apply keeps_modify|intros _; apply keeps_yield].
Qed.

Lemma keeps_waitForCache :
  (∀ s, I s → I (Cache.logTimeout 100 s)) → keeps I Cache.waitForCache.
Proof.
  intros Hlog sch. induction sch as [|act sch IH]; intros st a' sch' st' Hs Hi;
    rewrite waitForCache_unfold; destruct (Cache.isCachingBusy st); try done.
  - by intros [= <- <- <-].
  - apply Forall_cons in Hs as [Hact Hs]. apply IH; auto.
  - by intros [= <- <- <-].
Qed.

Lemma keeps_waitForFolderCaching :
  (∀ s, I s → I (Cache.logTimeout 100 s)) → keeps I Cache.waitForFolderCaching.
Proof.
  intros Hlog sch. induction sch as [|act sch IH]; intros st a' sch' st' Hs Hi;
    rewrite waitForFolderCaching_unfold; destruct (Cache.folderCaching st); try done.
  - by intros [= <- <- <-].
  - apply Forall_cons in Hs as [Hact Hs]. apply IH; auto.
  - by intros [= <- <- <-].
Qed.

End Keeps.

(** *** The asynchronous functions keep the cache well formed *)

Section KeepsWf.
Context (lo : nat) (h : Host).

Lemma wfFrom_logTimeout ms s : wfFrom lo s → wfFrom lo (Cache.logTimeout ms s).
Proof. intros Hwf. wf_same. Qed.

Ltac keeps_step :=
  first
    [ apply keeps_mret
    | apply keeps_getState
    | apply keeps_yield
    | apply keeps_timeout; apply wfFrom_logTimeout
    | apply keeps_waitForCache; apply wfFrom_logTimeout
    | apply keeps_waitForFolderCaching; apply wfFrom_logTimeout
    | apply keeps_mbind; [|intros ?] ].

Lemma keeps_flag (f : Cache.State → Cache.State) :
  (∀ s, Cache.nextId (f s) = Cache.nextId s) →
  (∀ s, Cache.filesCache (f s) = Cache.filesCache s) →
  keeps (wfFrom lo) (Cache.modify f).
Proof.
  intros Hn Hc. apply keeps_modify. intros s. by apply wfFrom_same.
Qed.

Lemma keeps_buildFolderCache fCache fld taskType fileGlob scb :
  keeps (wfFrom lo) (Cache.buildFolderCache h fCache fld taskType fileGlob scb).
Proof.
  unfold Cache.buildFolderCache.
  destruct (providersExternal h !! taskType); repeat keeps_step.
  apply keeps_modify. intros s. apply wfFrom_scanPaths.
Qed.

Lemma keeps_forFolders fCache taskType fileGlob scb folders :
  keeps (wfFrom lo) (Cache.forFolders h fCache taskType fileGlob scb folders).
Proof.
  induction folders as [|f folders IH]; simpl; [apply keeps_mret|].
  apply keeps_mbind; [apply keeps_buildFolderCache|done].
Qed.

Lemma keeps_buildFolderCaches fCache taskType fileGlob scb :
  keeps (wfFrom lo) (Cache.buildFolderCaches h fCache taskType fileGlob scb).
Proof.
  unfold Cache.buildFolderCaches.
  destruct (workspaceFolders h); [apply keeps_forFolders|apply keeps_mret].
Qed.

Lemma keeps_buildCache taskType fileGlob wsFolder scb :
  keeps (wfFrom lo) (Cache.buildCache h taskType fileGlob wsFolder scb).
Proof.
  unfold Cache.buildCache. repeat keeps_step.
  - apply keeps_modify. intros s. apply wfFrom_getOrCreateSet.
  - destruct scb; repeat keeps_step. by apply keeps_flag.
  - destruct (_ && _); [case_bool_decide|]; try apply keeps_mret.
    apply keeps_modify. intros s. apply wfFrom_updRef.
    intros l _. apply wfSet_nil.
  - by apply keeps_flag.
  - destruct wsFolder; [apply keeps_buildFolderCache|apply keeps_buildFolderCaches].
  - destruct scb; [by apply keeps_flag|apply keeps_mret].
Qed.

Lemma keeps_forProviders fld names :
  keeps (wfFrom lo) (Cache.forProviders h fld names).
Proof.
  induction names as [|n names IH]; simpl; [apply keeps_mret|].
  repeat keeps_step; [|done].
  destruct (_ && _); [apply keeps_buildCache|apply keeps_mret].
Qed.

Lemma keeps_addFolderToCache fld :
  keeps (wfFrom lo) (Cache.addFolderToCache h fld).
Proof.
  unfold Cache.addFolderToCache. repeat keeps_step;
    try (by apply keeps_flag). apply keeps_forProviders.
Qed.

End KeepsWf.

Lemma wfFrom_weaken lo st : wfFrom lo st → wf st.
Proof.
  intros [Hlo Hall]. split; [lia|].
  eapply map_Forall_impl; [exact Hall|]. simpl.
  intros _ s [Hnd Hb]. split; [done|].
  eapply Forall_impl; [exact Hb|]. simpl. intros; lia.
Qed.

Lemma wfFrom_cleared st : wfFrom (Cache.nextId st) (Cache.set_filesCache ∅ st).
Proof. split; simpl; [lia|]. apply map_Forall_empty. Qed.

(** After [rebuildCache], the cache holds only objects made during the
    call. *)
Lemma rebuildCache_fresh h others st r sch' st' :
  Cache.rebuildCache h (clientAction h <$> others) st = Some (r, sch', st') →
  wfFrom (Cache.nextId st) st'.
Proof.
  unfold Cache.rebuildCache. intros Hrun.
  apply mbind_Some in Hrun as ([] & ? & ? & [= <- <-] & Hrun).
  eapply (keeps_addFolderToCache (Cache.nextId st) h None); [| |exact Hrun].
  - apply respects_clients.
  - apply wfFrom_cleared.
Qed.

Lemma wf_runOp h op st st' : wf st → runOp h op st = Some st' → wf st'.
Proof.
  intros Hwf. destruct op as [a u|a u|t g w s others|fld others|others]; simpl.
  - intros [= <-]. by apply wfFrom_addFileToCache.
  - intros [= <-]. by apply wfFrom_removeFileFromCache.
  - unfold finalState.
    destruct (Cache.buildCache _ _ _ _ _ _ _) as [[[r sch'] st1]|] eqn:Hrun;
      intros [= <-].
    eapply (keeps_buildCache 0 h); [apply respects_clients|exact Hwf|exact Hrun].
  - unfold finalState.
    destruct (Cache.addFolderToCache _ _ _ _) as [[[r sch'] st1]|] eqn:Hrun;
      intros [= <-].
    eapply (keeps_addFolderToCache 0 h); [apply respects_clients|exact Hwf|exact Hrun].
  - unfold finalState.
    destruct (Cache.rebuildCache _ _ _) as [[[r sch'] st1]|] eqn:Hrun;
      intros [= <-].
    eapply wfFrom_weaken, rebuildCache_fresh, Hrun.
Qed.

Lemma wf_initial : wf Cache.initial.
Proof. split; [done|]. apply map_Forall_empty. Qed.

Lemma wf_runOps h ops : ∀ st st', wf st → runOps h ops st = Some st' → wf st'.
Proof.
  induction ops as [|op ops IH]; intros st st' Hwf; simpl.
  - by intros [= <-].
  - destruct (runOp h op st) as [st1|] eqn:Hop; [|done].
    apply IH. eapply wf_runOp; eauto.
Qed.

(** ** C1: what a cache set is unique in *)

Lemma addFileToCache_appends h taskAlias u wsf st :
  wf st → getWorkspaceFolder h u = Some wsf →
  ∃ it, Cache.uri it = u ∧ Cache.folder it = wsf
        ∧ (Cache.oid it ∉ Cache.oid <$> default [] (Cache.cacheItems taskAlias st))
        ∧ Cache.cacheItems taskAlias (Cache.addFileToCache h taskAlias u st)
          = Some (default [] (Cache.cacheItems taskAlias st) ++ [it]).
Proof.
  intros [_ Hwf] Hwsf. unfold Cache.addFileToCache, Cache.getOrCreateSet, Cache.cacheItems.
  destruct (Cache.filesCache st !! taskAlias) as [[i its]|] eqn:Hk; rewrite Hwsf; simpl.
  - exists (Cache.mkItem (Cache.nextId st) u wsf).
    pose proof (Hwf _ _ Hk) as Hs. simpl in Hs.
    split_and!; [done..| |].
    + simpl. intros Hin. apply list_elem_of_fmap in Hin as (y & Hy & Hyl).
      destruct Hs as [_ Hall]. rewrite Forall_forall in Hall.
      apply Hall in Hyl. lia.
    + unfold Cache.addNewItem. erewrite updRef_hit by (simpl; exact Hk).
      simpl. rewrite lookup_insert_eq. simpl.
      by rewrite (Set_add_fresh 0 _ _ _ _ Hs).
  - exists (Cache.mkItem (S (Cache.nextId st)) u wsf).
    split_and!; [done..|apply not_elem_of_nil|].
    unfold Cache.addNewItem. simpl.
    erewrite updRef_hit by (simpl; apply lookup_insert_eq).
    simpl. by rewrite lookup_insert_eq.
Qed.

(** C1 (as the code has it).  After any sequence of the operations of
    [cache.ts] (with [buildCache] and [addFileToCache] among them), the
    members of every cache set are distinct objects: a set holds an object
    at most once.  It may hold several objects for one URI: adding a file
    owned by a workspace folder puts one new object at the end of the set
    of its key, whether or not the set already has an object for that
    URI. *)
Theorem sets_unique_per_object (h : Host) (ops : list Op) (st : Cache.State) :
  runOps h ops Cache.initial = Some st →
  (∀ key its, Cache.cacheItems key st = Some its → NoDup (Cache.oid <$> its))
  ∧ (∀ taskAlias u wsf,
       getWorkspaceFolder h u = Some wsf →
       ∃ it, Cache.uri it = u ∧ Cache.folder it = wsf
             ∧ (Cache.oid it ∉ Cache.oid <$> default [] (Cache.cacheItems taskAlias st))
             ∧ Cache.cacheItems taskAlias (Cache.addFileToCache h taskAlias u st)
               = Some (default [] (Cache.cacheItems taskAlias st) ++ [it])).
Proof.
  intros Hrun.
  assert (wf st) as Hwf by (eapply wf_runOps; [apply wf_initial|exact Hrun]).
  split.
  - intros key its. unfold Cache.cacheItems.
    destruct (Cache.filesCache st !! key) as [s|] eqn:Hk; [|done].
    intros [= <-]. destruct Hwf as [_ Hall]. apply Hall in Hk. apply Hk.
  - intros taskAlias u wsf. by apply addFileToCache_appends.
Qed.

Lemma sets_unique_per_object_witness :
  NoDup (Cache.oid <$> [Cache.mkItem 1 uA wsF; Cache.mkItem 2 uB wsF])
  ∧ ∃ it, Cache.cacheItems "pipenv" (Cache.addFileToCache sampleHost "pipenv" uA stScanned)
          = Some ([Cache.mkItem 1 uA wsF; Cache.mkItem 2 uB wsF] ++ [it]).
Proof.
  assert (runOps sampleHost scanOnce Cache.initial = Some stScanned) as Hrun
    by (vm_compute; reflexivity).
  destruct (sets_unique_per_object sampleHost scanOnce stScanned Hrun) as [Hnd Hadd].
  split.
  - apply (Hnd "pipenv"). vm_compute. reflexivity.
  - destruct (Hadd "pipenv" uA wsF eq_refl) as (it & _ & _ & _ & Heq).
    exists it. exact Heq.
Defined.

(** The claim as the specification words it fails: after a scan has put
    [uA] into the set, adding [uA] again changes the set, which then holds
    two items for the one URI. *)
Lemma same_uri_added_twice :
  runOps sampleHost scanOnce Cache.initial = Some stScanned
  ∧ uA ∈ Cache.uri <$> default [] (Cache.cacheItems "pipenv" stScanned)
  ∧ Cache.cacheItems "pipenv" (Cache.addFileToCache sampleHost "pipenv" uA stScanned)
    ≠ Cache.cacheItems "pipenv" stScanned
  ∧ ¬ NoDup (Cache.uri <$> default []
               (Cache.cacheItems "pipenv"
                  (Cache.addFileToCache sampleHost "pipenv" uA stScanned))).
Proof.
  split_and!.
  - vm_compute. reflexivity.
  - vm_compute. left.
  - vm_compute. discriminate.
  - vm_compute. intros Hnd. apply NoDup_cons in Hnd as [Hni _].
    apply Hni. right. left.
Qed.

(** ** rebuildCache on the sample workspace *)

(** The sample workspace: a rebuild replaces the three items of [stEx]
    by the two Pipfiles that the scan finds. *)
Example rebuildCache_sample :
  Cache.cacheItems "pipenv"
    (default stEx (finalState (Cache.rebuildCache sampleHost [] stEx)))
  = Some [Cache.mkItem 5 uA wsF; Cache.mkItem 6 uB wsF].
Proof. vm_compute. reflexivity. Qed.

(** A cancellation request that arrives while [findFiles] is pending
    leaves the rebuilt cache empty. *)
Example rebuildCache_cancelled :
  Cache.cacheItems "pipenv"
    (default stEx (finalState (Cache.rebuildCache sampleHost [requestCancel] stEx)))
  = Some [].
Proof. vm_compute. reflexivity. Qed.

(** ** C6: addFileToCache and the owning folder *)

Lemma getOrCreateSet_items key taskAlias st :
  default [] (Cache.cacheItems key (Cache.getOrCreateSet taskAlias st).2)
  = default [] (Cache.cacheItems key st).
Proof.
  unfold Cache.getOrCreateSet, Cache.cacheItems.
  destruct (Cache.filesCache st !! taskAlias) eqn:Hk; [done|]. simpl.
  destruct (decide (key = taskAlias)) as [->|Hne].
  - by rewrite lookup_insert_eq, Hk.
  - by rewrite lookup_insert_ne.
Qed.

(** C6.  [addFileToCache] of [cache.ts] creates the set of the task
    alias when there is none, and adds the item only under the guard
    [taskCache && wsf]: a file owned by a workspace folder is paired
    with that folder, in one new item at the end of the set, and a file
    owned by no folder leaves the members of every set as they were. *)
Theorem addFileToCache_pairs_with_folder (h : Host) (taskAlias : string) (u : Uri)
    (st : Cache.State) :
  wf st →
  is_Some (Cache.cacheItems taskAlias (Cache.addFileToCache h taskAlias u st))
  ∧ (∀ wsf, getWorkspaceFolder h u = Some wsf →
       ∃ it, Cache.uri it = u ∧ Cache.folder it = wsf
             ∧ Cache.cacheItems taskAlias (Cache.addFileToCache h taskAlias u st)
               = Some (default [] (Cache.cacheItems taskAlias st) ++ [it]))
  ∧ (getWorkspaceFolder h u = None →
       ∀ key, default [] (Cache.cacheItems key (Cache.addFileToCache h taskAlias u st))
              = default [] (Cache.cacheItems key st)).
Proof.
  intros Hwf. split_and!.
  - destruct (getWorkspaceFolder h u) as [wsf|] eqn:Hwsf.
    + destruct (addFileToCache_appends h taskAlias u wsf st Hwf Hwsf)
        as (it & _ & _ & _ & ->). by eexists.
    + unfold Cache.addFileToCache, Cache.getOrCreateSet, Cache.cacheItems.
      rewrite Hwsf.
      destruct (Cache.filesCache st !! taskAlias) eqn:Hk; simpl.
      * rewrite Hk. by eexists.
      * rewrite lookup_insert_eq. by eexists.
  - intros wsf Hwsf.
    destruct (addFileToCache_appends h taskAlias u wsf st Hwf Hwsf)
      as (it & ? & ? & _ & ->). by exists it.
  - intros Hnone key. unfold Cache.addFileToCache.
    pose proof (getOrCreateSet_items key taskAlias st) as Hsame.
    destruct (Cache.getOrCreateSet taskAlias st) as [r st1]. by rewrite Hnone.
Qed.

Lemma addFileToCache_pairs_with_folder_witness :
  (∃ it, Cache.uri it = uA ∧ Cache.folder it = wsF
         ∧ Cache.cacheItems "pipenv" (Cache.addFileToCache sampleHost "pipenv" uA stEx)
           = Some ([Cache.mkItem 1 uA wsF; Cache.mkItem 2 uB wsF;
                    Cache.mkItem 3 uA wsF] ++ [it]))
  ∧ default [] (Cache.cacheItems "pipenv"
                  (Cache.addFileToCache sampleHost "pipenv" uOut stEx))
    = [Cache.mkItem 1 uA wsF; Cache.mkItem 2 uB wsF; Cache.mkItem 3 uA wsF]
  ∧ is_Some (Cache.cacheItems "npm" (Cache.addFileToCache sampleHost "npm" uOut stEx)).
Proof.
  split_and!.
  - destruct (addFileToCache_pairs_with_folder sampleHost "pipenv" uA stEx wf_stEx)
      as (_ & Howned & _).
    exact (Howned wsF eq_refl).
  - destruct (addFileToCache_pairs_with_folder sampleHost "pipenv" uOut stEx wf_stEx)
      as (_ & _ & Hunowned).
    exact (Hunowned eq_refl "pipenv").
  - destruct (addFileToCache_pairs_with_folder sampleHost "npm" uOut stEx wf_stEx)
      as (Hset & _).
    exact Hset.
Defined.

(** The older copy of the cache module, which [cache.ts] superseded, has
    no such guard in its [addFileToCache]: for a uri that no workspace
    folder owns it adds an item whose [folder] is undefined. *)
Remark legacy_addFileToCache_unowned :
  getWorkspaceFolder sampleHost uOut = None
  ∧ Legacy.filesCache legacyEx !! "pipenv"
    = Some [Legacy.mkItem 1 uA (Some wsF); Legacy.mkItem 2 uB (Some wsF)]
  ∧ Legacy.filesCache (Legacy.addFileToCache sampleHost "pipenv" uOut legacyEx) !! "pipenv"
    = Some [Legacy.mkItem 1 uA (Some wsF); Legacy.mkItem 2 uB (Some wsF);
            Legacy.mkItem 3 uOut None].
Proof. split_and!; vm_compute; reflexivity. Qed.

(** ** C7: the pipenv provider *)

Lemma foldl_snoc_map {A B} (f : A → B) (l : list A) : ∀ acc,
  foldl (λ result x, result ++ [f x]) acc l = acc ++ map f l.
Proof.
  induction l as [|x l IH]; intros acc; simpl.
  - by rewrite app_nil_r.
  - by rewrite IH, <- app_assoc.
Qed.



(** *** The order of [Object.entries] *)












(** ** C8: the cached task list of a provider *)

Lemma invalidate_drains h cls : ∀ q fuel u w,
  Provider.queue (Provider.self w) = q →
  u = None ∨ (Provider.cachedTasks (Provider.self w) = None
              ∧ Provider.invalidating (Provider.self w) = false) →
  length q < fuel →
  ∃ w', Provider.invalidate h cls fuel u w = Some w'
        ∧ Provider.cachedTasks (Provider.self w') = None
        ∧ Provider.queue (Provider.self w') = []
        ∧ Provider.invalidating (Provider.self w') = false
        ∧ Provider.providerName (Provider.self w') = Provider.providerName (Provider.self w)
        ∧ Provider.cache w' = Provider.cache w
        ∧ Provider.uriReads w' = Provider.uriReads w.
Proof.
  induction q as [|next rest IH]; intros fuel u [[cached inv name qu] c reads] Hq Hu Hfuel;
    simpl in *; subst qu; (destruct fuel as [|fuel]; [lia|]).
  - destruct Hu as [->|[-> ->]].
    + simpl. unfold Provider.invalidateCached. simpl.
      destruct cached; simpl; eexists; split; by eauto.
    + destruct u; simpl; eexists; split; by eauto.
  - assert (length rest < fuel) as Hlt by (simpl in Hfuel; lia).
    destruct Hu as [->|[-> ->]].
    + simpl. unfold Provider.invalidateCached. simpl.
      destruct cached; simpl;
        (edestruct (IH fuel (Some next)) as (w' & Hrun & Hw');
           [| |exact Hlt|rewrite Hrun; exists w'; split; [done|exact Hw']];
           [done|by right]).
    + destruct u; simpl;
        (edestruct (IH fuel (Some next)) as (w' & Hrun & Hw');
           [| |exact Hlt|rewrite Hrun; exists w'; split; [done|exact Hw']];
           [done|by right]).
Qed.

(** C8.  [provideTasks] returns the stored [cachedTasks] when there are
    any, and then changes nothing: no file is read.  Only when
    [cachedTasks] is undefined does it call [readTasks], store the result
    and return it.  [invalidate] without uri returns (given fuel for the
    queued uris) with [cachedTasks] undefined and the file cache as it
    was, so that the next [provideTasks] returns, and stores, what
    [readTasks] computes from the file cache. *)
Theorem provider_caches_task_list (h : Host) (cls : Provider.Class)
    (w : Provider.World) :
  (∀ tasks,
     Provider.cachedTasks (Provider.self w) = Some tasks →
     Provider.provideTasks cls w = (tasks, w))
  ∧ (Provider.cachedTasks (Provider.self w) = None →
     let r := Provider.vReadTasks cls (Provider.self w) (Provider.cache w) in
     Provider.provideTasks cls w
     = (r.1, Provider.mkWorld (Provider.set_cachedTasks (Some r.1) (Provider.self w))
                              (Provider.cache w) (Provider.uriReads w ++ r.2)))
  ∧ (∀ fuel,
       length (Provider.queue (Provider.self w)) < fuel →
       ∃ w', Provider.invalidate h cls fuel None w = Some w'
             ∧ Provider.cachedTasks (Provider.self w') = None
             ∧ Provider.cache w' = Provider.cache w
             ∧ Provider.uriReads w' = Provider.uriReads w
             ∧ (Provider.provideTasks cls w').1
               = (Provider.vReadTasks cls (Provider.self w') (Provider.cache w)).1
             ∧ Provider.cachedTasks (Provider.self (Provider.provideTasks cls w').2)
               = Some (Provider.vReadTasks cls (Provider.self w') (Provider.cache w)).1).
Proof.
  split_and!.
  - intros tasks Hc. unfold Provider.provideTasks. by rewrite Hc.
  - intros Hc. unfold Provider.provideTasks. rewrite Hc.
    by destruct (Provider.vReadTasks cls _ _).
  - intros fuel Hfuel.
    destruct (invalidate_drains h cls _ fuel None w eq_refl (or_introl eq_refl) Hfuel)
      as (w' & Hrun & Hnone & _ & _ & _ & Hcache & Hreads).
    exists w'. split_and!; try done.
    + unfold Provider.provideTasks. rewrite Hnone, Hcache.
      by destruct (Provider.vReadTasks cls _ _).
    + unfold Provider.provideTasks. rewrite Hnone, Hcache.
      by destruct (Provider.vReadTasks cls _ _).
Qed.

Lemma provider_caches_task_list_witness :
  Provider.provideTasks (Pipenv.class sampleHost) worldEx
    = (Pipenv.readUriTasks sampleHost uA, worldEx)
  ∧ ∃ w', Provider.invalidate sampleHost (Pipenv.class sampleHost) 2 None worldEx = Some w'
          ∧ Provider.cachedTasks (Provider.self w') = None
          ∧ (Provider.provideTasks (Pipenv.class sampleHost) w').1
            = (Pipenv.readTasks sampleHost stEx).1.
Proof.
  destruct (provider_caches_task_list sampleHost (Pipenv.class sampleHost) worldEx)
    as (Hhit & _ & Hinv).
  split.
  - apply Hhit. reflexivity.
  - destruct (Hinv 2) as (w' & Hrun & Hnone & _ & _ & Hnext & _);
      [simpl; lia|].
    exists w'. split_and!; [exact Hrun|exact Hnone|exact Hnext].
Defined.

(** ** C10: each cached file is read once *)

Lemma visitLoop_spec ok readUri paths : ∀ visited allTasks reads,
  ∃ new,
    visitLoop ok readUri paths visited allTasks reads
      = (allTasks ++ concat (readUri <$> new), reads ++ new)
    ∧ NoDup (fsPath <$> new)
    ∧ (∀ u, u ∈ new →
         (fsPath u ∉ visited) ∧ ok u = true ∧ u ∈ Cache.uri <$> paths)
    ∧ (∀ it, it ∈ paths → ok (Cache.uri it) = true →
         fsPath (Cache.uri it) ∈ visited
         ∨ fsPath (Cache.uri it) ∈ fsPath <$> new).
Proof.
  induction paths as [|fObj rest IH]; intros visited allTasks reads; simpl.
  - exists []. simpl. rewrite !app_nil_r. split_and!; [done|constructor|..].
    + intros u Hu. by apply elem_of_nil in Hu.
    + intros it Hit. by apply elem_of_nil in Hit.
  - destruct (ok (Cache.uri fObj)) eqn:Hok; simpl; [case_bool_decide as Hvis; simpl|].
    + destruct (IH visited allTasks reads) as (new & -> & Hnd & Hnew & Hall).
      exists new. split_and!; [done..| |].
      * intros u Hu. destruct (Hnew u Hu) as (? & ? & ?).
        split_and!; [done..|]. rewrite ?fmap_cons. by right.
      * intros it Hit Hokit. apply elem_of_cons in Hit as [->|Hit]; [by left|].
        by apply Hall.
    + destruct (IH ({[fsPath (Cache.uri fObj)]} ∪ visited)
                   (allTasks ++ readUri (Cache.uri fObj))
                   (reads ++ [Cache.uri fObj]))
        as (new & -> & Hnd & Hnew & Hall).
      exists (Cache.uri fObj :: new). split_and!.
      * simpl. by rewrite <- !app_assoc.
      * rewrite ?fmap_cons. apply NoDup_cons. split; [|done].
        intros Hin. apply list_elem_of_fmap in Hin as (u & Hfs & Hu).
        destruct (Hnew u Hu) as (Hnv & _). apply Hnv. rewrite <- Hfs.
        by apply elem_of_union_l, elem_of_singleton.
      * intros u Hu. rewrite ?fmap_cons. apply elem_of_cons in Hu as [->|Hu].
        -- split_and!; [done..|by left].
        -- destruct (Hnew u Hu) as (Hnv & ? & ?).
           split_and!; [|done|by right].
           intros Hv. by apply Hnv, elem_of_union_r.
      * intros it Hit Hokit. rewrite ?fmap_cons.
        apply elem_of_cons in Hit as [->|Hit]; [right; by left|].
        destruct (Hall it Hit Hokit) as [Hv|Hn]; [|right; by right].
        apply elem_of_union in Hv as [Hv|Hv]; [|by left].
        apply elem_of_singleton in Hv. right. rewrite Hv. by left.
    + destruct (IH visited allTasks reads) as (new & -> & Hnd & Hnew & Hall).
      exists new. split_and!; [done..| |].
      * intros u Hu. destruct (Hnew u Hu) as (? & ? & ?).
        split_and!; [done..|]. rewrite ?fmap_cons. by right.
      * intros it Hit Hokit. apply elem_of_cons in Hit as [->|Hit]; [congruence|].
        by apply Hall.
Qed.

Lemma visitLoop_visitsOnce ok readUri items :
  ∃ reads, visitLoop ok readUri items ∅ [] [] = (concat (readUri <$> reads), reads)
           ∧ visitsOnce ok items reads.
Proof.
  destruct (visitLoop_spec ok readUri items ∅ [] []) as (new & Heq & Hnd & Hnew & Hall).
  exists new. split; [done|]. split_and!; [done| |].
  - intros u Hu. by destruct (Hnew u Hu) as (_ & ? & ?).
  - intros it Hit Hok. destruct (Hall it Hit Hok) as [Hv|Hn]; [|done].
    by apply not_elem_of_empty in Hv.
Qed.


Lemma Provider_readLoop_visitLoop h readUri paths : ∀ visited allTasks reads,
  Provider.readLoop h readUri paths visited allTasks reads
  = visitLoop (readable h) readUri paths visited allTasks reads.
Proof.
  induction paths as [|fObj rest IH]; intros visited allTasks reads; simpl; [done|].
  rewrite !IH. unfold readable.
  destruct (isExcluded h _), (pathExists h _), (bool_decide _); done.
Qed.

Lemma Pipenv_readLoop_visitLoop h paths : ∀ visited allTasks reads,
  Pipenv.readLoop h paths visited allTasks reads
  = visitLoop (included h) (Pipenv.readUriTasks h) paths visited allTasks reads.
Proof.
  induction paths as [|fObj rest IH]; intros visited allTasks reads; simpl; [done|].
  by rewrite !IH.
Qed.

(** C10 (as the code has it).  When the task type of the provider is
    enabled, [readTasks] of the base class hands to [readUriTasks] the
    cached files that are neither excluded nor missing on disk, each
    [fsPath] once however many items the cache set holds for it, and
    returns their tasks, file by file; [readTasks] of the pipenv provider
    does the same for the files that are not excluded when the workspace
    has folders.  When the task type is disabled, respectively when the
    workspace has no folders, nothing is read and the list is empty. *)
Theorem readTasks_visits_once (h : Host) (readUri : Uri → list Task)
    (p : Provider.Provider) (c : Cache.State) :
  (∀ s,
     taskTypeEnabled h (Provider.providerName p) = true →
     Cache.filesCache c !! Provider.providerName p = Some s →
     ∃ reads,
       Provider.readTasks h readUri p c = (concat (readUri <$> reads), reads)
       ∧ visitsOnce (readable h) (Cache.items s) reads)
  ∧ (taskTypeEnabled h (Provider.providerName p) = false →
     Provider.readTasks h readUri p c = ([], []))
  ∧ (∀ s folders,
       workspaceFolders h = Some folders →
       Cache.filesCache c !! "pipenv" = Some s →
       ∃ reads,
         Pipenv.readTasks h c = (concat (Pipenv.readUriTasks h <$> reads), reads)
         ∧ visitsOnce (included h) (Cache.items s) reads)
  ∧ (workspaceFolders h = None → Pipenv.readTasks h c = ([], [])).
Proof.
  split_and!.
  - intros s Hen Hs. unfold Provider.readTasks. rewrite Hs, Hen.
    rewrite Provider_readLoop_visitLoop. apply visitLoop_visitsOnce.
  - intros Hdis. unfold Provider.readTasks. rewrite Hdis.
    by destruct (Cache.filesCache c !! _).
  - intros s folders Hws Hs. unfold Pipenv.readTasks. rewrite Hws, Hs.
    rewrite Pipenv_readLoop_visitLoop. apply visitLoop_visitsOnce.
  - intros Hws. unfold Pipenv.readTasks. by rewrite Hws.
Qed.

Lemma readTasks_visits_once_witness :
  (∃ reads,
     Provider.readTasks sampleHost (Pipenv.readUriTasks sampleHost)
                        (Provider.new "pipenv") stEx
       = (concat (Pipenv.readUriTasks sampleHost <$> reads), reads)
     ∧ NoDup (fsPath <$> reads))
  ∧ Provider.readTasks disabledHost (Pipenv.readUriTasks disabledHost)
                       (Provider.new "pipenv") stEx = ([], []).
Proof.
  split.
  - destruct (readTasks_visits_once sampleHost (Pipenv.readUriTasks sampleHost)
                (Provider.new "pipenv") stEx) as (Hen & _).
    destruct (Hen (Cache.mkSet 0 [Cache.mkItem 1 uA wsF; Cache.mkItem 2 uB wsF;
                                  Cache.mkItem 3 uA wsF]) eq_refl eq_refl)
      as (reads & Heq & Hnd & _).
    exists reads. split; [exact Heq|exact Hnd].
  - apply (readTasks_visits_once disabledHost (Pipenv.readUriTasks disabledHost)
             (Provider.new "pipenv") stEx).
    reflexivity.
Defined.

(** The claim as the specification words it fails when the task type is
    disabled: the cache holds an existing, not excluded Pipfile with two
    scripts, and [readTasks] returns none of its tasks. *)
Lemma disabled_provider_reads_nothing :
  uA ∈ Cache.uri <$> default [] (Cache.cacheItems "pipenv" stEx)
  ∧ isExcluded disabledHost (path uA) = false
  ∧ pathExists disabledHost (fsPath uA) = true
  ∧ length (Pipenv.readUriTasks disabledHost uA) = 2
  ∧ Provider.readTasks disabledHost (Pipenv.readUriTasks disabledHost)
                       (Provider.new "pipenv") stEx = ([], []).
Proof. split_and!; try (vm_compute; reflexivity). vm_compute. left. Qed.

(** * More of the code: properties *)

(** ** Strings *)

Lemma str_append_nil_l (s : string) : "" +:+ s = s.
Proof. reflexivity. Qed.

Lemma str_append_cons (c : Ascii.ascii) (s t : string) :
  String c s +:+ t = String c (s +:+ t).
Proof. reflexivity. Qed.

Lemma str_append_nil_r (s : string) : s +:+ "" = s.
Proof. induction s as [|c s IH]; [done|]. by rewrite ?str_append_cons; simpl; rewrite ?IH. Qed.

Lemma str_append_assoc (a b c : string) : (a +:+ b) +:+ c = a +:+ b +:+ c.
Proof. induction a as [|x a IH]; [done|]. by rewrite ?str_append_cons; simpl; rewrite ?IH. Qed.

Lemma str_length_append (a b : string) :
  String.length (a +:+ b) = String.length a + String.length b.
Proof. induction a as [|x a IH]; [done|]. rewrite ?str_append_cons. simpl. by rewrite IH. Qed.

Lemma str_length_drop (n : nat) : ∀ s, String.length (JS.drop n s) = String.length s - n.
Proof. induction n as [|n IH]; intros [|c s]; simpl; done. Qed.

Lemma str_length_take (n : nat) : ∀ s,
  String.length (JS.take n s) = Nat.min n (String.length s).
Proof. induction n as [|n IH]; intros [|c s]; simpl; try done. by rewrite IH. Qed.

Lemma str_take_drop (n : nat) : ∀ s, JS.take n s +:+ JS.drop n s = s.
Proof.
  induction n as [|n IH]; intros [|c s]; simpl; try done.
  by rewrite ?str_append_cons; simpl; rewrite ?IH.
Qed.

Lemma str_take_append (a b : string) : JS.take (String.length a) (a +:+ b) = a.
Proof. induction a as [|x a IH]; simpl; [by destruct b|]. by rewrite ?str_append_cons; simpl; rewrite ?IH. Qed.

Lemma str_drop_append (a b : string) : JS.drop (String.length a) (a +:+ b) = b.
Proof. induction a as [|x a IH]; simpl; [done|]. by rewrite ?str_append_cons. Qed.

Lemma str_drop_drop (n m : nat) : ∀ s, JS.drop n (JS.drop m s) = JS.drop (m + n) s.
Proof.
  induction m as [|m IH]; intros s; simpl; [done|].
  destruct s as [|c s]; [by destruct n|]. apply IH.
Qed.

Lemma str_prefix_append (a s : string) :
  String.prefix a s = true ↔ ∃ rest, s = a +:+ rest.
Proof.
  revert s. induction a as [|x a IH]; intros s.
  - simpl. split; [intros _; by exists s|by destruct s].
  - destruct s as [|y s]; simpl.
    + split; [done|]. intros [rest Hr]. done.
    + destruct (Ascii.ascii_dec x y) as [->|Hne].
      * rewrite IH. split; intros [rest Hr]; exists rest.
        -- by rewrite Hr.
        -- by injection Hr.
      * split; [done|]. intros [rest Hr]. injection Hr as -> _. done.
Qed.

Lemma occursAt_split needle s k :
  occursAt needle s k ↔
  ∃ before after, s = before +:+ needle +:+ after ∧ String.length before = k.
Proof.
  unfold occursAt. split.
  - intros [Hk Hp]. apply str_prefix_append in Hp as [after Ha].
    exists (JS.take k s), after. split.
    + by rewrite <- Ha, str_take_drop.
    + rewrite str_length_take. lia.
  - intros (before & after & -> & <-). split.
    + rewrite str_length_append. lia.
    + rewrite str_drop_append. apply str_prefix_append. by exists after.
Qed.

Lemma search_unfold needle s :
  JS.search needle s =
  if String.prefix needle s then Some 0
  else match s with
       | EmptyString => None
       | String _ s' => S <$> JS.search needle s'
       end.
Proof. by destruct s. Qed.

Lemma search_Some needle : ∀ s k,
  JS.search needle s = Some k →
  occursAt needle s k ∧ ∀ j, j < k → ¬ occursAt needle s j.
Proof.
  induction s as [|c s IH]; intros k; rewrite search_unfold;
    destruct (String.prefix needle _) eqn:Hp.
  - intros [= <-]. split; [by split|]. intros j Hj; lia.
  - done.
  - intros [= <-]. split; [split; [simpl; lia|done]|]. intros j Hj; lia.
  - destruct (JS.search needle s) as [k'|] eqn:Hs; [|done].
    simpl. intros [= <-]. destruct (IH k' eq_refl) as [[Hle Hocc] Hfirst].
    split; [split; [simpl; lia|done]|].
    intros [|j] Hj [Hjl Hjp].
    + simpl JS.drop in Hjp. congruence.
    + apply (Hfirst j); [lia|]. split; [simpl in Hjl; lia|done].
Qed.

Lemma search_None needle : ∀ s,
  JS.search needle s = None → ∀ j, ¬ occursAt needle s j.
Proof.
  induction s as [|c s IH]; rewrite search_unfold;
    destruct (String.prefix needle _) eqn:Hp; try done.
  - intros _ j [Hj Hjp]. simpl in Hj. replace j with 0 in Hjp by lia.
    simpl JS.drop in Hjp. congruence.
  - destruct (JS.search needle s) as [k'|] eqn:Hs; [done|].
    intros _ [|j] [Hj Hjp].
    + simpl JS.drop in Hjp. congruence.
    + apply (IH eq_refl j). split; [simpl in Hj; lia|done].
Qed.

Lemma occursAt_drop needle s pos k :
  pos ≤ String.length s →
  occursAt needle (JS.drop pos s) k ↔ occursAt needle s (pos + k).
Proof.
  intros Hpos. unfold occursAt. rewrite str_drop_drop, str_length_drop. split.
  - intros [Hk Hp]. split; [lia|done].
  - intros [Hk Hp]. split; [lia|done].
Qed.

Lemma clamp_le i s : JS.clamp i s ≤ String.length s.
Proof. unfold JS.clamp. lia. Qed.

(** What [indexOf] returns: the first occurrence at or after the
    (clamped) position, or -1 when there is none. *)
Lemma indexOf_spec s needle position :
  let pos := JS.clamp position s in
  (JS.indexOf s needle position = (-1)%Z ∧ ∀ j, pos ≤ j → ¬ occursAt needle s j)
  ∨ ∃ k, JS.indexOf s needle position = Z.of_nat k ∧ pos ≤ k
         ∧ occursAt needle s k
         ∧ ∀ j, pos ≤ j → j < k → ¬ occursAt needle s j.
Proof.
  intros pos. unfold JS.indexOf. fold pos.
  pose proof (clamp_le position s) as Hpos. fold pos in Hpos.
  destruct (JS.search needle (JS.drop pos s)) as [k|] eqn:Hs.
  - right. apply search_Some in Hs as [Hocc Hfirst].
    exists (pos + k). split_and!; [done|lia|by apply occursAt_drop|].
    intros j Hj1 Hj2 Hocc'. apply (Hfirst (j - pos)); [lia|].
    apply occursAt_drop; [done|]. by replace (pos + (j - pos)) with j by lia.
  - left. split; [done|]. intros j Hj Hocc.
    apply (search_None _ _ Hs (j - pos)).
    apply occursAt_drop; [done|]. by replace (pos + (j - pos)) with j by lia.
Qed.

(** ** The text of the status bar *)

Lemma pad_spaces (n : nat) : ∀ msg, StatusBar.pad n msg = msg +:+ spaces n.
Proof.
  induction n as [|n IH]; intros msg; simpl.
  - by rewrite str_append_nil_r.
  - by rewrite IH, str_append_assoc.
Qed.

Lemma length_spaces (n : nat) : String.length (spaces n) = n.
Proof. induction n as [|n IH]; simpl; [done|]. by rewrite IH. Qed.

Lemma substring_from_0 msg (e : Z) :
  JS.substring msg 0 e = JS.take (JS.clamp e msg) msg.
Proof.
  unfold JS.substring. replace (JS.clamp 0 msg) with 0 by (unfold JS.clamp; lia).
  rewrite Nat.min_0_l, Nat.max_0_l, Nat.sub_0_r. done.
Qed.

(** X1.  [getStatusString] gives the status bar a text of fixed width:
    for a width of at least 3 the text after the spinner prefix has
    exactly [statusLength] code units.  A message shorter than the width
    is kept whole and filled up with blanks; any other message is cut to
    its first [statusLength - 3] code units, followed by three dots. *)
Theorem getStatusString_width (msg : string) (statusLength : Z) :
  ((3 ≤ statusLength)%Z →
     Z.of_nat (String.length (StatusBar.getStatusString msg statusLength))
     = (16 + statusLength)%Z)
  ∧ ((Z.of_nat (String.length msg) < statusLength)%Z →
       StatusBar.getStatusString msg statusLength
       = "$(loading~spin) " +:+ msg
           +:+ spaces (Z.to_nat (statusLength - Z.of_nat (String.length msg))))
  ∧ ((statusLength ≤ Z.of_nat (String.length msg))%Z →
       StatusBar.getStatusString msg statusLength
       = "$(loading~spin) " +:+ JS.take (Z.to_nat (statusLength - 3)) msg +:+ "...").
Proof.
  assert (∀ n, (n ≤ Z.of_nat (String.length msg))%Z →
            JS.substring msg 0 (n - 3) = JS.take (Z.to_nat (n - 3)) msg) as Hsub.
  { intros n Hn. rewrite substring_from_0. f_equal. unfold JS.clamp. lia. }
  split_and!.
  - intros Hn. unfold StatusBar.getStatusString.
    rewrite str_length_append. change (String.length "$(loading~spin) ") with 16.
    destruct (Z.ltb_spec (Z.of_nat (String.length msg)) statusLength) as [Hlt|Hge].
    + rewrite pad_spaces, str_length_append, length_spaces. lia.
    + rewrite (Hsub _ Hge), str_length_append, str_length_take. simpl. lia.
  - intros Hlt. unfold StatusBar.getStatusString.
    destruct (Z.ltb_spec (Z.of_nat (String.length msg)) statusLength) as [_|Hge];
      [|lia].
    by rewrite pad_spaces.
  - intros Hge. unfold StatusBar.getStatusString.
    destruct (Z.ltb_spec (Z.of_nat (String.length msg)) statusLength) as [Hlt|_];
      [lia|].
    by rewrite (Hsub _ Hge).
Qed.

Lemma getStatusString_width_witness :
  String.length (StatusBar.getStatusString "Scanning for Pipenv tasks in project ws" 65) = 81
  ∧ StatusBar.getStatusString "Scan" 8 = "$(loading~spin) Scan    "
  ∧ StatusBar.getStatusString "Scanning" 6 = "$(loading~spin) Sca...".
Proof.
  split_and!.
  - apply Nat2Z.inj.
    apply (getStatusString_width "Scanning for Pipenv tasks in project ws" 65). lia.
  - apply (getStatusString_width "Scan" 8). simpl. lia.
  - apply (getStatusString_width "Scanning" 6). simpl. lia.
Defined.

(** ** cache.ts: cancelling, waiting, skipping *)

Lemma cancelWait_bounded (n : nat) : ∀ wait sch st,
  ∃ ran sch' st',
    Cache.cancelWait wait n sch st = Some (tt, sch', st')
    ∧ sch = ran ++ sch' ∧ length ran ≤ n
    ∧ (wait && Cache.cacheBuilding st = false → sch' = sch ∧ st' = st)
    ∧ (wait = true → Cache.cacheBuilding st' = true →
       length ran = Nat.min n (length sch)).
Proof.
  induction n as [|n IH]; intros wait sch st; simpl.
  - exists [], sch, st. split_and!; done.
  - unfold Cache.mbind at 1. simpl.
    destruct (wait && Cache.cacheBuilding st) eqn:Hc.
    + unfold Cache.mbind, Cache.timeout, Cache.mbind, Cache.modify, Cache.yield.
      destruct sch as [|a sch].
      * destruct (IH wait [] (Cache.logTimeout 500 st))
          as (ran & sch' & st' & Hrun & Hsplit & Hlen & _ & Hfull).
        exists ran, sch', st'. split_and!; try done; [lia|].
        intros Hw Hb. rewrite (Hfull Hw Hb). simpl. lia.
      * destruct (IH wait sch (a (Cache.logTimeout 500 st)))
          as (ran & sch' & st' & Hrun & Hsplit & Hlen & _ & Hfull).
        exists (a :: ran), sch', st'. split_and!; try done.
        -- by rewrite Hsplit.
        -- simpl. lia.
        -- intros Hw Hb. simpl. rewrite (Hfull Hw Hb). lia.
    + exists [], sch, st. split_and!; try done; [simpl; lia|].
      intros -> Hb. simpl in Hc. congruence.
Qed.

(** X2.  [cancelBuildCache] never waits for more than 20 timeouts: it
    always returns, having let at most 20 actions of the other coroutines
    run.  Called without [wait] while a build is running it sets [cancel]
    and returns at once; called with [wait] it gives up waiting only when
    [cacheBuilding] is false or all 20 timeouts are used. *)
Theorem cancelBuildCache_bounded (wait : bool) (sch : Cache.Sched)
    (st : Cache.State) :
  ∃ ran sch' st',
    Cache.cancelBuildCache wait sch st = Some (tt, sch', st')
    ∧ sch = ran ++ sch' ∧ length ran ≤ 20
    ∧ (Cache.cacheBuilding st = true → wait = false →
       sch' = sch ∧ st' = Cache.set_cancel true st)
    ∧ (Cache.cacheBuilding st = true → wait = true →
       Cache.cacheBuilding st' = true →
       length ran = Nat.min 20 (length sch)).
Proof.
  unfold Cache.cancelBuildCache, Cache.mbind at 1, Cache.getState.
  destruct (Cache.cacheBuilding st) eqn:Hb; simpl.
  - unfold Cache.mbind, Cache.modify.
    destruct (cancelWait_bounded 20 wait sch (Cache.set_cancel true st))
      as (ran & sch' & st' & Hrun & Hsplit & Hlen & Hno & Hfull).
    exists ran, sch', st'. split_and!; try done.
    intros _ ->. by apply Hno.
  - exists [], sch, st. split_and!; try done. simpl; lia.
Qed.

Lemma cancelBuildCache_bounded_witness :
  Cache.cancelBuildCache false [finishBuild] (Cache.set_cacheBuilding true stEx)
    = Some (tt, [finishBuild], Cache.set_cancel true (Cache.set_cacheBuilding true stEx))
  ∧ ∃ st', Cache.cancelBuildCache true [] (Cache.set_cacheBuilding true stEx)
             = Some (tt, [], st')
           ∧ Cache.timeouts st' = replicate 20 500.
Proof.
  split.
  - destruct (cancelBuildCache_bounded false [finishBuild]
                (Cache.set_cacheBuilding true stEx))
      as (ran & sch' & st' & Hrun & _ & _ & Hno & _).
    destruct (Hno eq_refl eq_refl) as [-> ->]. exact Hrun.
  - eexists. split; vm_compute; reflexivity.
Defined.

(** X3.  The provider loop of [addFolderToCache] does nothing for a
    provider once [cancel] is set, and nothing for a task type that is
    neither registered by another extension nor enabled in the settings:
    no set is created, no glob recorded, no file searched, and the other
    coroutines get no turn. *)
Theorem providers_skipped (h : Host) (fld : option WorkspaceFolder)
    (names : list string) (sch : Cache.Sched) (st : Cache.State) :
  Cache.cancel st = true
  ∨ Forall (λ n, providersExternal h !! n = None ∧ taskTypeEnabled h n = false)
           names →
  Cache.forProviders h fld names sch st = Some (tt, sch, st).
Proof.
  intros Hskip. induction names as [|n names IH]; simpl; [done|].
  unfold Cache.mbind, Cache.getState.
  assert (negb (Cache.cancel st)
          && (bool_decide (is_Some (providersExternal h !! n)) || taskTypeEnabled h n)
          = false) as ->.
  { destruct Hskip as [->|Hall]; [done|].
    apply Forall_cons in Hall as [[Hext Hen] _]. rewrite Hext, Hen.
    rewrite bool_decide_eq_false_2; [by rewrite andb_false_r|].
    by intros [? ?]. }
  simpl. apply IH. destruct Hskip as [?|Hall]; [by left|right].
  by apply Forall_cons in Hall as [_ ?].
Qed.

Lemma providers_skipped_witness :
  Cache.forProviders sampleHost None ["pipenv"] [requestCancel]
                     (Cache.set_cancel true stEx)
    = Some (tt, [requestCancel], Cache.set_cancel true stEx)
  ∧ Cache.forProviders disabledHost None ["pipenv"; "npm"] [] stEx
    = Some (tt, [], stEx).
Proof.
  split.
  - apply providers_skipped. left. reflexivity.
  - apply providers_skipped. right. repeat constructor.
Defined.

(** X4.  [waitForFolderCaching] looks at [folderCaching] only: it returns
    at once when that flag is false, also while [cacheBuilding] is true;
    whenever it returns, [folderCaching] is false and the state is what
    the other coroutines made of it during the sleeps of 100 ms; and it
    does not return when the flag is still set after the last action. *)
Theorem waitForFolderCaching_polls (sch : Cache.Sched) (st : Cache.State) :
  (Cache.folderCaching st = false →
     Cache.waitForFolderCaching sch st = Some (tt, sch, st))
  ∧ (∀ sch' st', Cache.waitForFolderCaching sch st = Some (tt, sch', st') →
       Cache.folderCaching st' = false
       ∧ ∃ ran, sch = ran ++ sch' ∧ st' = sleepThrough ran st)
  ∧ ((∀ n, n ≤ length sch →
        Cache.folderCaching (sleepThrough (take n sch) st) = true) →
     Cache.waitForFolderCaching sch st = None).
Proof.
  assert (∀ sch st sch' st',
            Cache.waitForFolderCaching sch st = Some (tt, sch', st') →
            Cache.folderCaching st' = false
            ∧ ∃ ran, sch = ran ++ sch' ∧ st' = sleepThrough ran st) as Hinv.
  { clear. induction sch as [|a sch IH]; intros st sch' st';
      rewrite waitForFolderCaching_unfold;
      destruct (Cache.folderCaching st) eqn:Hf; intros Hw; simplify_eq.
    - split; [done|]. by exists [].
    - apply IH in Hw as (Hidle & ran & -> & ->). split; [done|]. by exists (a :: ran).
    - split; [done|]. by exists []. }
  split_and!.
  - intros Hf. by rewrite waitForFolderCaching_unfold, Hf.
  - apply Hinv.
  - intros Hbusy.
    destruct (Cache.waitForFolderCaching sch st) as [[[[] sch'] st']|] eqn:Hw; [|done].
    apply Hinv in Hw as (Hidle & ran & -> & ->).
    assert (length ran ≤ length (ran ++ sch')) as Hle by (rewrite length_app; lia).
    specialize (Hbusy _ Hle). rewrite take_app_length in Hbusy. congruence.
Qed.

Lemma waitForFolderCaching_polls_witness :
  Cache.waitForFolderCaching [] (Cache.set_cacheBuilding true stEx)
    = Some (tt, [], Cache.set_cacheBuilding true stEx)
  ∧ Cache.waitForFolderCaching [] (Cache.set_folderCaching true stEx) = None.
Proof.
  split.
  - apply (waitForFolderCaching_polls [] (Cache.set_cacheBuilding true stEx)).
    reflexivity.
  - apply (waitForFolderCaching_polls [] (Cache.set_folderCaching true stEx)).
    intros n Hn. simpl in Hn. replace n with 0 by lia. reflexivity.
Defined.

(** ** cache.ts: adding and removing a file *)

Lemma removeFileFromCache_items taskAlias u st :
  wf st →
  Cache.cacheItems taskAlias (Cache.removeFileFromCache taskAlias u st)
  = filter (λ it, fsPath (Cache.uri it) ≠ fsPath u)
      <$> Cache.cacheItems taskAlias st.
Proof.
  intros [_ Hwf]. unfold Cache.removeFileFromCache, Cache.cacheItems.
  destruct (Cache.filesCache st !! taskAlias) as [[i its]|] eqn:Hk;
    [|by rewrite Hk].
  simpl. rewrite (foldl_updRef _ _ _ _ _ _ Hk). simpl.
  rewrite lookup_insert_eq. simpl. f_equal.
  apply (delete_matching_by Cache.oid). apply Hwf in Hk. apply Hk.
Qed.

(** X5.  Removing a file right after adding it undoes the addition, and
    more: what is left under the key are the earlier items for other
    files, so the earlier set exactly when it held no item for that file.
    Removing the same file once more changes nothing. *)
Theorem add_then_remove (h : Host) (taskAlias : string) (u : Uri)
    (st : Cache.State) :
  wf st →
  let before := default [] (Cache.cacheItems taskAlias st) in
  let st' := Cache.removeFileFromCache taskAlias u
               (Cache.addFileToCache h taskAlias u st) in
  Cache.cacheItems taskAlias st'
    = Some (filter (λ it, fsPath (Cache.uri it) ≠ fsPath u) before)
  ∧ (Forall (λ it, fsPath (Cache.uri it) ≠ fsPath u) before →
     Cache.cacheItems taskAlias st' = Some before)
  ∧ Cache.cacheItems taskAlias (Cache.removeFileFromCache taskAlias u st')
    = Cache.cacheItems taskAlias st'.
Proof.
  intros Hwf before st'.
  assert (Cache.cacheItems taskAlias st'
          = Some (filter (λ it, fsPath (Cache.uri it) ≠ fsPath u) before)) as Heq.
  { subst st'. rewrite removeFileFromCache_items
      by (by apply wfFrom_addFileToCache).
    destruct (getWorkspaceFolder h u) as [wsf|] eqn:Hwsf.
    - destruct (addFileToCache_appends h taskAlias u wsf st Hwf Hwsf)
        as (it & Huri & _ & _ & ->).
      simpl. f_equal. rewrite filter_app. fold before.
      rewrite filter_cons, decide_False by (intros Hne; apply Hne; by rewrite Huri).
      by rewrite filter_nil, app_nil_r.
    - subst before. unfold Cache.addFileToCache.
      pose proof (getOrCreateSet_items taskAlias taskAlias st) as Hsame.
      unfold Cache.getOrCreateSet, Cache.cacheItems in *.
      destruct (Cache.filesCache st !! taskAlias) as [s|] eqn:Hk; rewrite Hwsf; simpl.
      + by rewrite Hk.
      + by rewrite lookup_insert_eq. }
  split_and!.
  - done.
  - intros Hall. rewrite Heq. f_equal. apply filter_all.
    intros x Hx. rewrite Forall_forall in Hall. by apply Hall.
  - rewrite removeFileFromCache_items.
    + rewrite Heq. simpl. f_equal. rewrite list_filter_filter.
      apply list_filter_iff. intros x. tauto.
    + subst st'. by apply wfFrom_removeFileFromCache, wfFrom_addFileToCache.
Qed.

Lemma add_then_remove_witness :
  Cache.cacheItems "pipenv"
    (Cache.removeFileFromCache "pipenv" uA (Cache.addFileToCache sampleHost "pipenv" uA stEx))
  = Some [Cache.mkItem 2 uB wsF].
Proof.
  destruct (add_then_remove sampleHost "pipenv" uA stEx wf_stEx) as (Heq & _).
  rewrite Heq. vm_compute. reflexivity.
Defined.

(** ** cache.ts: what a scan adds *)

Lemma grows_nil key s st :
  Cache.filesCache st !! key = Some s → grows key [] st st.
Proof.
  intros Hk. destruct s as [i its]. exists i, its, []. split_and!; try done.
  rewrite app_nil_r, insert_id by done. destruct st. simpl.
  unfold Cache.set_nextId, Cache.set_filesCache. simpl. f_equal. lia.
Qed.

Lemma grows_trans key p1 p2 st st1 st2 :
  grows key p1 st st1 → grows key p2 st1 st2 → grows key (p1 ++ p2) st st2.
Proof.
  intros (i & its & new1 & Hk & -> & Hp1 & Ho1) (i' & its' & new2 & Hk' & -> & Hp2 & Ho2).
  simpl in Hk'. rewrite lookup_insert_eq in Hk'. injection Hk' as <- <-.
  exists i, its, (new1 ++ new2). split_and!.
  - done.
  - unfold Cache.set_nextId, Cache.set_filesCache. simpl.
    rewrite insert_insert_eq, length_app, <- app_assoc. f_equal. lia.
  - by rewrite fmap_app, Hp1, Hp2.
  - rewrite fmap_app, Ho1, Ho2, length_app, seq_app. done.
Qed.

Lemma addNewItem_grows key i its u fld st :
  wf st →
  Cache.filesCache st !! key = Some (Cache.mkSet i its) →
  grows key [(u, fld)] st (Cache.addNewItem (Cache.mkRef key i) u fld st).
Proof.
  intros [_ Hwf] Hk. exists i, its, [Cache.mkItem (Cache.nextId st) u fld].
  split_and!; try done.
  unfold Cache.addNewItem. erewrite updRef_hit by (simpl; exact Hk).
  apply Hwf in Hk. simpl in Hk. rewrite (Set_add_fresh 0 _ _ _ _ Hk).
  unfold Cache.set_nextId, Cache.set_filesCache. simpl. f_equal. lia.
Qed.

Lemma grows_wf key pairs st st' : wf st → grows key pairs st st' → wf st'.
Proof.
  intros [_ Hwf] (i & its & new & Hk & -> & Hp & Ho). split; [lia|]. simpl.
  pose proof (Hwf _ _ Hk) as [Hnd Hb]. simpl in *.
  apply map_Forall_insert_2.
  - simpl. split.
    + rewrite fmap_app, Ho. apply NoDup_app. split_and!; [done| |apply NoDup_seq].
      intros x Hx Hx'. apply elem_of_seq in Hx'.
      apply list_elem_of_fmap in Hx as (y & -> & Hy).
      rewrite Forall_forall in Hb. apply Hb in Hy. lia.
    + apply Forall_app. split.
      * eapply Forall_impl; [exact Hb|]. simpl. intros; lia.
      * apply Forall_forall. intros x Hx.
        assert (Cache.oid x ∈ Cache.oid <$> new) as Hin by (by apply list_elem_of_fmap_2).
        rewrite Ho in Hin. apply elem_of_seq in Hin. lia.
  - eapply map_Forall_impl; [exact Hwf|]. simpl.
    intros _ s. apply wfSet_mono. lia.
Qed.

Lemma grows_cancel key pairs st st' :
  grows key pairs st st' → Cache.cancel st' = Cache.cancel st.
Proof. by intros (i & its & new & Hk & -> & _). Qed.

Lemma grows_key key pairs st st' :
  grows key pairs st st' →
  ∃ i its new, Cache.filesCache st !! key = Some (Cache.mkSet i its)
               ∧ Cache.filesCache st' !! key = Some (Cache.mkSet i (its ++ new))
               ∧ pairOf <$> new = pairs.
Proof.
  intros (i & its & new & Hk & -> & Hp & _). exists i, its, new.
  split_and!; try done. simpl. by rewrite lookup_insert_eq.
Qed.

Lemma scanPaths_grows h key i fld scb paths : ∀ st its,
  wf st → Cache.cancel st = false →
  Cache.filesCache st !! key = Some (Cache.mkSet i its) →
  grows key ((λ u, (u, fld)) <$> filter (λ u, isExcluded h (path u) = false) paths)
        st (Cache.scanPaths h (Cache.mkRef key i) fld scb paths st).
Proof.
  induction paths as [|p paths IH]; intros st its Hwf Hc Hk; simpl.
  - by eapply grows_nil.
  - rewrite Hc. rewrite filter_cons.
    case_decide as Hex; rewrite Hex || (apply not_false_is_true in Hex; rewrite Hex);
      simpl.
    + rewrite ?fmap_cons.
      pose proof (addNewItem_grows key i its p fld st Hwf Hk) as Hg.
      change (?x :: ?l) with ([x] ++ l).
      eapply grows_trans; [exact Hg|].
      destruct (grows_key _ _ _ _ Hg) as (i' & its' & new & Hk1 & Hk2 & _).
      rewrite Hk in Hk1. injection Hk1 as <- <-.
      eapply IH; [by eapply grows_wf|by rewrite (grows_cancel _ _ _ _ Hg)|exact Hk2].
    + by eapply IH.
Qed.

Lemma forFolders_grows h key i taskType fileGlob scb folders : ∀ st its,
  providersExternal h !! taskType = None →
  wf st → Cache.cancel st = false →
  Cache.filesCache st !! key = Some (Cache.mkSet i its) →
  ∃ st', Cache.forFolders h (Cache.mkRef key i) taskType fileGlob scb folders [] st
           = Some (tt, [], st')
         ∧ grows key (concat (scanned h fileGlob <$> folders)) st st'.
Proof.
  induction folders as [|fld folders IH]; intros st its Hext Hwf Hc Hk; simpl.
  - exists st. split; [done|]. by eapply grows_nil.
  - unfold Cache.mbind at 1. unfold Cache.buildFolderCache. rewrite Hext.
    unfold Cache.mbind at 1. simpl.
    pose proof (scanPaths_grows h key i fld scb (findFiles h fld fileGlob) st its Hwf Hc Hk)
      as Hg.
    destruct (grows_key _ _ _ _ Hg) as (i' & its' & new & Hk1 & Hk2 & _).
    rewrite Hk in Hk1. injection Hk1 as <- <-.
    destruct (IH _ _ Hext (grows_wf _ _ _ _ Hwf Hg)
                 (eq_trans (grows_cancel _ _ _ _ Hg) Hc) Hk2) as (st' & Hrun & Hg').
    exists st'. split; [exact Hrun|]. eapply grows_trans; [exact Hg|exact Hg'].
Qed.







(** ** cache.ts: what a cancellation stops *)

Section Quiet.
Context (h : Host) (c : gmap string Cache.SetObj).

Lemma keeps_cancelled_buildFolderCache fCache fld taskType fileGlob :
  keeps (cancelledAt c) (Cache.buildFolderCache h fCache fld taskType fileGlob false).
Proof.
  unfold Cache.buildFolderCache.
  destruct (providersExternal h !! taskType).
  - apply keeps_timeout. by intros s [? ?].
  - apply keeps_mbind; [apply keeps_yield|intros _].
    apply keeps_modify. intros s [Hc Hf].
    rewrite scanPaths_cancelled by done. by destruct (findFiles h fld fileGlob).
Qed.

Lemma keeps_cancelled_forFolders fCache taskType fileGlob folders :
  keeps (cancelledAt c) (Cache.forFolders h fCache taskType fileGlob false folders).
Proof.
  induction folders as [|f folders IH]; simpl; [apply keeps_mret|].
  apply keeps_mbind; [apply keeps_cancelled_buildFolderCache|done].
Qed.

End Quiet.

(** X7.  In a scan started by [addFolderToCache] (no [setCacheBuilding]) a
    cancellation sticks: once [cancel] is set, scanning the workspace
    folders for a task type returns with [cancel] still set and the cache
    as it was, as long as the other coroutines do not themselves clear
    the flag or write the cache. *)
Theorem cancel_sticks (h : Host) (fCache : Cache.SetRef) (taskType : string)
    (fileGlob : option string) (sch : Cache.Sched) (st : Cache.State) :
  Cache.cancel st = true →
  Forall (λ act, ∀ s, Cache.cancel s = true ∧ Cache.filesCache s = Cache.filesCache st →
                      Cache.cancel (act s) = true
                      ∧ Cache.filesCache (act s) = Cache.filesCache st) sch →
  ∃ sch' st',
    Cache.buildFolderCaches h fCache taskType fileGlob false sch st = Some (tt, sch', st')
    ∧ Cache.cancel st' = true
    ∧ Cache.filesCache st' = Cache.filesCache st.
Proof.
  intros Hc Hsch.
  destruct (returns_buildFolderCaches h fCache taskType fileGlob false sch st)
    as [[[[] sch'] st'] Hrun].
  exists sch', st'. split; [done|].
  assert (keeps (cancelledAt (Cache.filesCache st))
                (Cache.buildFolderCaches h fCache taskType fileGlob false)) as Hkeeps.
  { unfold Cache.buildFolderCaches.
    destruct (workspaceFolders h);
      [apply keeps_cancelled_forFolders|apply keeps_mret]. }
  by destruct (Hkeeps sch st tt sch' st' Hsch (conj Hc eq_refl) Hrun) as [[? ?] _].
Qed.

Lemma cancel_sticks_witness :
  ∃ sch' st',
    Cache.buildFolderCaches sampleHost (Cache.mkRef "pipenv" 0) "pipenv"
      (Some "**/Pipfile") false [Cache.logTimeout 5] (Cache.set_cancel true stEx)
      = Some (tt, sch', st')
    ∧ Cache.cancel st' = true
    ∧ Cache.filesCache st' = Cache.filesCache stEx.
Proof.
  apply (cancel_sticks sampleHost (Cache.mkRef "pipenv" 0) "pipenv" (Some "**/Pipfile")
           [Cache.logTimeout 5] (Cache.set_cancel true stEx)).
  - reflexivity.
  - repeat constructor; simpl; tauto.
Defined.

(** X8.  With [setCacheBuilding] a cancellation stops one folder only.
    When [cancel] got set while [findFiles] was pending for a folder with
    at least one file, the scan of that folder adds nothing, but it clears
    [cancel] and [cacheBuilding]; the folders after it are then scanned
    as if nothing had been asked for, and their files are added. *)
Theorem cancel_forgotten (h : Host) (key : string) (i : nat)
    (its : list Cache.ICacheItem) (taskType : string) (fileGlob : option string)
    (fld : WorkspaceFolder) (rest : list WorkspaceFolder) (a : Cache.Action)
    (st : Cache.State) :
  providersExternal h !! taskType = None →
  findFiles h fld fileGlob ≠ [] →
  Cache.cancel (a st) = true →
  wf (a st) →
  Cache.filesCache (a st) !! key = Some (Cache.mkSet i its) →
  ∃ st' new,
    Cache.forFolders h (Cache.mkRef key i) taskType fileGlob true (fld :: rest) [a] st
      = Some (tt, [], st')
    ∧ Cache.cacheItems key st' = Some (its ++ new)
    ∧ pairOf <$> new = concat (scanned h fileGlob <$> rest)
    ∧ Cache.cancel st' = false
    ∧ Cache.cacheBuilding st' = false.
Proof.
  intros Hext Hfiles Hc Hwf Hk.
  set (st1 := Cache.set_cancel false (Cache.set_cacheBuilding false (a st))).
  destruct (forFolders_grows h key i taskType fileGlob true rest st1 its Hext)
    as (st' & Hrun & Hg); [wf_same|done|done|].
  destruct (grows_key _ _ _ _ Hg) as (i' & its' & new & Hk1 & Hk2 & Hp).
  simpl in Hk1. rewrite Hk in Hk1. injection Hk1 as <- <-.
  exists st', new. split_and!.
  - simpl. unfold Cache.mbind at 1. unfold Cache.buildFolderCache. rewrite Hext.
    unfold Cache.mbind at 1. simpl. rewrite scanPaths_cancelled by done.
    destruct (findFiles h fld fileGlob); [done|]. exact Hrun.
  - unfold Cache.cacheItems. by rewrite Hk2.
  - done.
  - by rewrite (grows_cancel _ _ _ _ Hg).
  - destruct Hg as (? & ? & ? & _ & -> & _). done.
Qed.

Lemma cancel_forgotten_witness :
  ∃ st' new,
    Cache.forFolders sampleHost (Cache.mkRef "pipenv" 0) "pipenv" (Some "**/Pipfile")
      true [wsF; wsG] [requestCancel] stEx = Some (tt, [], st')
    ∧ Cache.cacheItems "pipenv" st'
      = Some ([Cache.mkItem 1 uA wsF; Cache.mkItem 2 uB wsF; Cache.mkItem 3 uA wsF]
              ++ new)
    ∧ pairOf <$> new = [(uA, wsG); (uB, wsG)].
Proof.
  destruct (cancel_forgotten sampleHost "pipenv" 0
              [Cache.mkItem 1 uA wsF; Cache.mkItem 2 uB wsF; Cache.mkItem 3 uA wsF]
              "pipenv" (Some "**/Pipfile") wsF [wsG] requestCancel stEx)
    as (st' & new & Hrun & Hitems & Hpairs & _).
  - reflexivity.
  - discriminate.
  - reflexivity.
  - apply (bool_decide_unpack _). vm_compute. exact I.
  - reflexivity.
  - exists st', new. split_and!; [exact Hrun|exact Hitems|exact Hpairs].
Defined.

(** ** The provider base class: invalidate *)

Lemma invalidateCached_withQueue h cls u q w :
  Provider.invalidateCached h cls u (withQueue q w)
  = withQueue q (Provider.invalidateCached h cls u w).
Proof.
  destruct w as [[cached inv name qu] c reads].
  unfold Provider.invalidateCached, withQueue. simpl.
  destruct cached as [cached|]; [|done]. destruct u as [ur|]; [|done].
  destruct (pathExists h (fsPath ur)); simpl.
  - case_bool_decide; simpl.
    + by destruct (filter _ cached ++ Provider.vReadUriTasks cls ur).
    + by destruct (filter _ cached).
  - by destruct (filter _ cached).
Qed.

Lemma invalidateOne_withQueue h cls u q w :
  invalidateOne h cls u (withQueue q w) = withQueue q (invalidateOne h cls u w).
Proof.
  unfold invalidateOne.
  change (Provider.mkWorld (Provider.set_invalidating true (Provider.self (withQueue q w)))
            (Provider.cache (withQueue q w)) (Provider.uriReads (withQueue q w)))
    with (withQueue q (Provider.mkWorld (Provider.set_invalidating true (Provider.self w))
                         (Provider.cache w) (Provider.uriReads w))).
  by rewrite invalidateCached_withQueue.
Qed.

Lemma withQueue_withQueue q q' w : withQueue q (withQueue q' w) = withQueue q w.
Proof. done. Qed.

Lemma withQueue_same w : withQueue (Provider.queue (Provider.self w)) w = w.
Proof. by destruct w as [[? ? ? ?] ? ?]. Qed.

Lemma invalidateOne_queue h cls u w :
  Provider.queue (Provider.self (invalidateOne h cls u w))
  = Provider.queue (Provider.self w).
Proof.
  rewrite <- (withQueue_same w) at 1. rewrite invalidateOne_withQueue. done.
Qed.

Lemma invalidateOne_settled h cls u w :
  Provider.invalidating (Provider.self (invalidateOne h cls u w)) = false
  ∧ Provider.cachedTasks (Provider.self (invalidateOne h cls u w)) ≠ Some [].
Proof.
  split; [done|].
  destruct w as [[cached inv name qu] c reads].
  unfold invalidateOne, Provider.invalidateCached. simpl.
  destruct cached as [cached|]; [|done]. destruct u as [ur|]; [|done].
  destruct (pathExists h (fsPath ur)); simpl.
  - case_bool_decide; simpl.
    + by destruct (filter _ cached ++ Provider.vReadUriTasks cls ur).
    + by destruct (filter _ cached).
  - by destruct (filter _ cached).
Qed.

Lemma invalidate_unfold h cls fuel u w :
  u = None ∨ Provider.invalidating (Provider.self w) = false →
  Provider.invalidate h cls (S fuel) u w
  = match Provider.queue (Provider.self w) with
    | [] => Some (invalidateOne h cls u w)
    | next :: rest =>
        Provider.invalidate h cls fuel (Some next)
          (withQueue rest (invalidateOne h cls u w))
    end.
Proof.
  intros Hu. rewrite <- (invalidateOne_queue h cls u w).
  change (Provider.invalidate h cls (S fuel) u w)
    with (match u, Provider.invalidating (Provider.self w) with
          | Some ur, true =>
              Some (Provider.mkWorld
                      (Provider.set_queue (Provider.queue (Provider.self w) ++ [ur])
                                          (Provider.self w))
                      (Provider.cache w) (Provider.uriReads w))
          | _, _ =>
              match Provider.queue (Provider.self (invalidateOne h cls u w)) with
              | [] => Some (invalidateOne h cls u w)
              | next :: rest =>
                  Provider.invalidate h cls fuel (Some next)
                    (withQueue rest (invalidateOne h cls u w))
              end
          end).
  destruct u as [ur|]; [|done].
  destruct Hu as [Hu|Hu]; [done|]. by rewrite Hu.
Qed.

Lemma invalidate_runs h cls : ∀ q fuel u w,
  Provider.queue (Provider.self w) = q →
  u = None ∨ Provider.invalidating (Provider.self w) = false →
  length q < fuel →
  Provider.invalidate h cls fuel u w
  = Some (foldl (λ w next, invalidateOne h cls (Some next) w)
                (invalidateOne h cls u (withQueue [] w)) q).
Proof.
  induction q as [|next rest IH]; intros fuel u w Hq Hu Hfuel;
    (destruct fuel as [|fuel]; [simpl in Hfuel; lia|]);
    rewrite invalidate_unfold by done; rewrite Hq.
  - simpl. rewrite <- Hq, withQueue_same. done.
  - rewrite (IH fuel (Some next) (withQueue rest (invalidateOne h cls u w)));
      [|simpl; done|by right|simpl in Hfuel; lia].
    cbn [foldl]. rewrite withQueue_withQueue.
    by rewrite (invalidateOne_withQueue h cls u [] w).
Qed.

Lemma foldl_invalidateOne_settled h cls q : ∀ w,
  Provider.queue (Provider.self w) = [] →
  Provider.invalidating (Provider.self w) = false →
  Provider.cachedTasks (Provider.self w) ≠ Some [] →
  let w' := foldl (λ w next, invalidateOne h cls (Some next) w) w q in
  Provider.queue (Provider.self w') = []
  ∧ Provider.invalidating (Provider.self w') = false
  ∧ Provider.cachedTasks (Provider.self w') ≠ Some [].
Proof.
  induction q as [|next rest IH]; intros w Hq Hi Hc; simpl; [done|].
  apply IH.
  - by rewrite invalidateOne_queue.
  - apply invalidateOne_settled.
  - apply invalidateOne_settled.
Qed.

(** X9.  [invalidate] works its queue off in order.  A call that is not
    turned away (no uri, or no invalidation under way) handles its own
    uri and then each queued uri, first in first out, exactly as a call
    of its own would; it returns with the queue empty and [invalidating]
    false, and never leaves [cachedTasks] an empty array.  A call with a
    uri made while an invalidation is under way only puts the uri at the
    end of the queue. *)
Theorem invalidate_processes_queue (h : Host) (cls : Provider.Class)
    (fuel : nat) (u : option Uri) (w : Provider.World) :
  (u = None ∨ Provider.invalidating (Provider.self w) = false →
   length (Provider.queue (Provider.self w)) < fuel →
   ∃ w', Provider.invalidate h cls fuel u w = Some w'
         ∧ w' = foldl (λ w next, invalidateOne h cls (Some next) w)
                      (invalidateOne h cls u (withQueue [] w))
                      (Provider.queue (Provider.self w))
         ∧ Provider.queue (Provider.self w') = []
         ∧ Provider.invalidating (Provider.self w') = false
         ∧ Provider.cachedTasks (Provider.self w') ≠ Some [])
  ∧ (∀ ur, u = Some ur → Provider.invalidating (Provider.self w) = true →
       0 < fuel →
       Provider.invalidate h cls fuel u w
       = Some (withQueue (Provider.queue (Provider.self w) ++ [ur]) w)).
Proof.
  split.
  - intros Hu Hfuel. eexists. split; [by apply invalidate_runs|].
    split; [done|]. apply foldl_invalidateOne_settled.
    + by rewrite invalidateOne_queue.
    + apply invalidateOne_settled.
    + apply invalidateOne_settled.
  - intros ur -> Hinv Hfuel. destruct fuel as [|fuel]; [lia|]. simpl.
    by rewrite Hinv.
Qed.

Lemma invalidate_processes_queue_witness :
  (∃ w', Provider.invalidate sampleHost (Pipenv.class sampleHost) 2 None worldEx = Some w'
         ∧ Provider.queue (Provider.self w') = []
         ∧ Provider.cachedTasks (Provider.self w') ≠ Some [])
  ∧ Provider.invalidate sampleHost (Pipenv.class sampleHost) 1 (Some uA)
      (Provider.mkWorld (Provider.set_invalidating true (Provider.self worldEx))
                        stEx [uA])
    = Some (Provider.mkWorld
              (Provider.mkProvider (Some (Pipenv.readUriTasks sampleHost uA)) true
                                   "pipenv" [uB; uA])
              stEx [uA]).
Proof.
  split.
  - destruct (invalidate_processes_queue sampleHost (Pipenv.class sampleHost) 2 None worldEx)
      as (Hrun & _).
    destruct Hrun as (w' & Hrun & _ & Hq & _ & Hc); [by left|simpl; lia|].
    exists w'. split_and!; [exact Hrun|exact Hq|exact Hc].
  - apply (invalidate_processes_queue sampleHost (Pipenv.class sampleHost) 1 (Some uA)
             (Provider.mkWorld (Provider.set_invalidating true (Provider.self worldEx))
                               stEx [uA]) ).
    + reflexivity.
    + reflexivity.
    + lia.
Defined.

Lemma removeFileFromCache_other taskAlias u st key :
  key ≠ taskAlias →
  Cache.filesCache (Cache.removeFileFromCache taskAlias u st) !! key
  = Cache.filesCache st !! key.
Proof.
  intros Hne. unfold Cache.removeFileFromCache.
  destruct (Cache.filesCache st !! taskAlias) as [[i its]|] eqn:Hk; [|done].
  simpl. rewrite (foldl_updRef _ _ _ _ _ _ Hk). simpl.
  by rewrite lookup_insert_ne.
Qed.

Lemma nonEmpty_match {A} (l : list A) :
  match l with _ :: _ => Some l | [] => None end = nonEmpty l.
Proof. by destruct l. Qed.

(** X10.  [invalidate(uri)] of a provider with cached tasks, no
    invalidation under way and an empty queue brings the tasks of that
    one file up to date.  It drops the cached tasks that refer to the
    file, and those whose own file is gone; it keeps the others in their
    order; when the file exists and its path is not in the [exclude]
    setting it reads the file once and appends its tasks.  [cachedTasks]
    becomes undefined when nothing is left.  The file cache is touched
    only when the file does not exist: then its items leave the set of
    the provider, and the other sets stay. *)
Theorem invalidate_refreshes_file (h : Host) (cls : Provider.Class)
    (fuel : nat) (u : Uri) (w : Provider.World) (cached : list Task) :
  Provider.cachedTasks (Provider.self w) = Some cached →
  Provider.invalidating (Provider.self w) = false →
  Provider.queue (Provider.self w) = [] →
  0 < fuel →
  wf (Provider.cache w) →
  let name := Provider.providerName (Provider.self w) in
  let kept := filter (λ t, Provider.staleTask h u t = false) cached in
  let reread := pathExists h (fsPath u) && bool_decide (path u ∉ excludeSetting h) in
  ∃ w',
    Provider.invalidate h cls fuel (Some u) w = Some w'
    ∧ Provider.cachedTasks (Provider.self w')
      = nonEmpty (kept ++ if reread then Provider.vReadUriTasks cls u else [])
    ∧ Forall (λ t, ∀ du, defUri (definition t) = Some du →
                         fsPath du ≠ fsPath u ∧ pathExists h (fsPath du) = true) kept
    ∧ Provider.uriReads w' = Provider.uriReads w ++ (if reread then [u] else [])
    ∧ (pathExists h (fsPath u) = true → Provider.cache w' = Provider.cache w)
    ∧ (pathExists h (fsPath u) = false →
       Cache.cacheItems name (Provider.cache w')
         = filter (λ it, fsPath (Cache.uri it) ≠ fsPath u)
             <$> Cache.cacheItems name (Provider.cache w)
       ∧ ∀ key, key ≠ name →
           Cache.cacheItems key (Provider.cache w')
           = Cache.cacheItems key (Provider.cache w)).
Proof.
  intros Hc Hinv Hq Hfuel Hwf name kept reread.
  destruct fuel as [|fuel]; [lia|].
  exists (invalidateOne h cls (Some u) w). split.
  { rewrite invalidate_unfold by (by right). by rewrite Hq. }
  destruct w as [[cached' inv nm qu] c reads]. simpl in *. subst cached' inv qu.
  unfold invalidateOne, Provider.invalidateCached. simpl. fold kept.
  split_and!.
  - subst reread. destruct (pathExists h (fsPath u)); simpl.
    + case_bool_decide; simpl.
      * by destruct (kept ++ Provider.vReadUriTasks cls u).
      * rewrite app_nil_r. by destruct kept.
    + rewrite app_nil_r. by destruct kept.
  - apply Forall_forall. intros t Ht du Hdu.
    apply list_elem_of_filter in Ht as [Hst _]. unfold Provider.staleTask in Hst.
    rewrite Hdu in Hst. apply orb_false_iff in Hst as [Hne Hex].
    apply bool_decide_eq_false in Hne. apply negb_false_iff in Hex. done.
  - subst reread. destruct (pathExists h (fsPath u)); simpl.
    + case_bool_decide; simpl.
      * by destruct (kept ++ Provider.vReadUriTasks cls u).
      * rewrite app_nil_r. by destruct kept.
    + rewrite app_nil_r. by destruct kept.
  - intros Hex. rewrite Hex. simpl. case_bool_decide; simpl.
    + by destruct (kept ++ Provider.vReadUriTasks cls u).
    + by destruct kept.
  - intros Hex. rewrite Hex. simpl.
    split.
    + destruct kept; simpl; by apply removeFileFromCache_items.
    + intros key Hne. unfold Cache.cacheItems.
      destruct kept; simpl; by rewrite removeFileFromCache_other.
Qed.

Lemma invalidate_refreshes_file_witness :
  ∃ w',
    Provider.invalidate sampleHost (Pipenv.class sampleHost) 1 (Some uA)
      (withQueue [] worldEx) = Some w'
    ∧ Provider.cachedTasks (Provider.self w')
      = Some (Pipenv.readUriTasks sampleHost uA)
    ∧ Provider.uriReads w' = [uA; uA].
Proof.
  destruct (invalidate_refreshes_file sampleHost (Pipenv.class sampleHost) 1 uA
              (withQueue [] worldEx) (Pipenv.readUriTasks sampleHost uA))
    as (w' & Hrun & Hc & _ & Hreads & _).
  - reflexivity.
  - reflexivity.
  - reflexivity.
  - lia.
  - exact wf_stEx.
  - exists w'. split_and!; [exact Hrun|rewrite Hc|rewrite Hreads];
      vm_compute; reflexivity.
Defined.

(** ** The pipenv provider: its tasks *)

Lemma elem_of_concat {A} (x : A) (ls : list (list A)) :
  x ∈ concat ls ↔ ∃ l, x ∈ l ∧ l ∈ ls.
Proof.
  induction ls as [|l ls IH]; simpl.
  - split; [by intros ?%elem_of_nil|]. by intros (? & _ & ?%elem_of_nil).
  - rewrite elem_of_app, IH. split.
    + intros [Hx|(l' & Hx & Hl')]; [exists l; split; [done|by left]|].
      exists l'. split; [done|by right].
    + intros (l' & Hx & [->|Hl']%elem_of_cons); [by left|right; by exists l'].
Qed.

Lemma elem_of_readUriTasks h u t :
  t ∈ Pipenv.readUriTasks h u ↔
  ∃ fld s, getWorkspaceFolder h u = Some fld
           ∧ s ∈ Pipenv.findTargets h (fsPath u)
           ∧ t = Pipenv.set_group Build (Pipenv.createTask h s s fld u).
Proof.
  unfold Pipenv.readUriTasks.
  destruct (getWorkspaceFolder h u) as [fld|].
  - rewrite (foldl_snoc_map (λ s, Pipenv.set_group Build (Pipenv.createTask h s s fld u))).
    simpl. rewrite list_elem_of_In, in_map_iff. split.
    + intros (s & <- & Hs). exists fld, s. by rewrite list_elem_of_In.
    + intros (fld' & s & [= <-] & Hs & ->). exists s. by rewrite <- list_elem_of_In.
  - split; [by intros ?%elem_of_nil|]. by intros (? & ? & ? & _).
Qed.

(** X11.  Every task that the pipenv provider reads comes from the file
    cache: it belongs to an item of the "pipenv" set whose path is not
    excluded, it is named after a script of that Pipfile, has source
    "pipenv" and group Build, and its folder is the workspace folder
    that owns the file at the time of reading. *)
Theorem pipenv_tasks_come_from_cache (h : Host) (c : Cache.State) (t : Task) :
  t ∈ (Pipenv.readTasks h c).1 →
  source t = "pipenv" ∧ group t = Some Build
  ∧ ∃ s it,
      Cache.filesCache c !! "pipenv" = Some s
      ∧ it ∈ Cache.items s
      ∧ defUri (definition t) = Some (Cache.uri it)
      ∧ isExcluded h (path (Cache.uri it)) = false
      ∧ getWorkspaceFolder h (Cache.uri it) = Some (scope t)
      ∧ taskName t ∈ Pipenv.findTargets h (fsPath (Cache.uri it)).
Proof.
  unfold Pipenv.readTasks.
  destruct (workspaceFolders h) as [folders|]; [|by intros ?%elem_of_nil].
  destruct (Cache.filesCache c !! "pipenv") as [s|] eqn:Hs;
    [|by intros ?%elem_of_nil].
  rewrite Pipenv_readLoop_visitLoop.
  destruct (visitLoop_visitsOnce (included h) (Pipenv.readUriTasks h) (Cache.items s))
    as (reads & -> & _ & Hreads & _).
  simpl. intros Ht. apply elem_of_concat in Ht as (ts & Ht & Hts).
  apply list_elem_of_fmap in Hts as (u & -> & Hu).
  destruct (Hreads u Hu) as [Hinc Hin].
  apply list_elem_of_fmap in Hin as (it & -> & Hit).
  apply elem_of_readUriTasks in Ht as (fld & sc & Hfld & Hsc & ->).
  split_and!; [done..|]. exists s, it. split_and!; try done.
  unfold included in Hinc. by apply negb_true_iff in Hinc.
Qed.

Lemma pipenv_tasks_come_from_cache_witness :
  Forall (λ t, source t = "pipenv" ∧ group t = Some Build)
         (Pipenv.readTasks sampleHost stEx).1
  ∧ length (Pipenv.readTasks sampleHost stEx).1 = 2.
Proof.
  split; [|reflexivity].
  apply Forall_forall. intros t Ht.
  destruct (pipenv_tasks_come_from_cache sampleHost stEx t Ht) as (Hs & Hg & _).
  split; [exact Hs|exact Hg].
Defined.

(** X12.  The command of a pipenv task.  It always runs in the directory
    of the Pipfile and ends in [run <script>]; the [cmd] argument plays
    no part.  With another [pathToPipenv] than the default "pipenv" that
    program is run directly.  With the default, pipenv is run as a module
    of the Python interpreter of the [python.pythonPath] setting, or of
    "python" when that setting is absent; when the setting is the empty
    text, the command is empty and the module arguments are missing. *)
Theorem pipenv_task_command (h : Host) (tgt cmd : string) (fld : WorkspaceFolder)
    (u : Uri) :
  let t := Pipenv.createTask h tgt cmd fld u in
  cwd (execution t) = dirname h (fsPath u)
  ∧ t = Pipenv.createTask h tgt tgt fld u
  ∧ (pathToPipenv h ≠ "pipenv" →
     command (execution t) = pathToPipenv h ∧ args (execution t) = ["run"; tgt])
  ∧ (pathToPipenv h = "pipenv" → pythonPathSetting h ≠ Some "" →
     command (execution t) = default "python" (pythonPathSetting h)
     ∧ args (execution t) = ["-m"; "pipenv"; "run"; tgt])
  ∧ (pathToPipenv h = "pipenv" → pythonPathSetting h = Some "" →
     command (execution t) = "" ∧ args (execution t) = ["run"; tgt]).
Proof.
  intros t. subst t. unfold Pipenv.createTask. split_and!; try done.
  - intros Hne. apply String.eqb_neq in Hne. by rewrite Hne.
  - intros Heq Hset. rewrite Heq. simpl.
    destruct (pythonPathSetting h) as [p|]; simpl; [|done].
    destruct (String.eqb_spec p ""); [congruence|done].
  - intros Heq Hset. by rewrite Heq, Hset.
Qed.

Lemma pipenv_task_command_witness :
  command (execution (Pipenv.createTask sampleHost "test" "pytest" wsF uA)) = "python"
  ∧ args (execution (Pipenv.createTask sampleHost "test" "pytest" wsF uA))
    = ["-m"; "pipenv"; "run"; "test"].
Proof.
  destruct (pipenv_task_command sampleHost "test" "pytest" wsF uA)
    as (_ & _ & _ & Hdef & _).
  apply Hdef; [reflexivity|discriminate].
Defined.

(** ** The provider base class: positions in a document *)

(** The integers of magnitude up to 2^53 are doubles. *)
Lemma toDouble_exact (x : Z) : (Z.abs x ≤ 2 ^ 53)%Z → JS.toDouble x = x.
Proof.
  intros Hb. unfold JS.toDouble.
  destruct (Z.ltb_spec (Z.abs x) (2 ^ 53)) as [_|Hge]; [done|].
  assert (x = 2 ^ 53 ∨ x = - 2 ^ 53)%Z as [->| ->] by lia; vm_compute; reflexivity.
Qed.

(** The sum of two such numbers is exact as long as it is one of them. *)
Lemma add_exact (a b : Z) :
  (Z.abs a ≤ 2 ^ 53)%Z → (Z.abs b ≤ 2 ^ 53)%Z → (Z.abs (a + b) ≤ 2 ^ 53)%Z →
  JS.add a b = (a + b)%Z.
Proof.
  intros Ha Hb Hab. unfold JS.add.
  rewrite (toDouble_exact a) by done. rewrite (toDouble_exact b) by done.
  by apply toDouble_exact.
Qed.

(** X13.  [getDocumentPositionLine] looks for the line name followed by
    the script name, the script name in double quotes first and in single
    quotes only when no double-quoted one is found (with [skipQuotes] the
    name bare).  It answers -1 when neither occurs at or after [start];
    otherwise the place of the first occurrence of the form it found,
    moved on by [advance].  This holds as long as the magnitude of
    [advance] and the length of the document together do not exceed
    2^53, so that the sum is exact. *)
Theorem getDocumentPositionLine_finds (lineName scriptName documentText : string)
    (advance start : Z) (skipQuotes : bool) :
  (Z.abs advance + Z.of_nat (String.length documentText) ≤ 2 ^ 53)%Z →
  let pattern q := lineName +:+ q +:+ scriptName +:+ q in
  let q1 := if negb skipQuotes then ProviderText.dquote else "" in
  let q2 := if negb skipQuotes then ProviderText.squote else "" in
  let pos := JS.clamp start documentText in
  let r := ProviderText.getDocumentPositionLine lineName scriptName documentText
             advance start skipQuotes in
  (r = (-1)%Z
   ∧ ∀ j, pos ≤ j → ¬ occursAt (pattern q1) documentText j
                     ∧ ¬ occursAt (pattern q2) documentText j)
  ∨ ∃ k, pos ≤ k ∧ r = (Z.of_nat k + advance)%Z
         ∧ ((occursAt (pattern q1) documentText k
             ∧ ∀ j, pos ≤ j → j < k → ¬ occursAt (pattern q1) documentText j)
            ∨ ((∀ j, pos ≤ j → ¬ occursAt (pattern q1) documentText j)
               ∧ occursAt (pattern q2) documentText k
               ∧ ∀ j, pos ≤ j → j < k → ¬ occursAt (pattern q2) documentText j)).
Proof.
  intros Hsafe pattern q1 q2 pos r. subst r pos.
  unfold ProviderText.getDocumentPositionLine. fold q1 q2.
  fold (pattern q1) (pattern q2).
  assert (∀ k : nat, k ≤ String.length documentText →
            (if negb (advance =? 0)%Z && negb (Z.of_nat k =? -1)%Z
             then JS.add (Z.of_nat k) advance else Z.of_nat k)
            = (Z.of_nat k + advance)%Z) as Hadv.
  { intros k Hk. destruct (Z.eqb_spec advance 0) as [->|_]; simpl; [lia|].
    destruct (Z.eqb_spec (Z.of_nat k) (-1)); [lia|]. simpl.
    apply add_exact; lia. }
  destruct (indexOf_spec documentText (pattern q1) start)
    as [[-> Hno1]|(k & -> & Hk & Hocc & Hfirst)].
  - simpl.
    destruct (indexOf_spec documentText (pattern q2) start)
      as [[-> Hno2]|(k & -> & Hk & Hocc & Hfirst)].
    + left. simpl. rewrite andb_false_r. split; [done|]. intros j Hj. split; auto.
    + right. exists k. rewrite Hadv by apply Hocc. split_and!; [done..|]. right. done.
  - right. exists k.
    destruct (Z.eqb_spec (Z.of_nat k) (-1)) as [?|_]; [lia|].
    rewrite Hadv by apply Hocc. split_and!; [done..|]. left. done.
Qed.

Lemma getDocumentPositionLine_finds_witness :
  ProviderText.getDocumentPositionLine "name=" "build" "x name='build' y" 1 0 false = 3%Z
  ∧ ProviderText.getDocumentPositionLine "name=" "test" "x name='build' y" 1 0 false
    = (-1)%Z.
Proof.
  split.
  - destruct (getDocumentPositionLine_finds "name=" "build" "x name='build' y" 1 0 false)
      as [[Hr _]|(k & _ & Hr & _)];
      [apply Z.leb_le; reflexivity|vm_compute; reflexivity|vm_compute; reflexivity].
  - destruct (getDocumentPositionLine_finds "name=" "test" "x name='build' y" 1 0 false)
      as [[Hr _]|(k & _ & Hr & _)]; [apply Z.leb_le; reflexivity|exact Hr|].
    vm_compute. reflexivity.
Defined.

(** X14.  [getDocumentPosition] of the pipenv provider answers the first
    place at which the script name occurs anywhere in the document, as a
    key or not, and -1 when it occurs nowhere; an empty name is found at
    0.  For an undefined document the call throws. *)
Theorem pipenv_getDocumentPosition (taskName : string) (documentText : string) :
  ProviderText.getDocumentPosition (Some taskName) None = None
  ∧ (taskName = "" →
     ProviderText.getDocumentPosition (Some taskName) (Some documentText) = Some 0%Z)
  ∧ ((∀ j, ¬ occursAt taskName documentText j) →
     ProviderText.getDocumentPosition (Some taskName) (Some documentText)
     = Some (-1)%Z)
  ∧ (∀ k, occursAt taskName documentText k →
          (∀ j, j < k → ¬ occursAt taskName documentText j) →
          ProviderText.getDocumentPosition (Some taskName) (Some documentText)
          = Some (Z.of_nat k)).
Proof.
  assert (ProviderText.getDocumentPosition (Some taskName) (Some documentText)
          = Some (JS.indexOf documentText taskName 0)) as Heq.
  { unfold ProviderText.getDocumentPosition, ProviderText.getDocumentPositionLine.
    cbn [default negb andb Z.eqb].
    change ("" +:+ "" +:+ id taskName +:+ "") with (taskName +:+ "").
    rewrite str_append_nil_r. by destruct (_ =? _)%Z. }
  assert (JS.clamp 0 documentText = 0) as Hpos by (unfold JS.clamp; lia).
  pose proof (indexOf_spec documentText taskName 0) as Hspec. simpl in Hspec.
  rewrite Hpos in Hspec.
  split_and!.
  - done.
  - intros ->. rewrite Heq. unfold JS.indexOf. rewrite Hpos. simpl.
    by destruct documentText.
  - intros Hno. rewrite Heq.
    destruct Hspec as [[-> _]|(k & _ & _ & Hocc & _)]; [done|].
    by apply Hno in Hocc.
  - intros k Hocc Hfirst. rewrite Heq.
    destruct Hspec as [[_ Hno]|(k' & -> & _ & Hocc' & Hfirst')].
    + exfalso. apply (Hno k); [lia|done].
    + f_equal. f_equal.
      destruct (Nat.lt_trichotomy k k') as [Hlt|[->|Hgt]]; [|done|].
      * exfalso. apply (Hfirst' k); [lia|done|done].
      * exfalso. by apply (Hfirst k').
Qed.

Lemma pipenv_getDocumentPosition_witness :
  ProviderText.getDocumentPosition (Some "test") (Some "[scripts] test = 'pytest'")
    = Some 10%Z
  ∧ ProviderText.getDocumentPosition (Some "lint") (Some "[scripts]") = Some (-1)%Z.
Proof.
  split.
  - destruct (pipenv_getDocumentPosition "test" "[scripts] test = 'pytest'")
      as (_ & _ & _ & Hfound).
    apply (Hfound 10).
    + vm_compute. split; [lia|reflexivity].
    + intros j Hj [_ Hp]. do 10 (destruct j as [|j]; [vm_compute in Hp; discriminate|]).
      lia.
  - destruct (pipenv_getDocumentPosition "lint" "[scripts]") as (_ & _ & Hnone & _).
    apply Hnone. intros j [Hj Hp]. simpl in Hj.
    do 10 (destruct j as [|j]; [vm_compute in Hp; discriminate|]). lia.
Defined.

(** Beyond the safe integers the sum is rounded, as a sum of doubles is:
    the name found at place 1, moved on by 2^53, is reported at 2^53. *)
Example getDocumentPositionLine_rounds :
  ProviderText.getDocumentPositionLine "" "b" "ab" (2 ^ 53) 0 true = (2 ^ 53)%Z.
Proof. vm_compute. reflexivity. Qed.

(** ** The tree nodes *)

Lemma lastIndex_Some x : ∀ l i,
  TaskFile.lastIndex x l = Some i →
  ∃ pre post, l = pre ++ x :: post ∧ length pre = i ∧ (x ∉ post).
Proof.
  induction l as [|y l IH]; intros i; simpl; [done|].
  destruct (TaskFile.lastIndex x l) as [j|] eqn:Hl.
  - intros [= <-]. destruct (IH j eq_refl) as (pre & post & -> & Hlen & Hni).
    exists (y :: pre), post. simpl. by rewrite Hlen.
  - case_bool_decide as Hxy; [|done]. intros [= <-]. subst y.
    exists [], l. split_and!; try done.
    clear IH. induction l as [|z l IHl]; [apply not_elem_of_nil|].
    simpl in Hl. destruct (TaskFile.lastIndex x l); [done|].
    case_bool_decide; [done|]. apply not_elem_of_cons. split; [done|]. by apply IHl.
Qed.

Lemma lastIndex_None x : ∀ l, TaskFile.lastIndex x l = None ↔ x ∉ l.
Proof.
  induction l as [|y l IH]; simpl; [split; [intros _; apply not_elem_of_nil|done]|].
  rewrite not_elem_of_cons, <- IH.
  destruct (TaskFile.lastIndex x l).
  - split; [done|]. by intros [_ ?].
  - case_bool_decide; split.
    + done.
    + by intros [? _].
    + done.
    + done.
Qed.

Lemma lastIndex_snoc x l : TaskFile.lastIndex x (l ++ [x]) = Some (length l).
Proof.
  induction l as [|y l IH]; simpl; [by rewrite bool_decide_eq_true_2|].
  by rewrite IH.
Qed.

Lemma removeLoop_acc x : ∀ l (a b : Z),
  foldl (λ acc each,
           let idx := (acc.1 + 1)%Z in
           (idx, if bool_decide (x = each) then idx else acc.2)) (a, b) l
  = ((a + Z.of_nat (length l))%Z,
     from_option (λ i, (a + 1 + Z.of_nat i)%Z) b (TaskFile.lastIndex x l)).
Proof.
  induction l as [|y l IH]; intros a b; simpl.
  - f_equal. lia.
  - rewrite IH. simpl. f_equal; [lia|].
    destruct (TaskFile.lastIndex x l) as [i|]; simpl; [lia|].
    case_bool_decide; simpl; [lia|done].
Qed.

Lemma removeLoop_index x l :
  (TaskFile.removeLoop x l).2
  = from_option (λ i, Z.of_nat i) (-1)%Z (TaskFile.lastIndex x l).
Proof.
  unfold TaskFile.removeLoop. rewrite removeLoop_acc. simpl.
  destruct (TaskFile.lastIndex x l); simpl; [lia|done].
Qed.

(** The children of [this] after [removeTreeNode]. *)
Lemma removeTreeNode_children this x hp t :
  hp !! this = Some t →
  TaskFile.removeTreeNode this x hp !! this
  = Some (match TaskFile.lastIndex x (TaskFile.treeNodes t) with
          | Some i => TaskFile.mkNode (TaskFile.groupLevel t)
                        (take i (TaskFile.treeNodes t)
                         ++ drop (S i) (TaskFile.treeNodes t))
          | None => t
          end).
Proof.
  intros Ht. unfold TaskFile.removeTreeNode. rewrite lookup_alter_eq, Ht. simpl.
  rewrite removeLoop_index.
  destruct (TaskFile.lastIndex x (TaskFile.treeNodes t)) as [i|] eqn:Hl; simpl; [|done].
  apply lastIndex_Some in Hl as (pre & post & Hpre & Hlen & _).
  assert (i < length (TaskFile.treeNodes t)) as Hlt.
  { rewrite Hpre, length_app. simpl. lia. }
  destruct (Z.eqb_spec (Z.of_nat i) (-1)) as [?|_]; [lia|]. simpl.
  destruct (Z.ltb_spec (Z.of_nat i) (Z.of_nat (length (TaskFile.treeNodes t))));
    [|lia].
  by rewrite Nat2Z.id.
Qed.

(** X15.  [removeTreeNode] takes one child away: the last one in the
    list that is the given node.  The children before and after it keep
    their order; when the node is not among the children nothing changes.
    No other node and no group level is touched. *)
Theorem removeTreeNode_last (this x : nat) (hp : gmap nat TaskFile.Node)
    (t : TaskFile.Node) :
  hp !! this = Some t →
  let hp' := TaskFile.removeTreeNode this x hp in
  (∀ n, n ≠ this → hp' !! n = hp !! n)
  ∧ ∃ t', hp' !! this = Some t'
          ∧ TaskFile.groupLevel t' = TaskFile.groupLevel t
          ∧ (((x ∉ TaskFile.treeNodes t) ∧ t' = t)
             ∨ ∃ pre post, TaskFile.treeNodes t = pre ++ x :: post
                           ∧ (x ∉ post)
                           ∧ TaskFile.treeNodes t' = pre ++ post).
Proof.
  intros Ht hp'. split.
  - intros n Hne. unfold hp', TaskFile.removeTreeNode. by rewrite lookup_alter_ne.
  - subst hp'. rewrite (removeTreeNode_children _ _ _ _ Ht).
    destruct (TaskFile.lastIndex x (TaskFile.treeNodes t)) as [i|] eqn:Hl.
    + eexists. split_and!; [done..|]. right.
      apply lastIndex_Some in Hl as (pre & post & Hpre & Hlen & Hni).
      exists pre, post. split_and!; [done..|]. simpl. rewrite Hpre, <- Hlen.
      rewrite take_app_length. f_equal.
      replace (pre ++ x :: post) with ((pre ++ [x]) ++ post)
        by (by rewrite <- app_assoc).
      rewrite drop_app_length'; [done|rewrite length_app; simpl; lia].
    + exists t. split_and!; [done..|]. left. split; [|done].
      by apply lastIndex_None.
Qed.

Lemma removeTreeNode_last_witness :
  TaskFile.treeNodes <$> TaskFile.removeTreeNode 1 5 heapEx !! 1 = Some [6]
  ∧ TaskFile.removeTreeNode 1 7 heapEx !! 1 = heapEx !! 1.
Proof.
  destruct (removeTreeNode_last 1 5 heapEx (TaskFile.mkNode 2 [5; 6]) eq_refl)
    as (_ & t' & Ht' & _ & _).
  split.
  - vm_compute. reflexivity.
  - destruct (removeTreeNode_last 1 7 heapEx (TaskFile.mkNode 2 [5; 6]) eq_refl)
      as (_ & t7 & Ht7 & _ & [[_ ->]|(pre & post & Hpre & _)]).
    + exact Ht7.
    + exfalso. simpl in Hpre.
      assert (7 ∈ [5; 6]) as Hin by (rewrite Hpre; apply elem_of_app; right; left).
      apply elem_of_cons in Hin as [?|Hin]; [done|].
      apply elem_of_cons in Hin as [?|Hin]; [done|]. by apply elem_of_nil in Hin.
Defined.

Lemma lastIndex_middle x pre post :
  x ∉ post → TaskFile.lastIndex x (pre ++ x :: post) = Some (length pre).
Proof.
  intros Hni. apply lastIndex_None in Hni.
  induction pre as [|y pre IH]; simpl.
  - by rewrite Hni, bool_decide_eq_true_2.
  - by rewrite IH.
Qed.

Lemma remove_middle {A} (pre post : list A) (x : A) :
  take (length pre) (pre ++ x :: post) ++ drop (S (length pre)) (pre ++ x :: post)
  = pre ++ post.
Proof.
  rewrite take_app_length. f_equal.
  replace (pre ++ x :: post) with ((pre ++ [x]) ++ post) by (by rewrite <- app_assoc).
  rewrite drop_app_length'; [done|rewrite length_app; simpl; lia].
Qed.

Lemma addTreeNode_lookup this child hp t :
  hp !! this = Some t →
  TaskFile.addTreeNode this (Some child) hp !! this
  = Some (TaskFile.mkNode (TaskFile.groupLevel t) (TaskFile.treeNodes t ++ [child])).
Proof.
  intros Ht. unfold TaskFile.addTreeNode. rewrite Ht, lookup_alter_eq.
  destruct (decide (child = this)) as [->|Hne].
  - by rewrite lookup_alter_eq, Ht.
  - by rewrite lookup_alter_ne, Ht.
Qed.

(** X16.  [addTreeNode] puts the node at the end of the children and
    gives it the group level of the parent; [removeTreeNode] of that
    node then restores the children as they were, also when the node was
    among them before.  The group level given to the child stays.
    [addTreeNode(undefined)] does nothing. *)
Theorem addTreeNode_then_remove (this child : nat) (hp : gmap nat TaskFile.Node)
    (t : TaskFile.Node) :
  hp !! this = Some t →
  let hp1 := TaskFile.addTreeNode this (Some child) hp in
  let hp2 := TaskFile.removeTreeNode this child hp1 in
  TaskFile.treeNodes <$> hp1 !! this = Some (TaskFile.treeNodes t ++ [child])
  ∧ (is_Some (hp !! child) →
     TaskFile.groupLevel <$> hp1 !! child = Some (TaskFile.groupLevel t)
     ∧ TaskFile.groupLevel <$> hp2 !! child = Some (TaskFile.groupLevel t))
  ∧ hp2 !! this = Some t
  ∧ (∀ n, n ≠ this → n ≠ child → hp2 !! n = hp !! n)
  ∧ TaskFile.addTreeNode this None hp = hp.
Proof.
  intros Ht hp1 hp2.
  pose proof (addTreeNode_lookup this child hp t Ht) as H1. fold hp1 in H1.
  assert (hp2 !! this = Some t) as H2.
  { subst hp2. rewrite (removeTreeNode_children _ _ _ _ H1). simpl.
    rewrite lastIndex_snoc. f_equal.
    rewrite (remove_middle (TaskFile.treeNodes t) [] child), app_nil_r.
    by destruct t. }
  assert (∀ c, hp !! child = Some c →
            TaskFile.groupLevel <$> hp1 !! child = Some (TaskFile.groupLevel t)) as Hc1.
  { intros c Hc. destruct (decide (child = this)) as [->|Hne]; [by rewrite H1|].
    subst hp1. unfold TaskFile.addTreeNode. rewrite Ht.
    by rewrite lookup_alter_ne, lookup_alter_eq, Hc. }
  split_and!.
  - by rewrite H1.
  - intros [c Hc]. split; [by eapply Hc1|].
    destruct (decide (child = this)) as [->|Hne]; [by rewrite H2|].
    subst hp2. unfold TaskFile.removeTreeNode. rewrite lookup_alter_ne by done.
    by eapply Hc1.
  - done.
  - intros n Hn1 Hn2. subst hp2 hp1.
    unfold TaskFile.removeTreeNode, TaskFile.addTreeNode. rewrite Ht.
    by rewrite !lookup_alter_ne.
  - done.
Qed.

Lemma addTreeNode_then_remove_witness :
  TaskFile.addTreeNode 1 (Some 7) heapEx !! 1 = Some (TaskFile.mkNode 2 [5; 6; 7])
  ∧ TaskFile.groupLevel <$> TaskFile.addTreeNode 1 (Some 7) heapEx !! 7 = Some 2%Z
  ∧ TaskFile.removeTreeNode 1 7 (TaskFile.addTreeNode 1 (Some 7) heapEx) !! 1
    = Some (TaskFile.mkNode 2 [5; 6]).
Proof.
  destruct (addTreeNode_then_remove 1 7 heapEx (TaskFile.mkNode 2 [5; 6]) eq_refl)
    as (_ & Hlevel & Hback & _).
  split_and!.
  - vm_compute. reflexivity.
  - apply Hlevel. by eexists.
  - exact Hback.
Defined.

(** X17.  [insertTreeNode] puts the node in front of the child at the
    given index and moves the later children on by one.  An index past
    the end appends, a negative index counts from the end and stops at
    the front.  When the node is not among the later children,
    [removeTreeNode] of it restores the list. *)
Theorem insertTreeNode_places (this x : nat) (index : Z)
    (hp : gmap nat TaskFile.Node) (t : TaskFile.Node) :
  hp !! this = Some t →
  let l := TaskFile.treeNodes t in
  let k := TaskFile.spliceStart index (length l) in
  let hp' := TaskFile.insertTreeNode this x index hp in
  hp' !! this = Some (TaskFile.mkNode (TaskFile.groupLevel t) (take k l ++ x :: drop k l))
  ∧ k ≤ length l
  ∧ ((0 ≤ index ≤ Z.of_nat (length l))%Z → k = Z.to_nat index)
  ∧ ((Z.of_nat (length l) ≤ index)%Z →
     TaskFile.treeNodes <$> hp' !! this = Some (l ++ [x]))
  ∧ ((index ≤ - Z.of_nat (length l))%Z →
     TaskFile.treeNodes <$> hp' !! this = Some (x :: l))
  ∧ ((x ∉ drop k l) → TaskFile.removeTreeNode this x hp' !! this = Some t)
  ∧ (∀ n, n ≠ this → hp' !! n = hp !! n).
Proof.
  intros Ht l k hp'.
  assert (hp' !! this
          = Some (TaskFile.mkNode (TaskFile.groupLevel t) (take k l ++ x :: drop k l)))
    as H1.
  { subst hp'. unfold TaskFile.insertTreeNode. by rewrite lookup_alter_eq, Ht. }
  assert (k ≤ length l) as Hk.
  { subst k. unfold TaskFile.spliceStart. destruct (index <? 0)%Z eqn:Hi; lia. }
  split_and!.
  - done.
  - done.
  - intros Hi. subst k. unfold TaskFile.spliceStart.
    destruct (Z.ltb_spec index 0); lia.
  - intros Hi. rewrite H1. simpl. f_equal.
    assert (k = length l) as ->.
    { subst k. unfold TaskFile.spliceStart. destruct (Z.ltb_spec index 0); lia. }
    by rewrite firstn_all, drop_all.
  - intros Hi. rewrite H1. simpl. f_equal.
    assert (k = 0) as ->.
    { subst k. unfold TaskFile.spliceStart. destruct (Z.ltb_spec index 0); lia. }
    done.
  - intros Hni. rewrite (removeTreeNode_children _ _ _ _ H1). simpl.
    rewrite (lastIndex_middle x (take k l) (drop k l) Hni). f_equal.
    rewrite remove_middle, take_drop. by destruct t.
  - intros n Hne. subst hp'. unfold TaskFile.insertTreeNode.
    by rewrite lookup_alter_ne.
Qed.

Lemma insertTreeNode_places_witness :
  TaskFile.treeNodes <$> TaskFile.insertTreeNode 1 7 1 heapEx !! 1 = Some [5; 7; 6]
  ∧ TaskFile.treeNodes <$> TaskFile.insertTreeNode 1 7 9 heapEx !! 1 = Some [5; 6; 7]
  ∧ TaskFile.treeNodes <$> TaskFile.insertTreeNode 1 7 (-9) heapEx !! 1 = Some [7; 5; 6].
Proof.
  split_and!.
  - destruct (insertTreeNode_places 1 7 1 heapEx (TaskFile.mkNode 2 [5; 6]) eq_refl)
      as (Hat & _).
    rewrite Hat. reflexivity.
  - apply (insertTreeNode_places 1 7 9 heapEx (TaskFile.mkNode 2 [5; 6]) eq_refl).
    simpl. lia.
  - apply (insertTreeNode_places 1 7 (-9) heapEx (TaskFile.mkNode 2 [5; 6]) eq_refl).
    simpl. lia.
Defined.

(** ** Labels of the tree nodes *)

Lemma indexOf0_cases s needle :
  (JS.indexOf s needle 0 = (-1)%Z ∧ absent needle s)
  ∨ ∃ k, JS.indexOf s needle 0 = Z.of_nat k ∧ firstAt needle s k.
Proof.
  assert (JS.clamp 0 s = 0) as Hpos by (unfold JS.clamp; lia).
  destruct (indexOf_spec s needle 0) as [[Hr Hno]|(k & Hr & _ & Hocc & Hfirst)];
    rewrite Hpos in *.
  - left. split; [done|]. intros j. apply Hno. lia.
  - right. exists k. split; [done|]. split; [done|]. intros j Hj. apply Hfirst; lia.
Qed.

Lemma firstAt_unique needle s k k' :
  firstAt needle s k → firstAt needle s k' → k = k'.
Proof.
  intros [Ho Hf] [Ho' Hf'].
  destruct (Nat.lt_trichotomy k k') as [Hlt|[->|Hgt]]; [|done|].
  - by apply Hf' in Hlt.
  - by apply Hf in Hgt.
Qed.

Lemma indexOf0_absent s needle :
  absent needle s → JS.indexOf s needle 0 = (-1)%Z.
Proof.
  intros Habs. destruct (indexOf0_cases s needle) as [[? _]|(k & _ & [Ho _])]; [done|].
  by apply Habs in Ho.
Qed.

Lemma indexOf0_firstAt s needle k :
  firstAt needle s k → JS.indexOf s needle 0 = Z.of_nat k.
Proof.
  intros Hk. destruct (indexOf0_cases s needle) as [[_ Habs]|(k' & -> & Hk')].
  - destruct Hk as [Ho _]. by apply Habs in Ho.
  - by rewrite (firstAt_unique _ _ _ _ Hk Hk').
Qed.

Lemma search_firstAt needle s k :
  firstAt needle s k → JS.search needle s = Some k.
Proof.
  intros Hk. destruct (JS.search needle s) as [k'|] eqn:Hs.
  - apply search_Some in Hs. by rewrite (firstAt_unique _ _ _ _ Hk Hs).
  - destruct Hk as [Ho _]. by apply (search_None _ _ Hs) in Ho.
Qed.

Lemma substring_take s (k : nat) :
  k ≤ String.length s → JS.substring s 0 (Z.of_nat k) = JS.take k s.
Proof.
  intros Hk. rewrite substring_from_0. f_equal. unfold JS.clamp. lia.
Qed.

(** X18.  The label of a [TaskFile].  A group node is labelled by its
    source alone, in lower case, and so is every node of the "Workspace"
    source, which reads "vscode" whatever the relative path.  An ant
    file without name or named like build.xml is labelled "ant" and
    nothing more.  Any other file that is not in the root, of a source
    other than ant and app-publisher, shows the source and, in brackets,
    the relative path in lower case, without a slash at its end. *)
Theorem getLabel_cases (toLowerCase : string → string)
    (matchesBuildXml : string → bool) (publishrcTag : string → option string)
    (taskDef : TaskExplorerDefinition) (source relativePath : string) (group : bool) :
  let label := TaskFile.getLabel toLowerCase matchesBuildXml publishrcTag
                                 taskDef source relativePath group in
  (group = true →
   label = toLowerCase (if String.eqb source "Workspace" then "vscode" else source))
  ∧ (source = "Workspace" → label = toLowerCase "vscode")
  ∧ (source = "ant" →
     fileName taskDef = "" ∨ matchesBuildXml (fileName taskDef) = true →
     label = toLowerCase "ant")
  ∧ (group = false → source ≠ "ant" → source ≠ "app-publisher" →
     source ≠ "Workspace" →
     relativePath ≠ "" → relativePath ≠ ".vscode" → relativePath ≠ "." →
     label = source +:+ " (" +:+ toLowerCase (trimSlash relativePath) +:+ ")").
Proof.
  intros label. subst label. unfold TaskFile.getLabel. split_and!.
  - by intros ->.
  - intros ->. destruct group; [reflexivity|]. simpl. by rewrite andb_false_r.
  - intros -> Hfile. destruct group; simpl; [done|].
    destruct Hfile as [Hf|Hf]; rewrite Hf; [done|]. by rewrite andb_false_r.
  - intros -> Hant Hap Hws Hrel Hvs Hdot. simpl.
    destruct (String.eqb_spec source "ant"); [done|].
    destruct (String.eqb_spec source "app-publisher"); [done|].
    destruct (String.eqb_spec source "Workspace"); [done|].
    destruct (String.eqb_spec relativePath ".vscode"); [done|].
    destruct (String.eqb_spec relativePath "."); [done|].
    assert ((0 <? Z.of_nat (String.length relativePath))%Z = true) as ->.
    { apply Z.ltb_lt. destruct relativePath; [done|simpl; lia]. }
    simpl. unfold trimSlash.
    destruct (JS.endsWith relativePath JS.backslash || JS.endsWith relativePath "/");
      [|done].
    replace (Z.of_nat (String.length relativePath) - 1)%Z
      with (Z.of_nat (String.length relativePath - 1))
      by (destruct relativePath; [done|simpl; lia]).
    rewrite substring_take by lia. done.
Qed.

Lemma getLabel_cases_witness :
  TaskFile.getLabel id (λ _, false) (λ _, None)
    (mkDefinition "gulp" "" "" "" "gulpfile.js" None) "gulp" "Sub/Dir/" false
  = "gulp (Sub/Dir)"
  ∧ TaskFile.getLabel id (λ _, false) (λ _, None)
      (mkDefinition "ant" "" "" "" "" None) "ant" "Sub/Dir/" false = "ant".
Proof.
  split.
  - destruct (getLabel_cases id (λ _, false) (λ _, None)
                (mkDefinition "gulp" "" "" "" "gulpfile.js" None) "gulp" "Sub/Dir/" false)
      as (_ & _ & _ & Hpath).
    rewrite Hpath; [vm_compute; reflexivity|done..].
  - destruct (getLabel_cases id (λ _, false) (λ _, None)
                (mkDefinition "ant" "" "" "" "" None) "ant" "Sub/Dir/" false)
      as (_ & _ & Hant & _).
    apply Hant; [reflexivity|by left].
Defined.

(** X19.  The name that a [TaskItem] displays is never longer than the
    task name.  It is the task name itself unless that name contains
    " - " and also a slash, a backslash or " - tsconfig.json".  Then,
    without task group, it is what stands before the first " - "; with a
    task group, the name without the first occurrence of the group name
    followed by the group separator. *)
Theorem getDisplayName_cases (groupSeparator taskName taskGroup : string) :
  let d := TaskItem.getDisplayName groupSeparator taskName taskGroup in
  let pathLike := ¬ absent "/" taskName ∨ ¬ absent JS.backslash taskName
                  ∨ ¬ absent " - tsconfig.json" taskName in
  String.length d ≤ String.length taskName
  ∧ (absent " - " taskName → d = taskName)
  ∧ (¬ pathLike → d = taskName)
  ∧ (∀ k, firstAt " - " taskName k → pathLike → taskGroup = "" →
          d = JS.take k taskName)
  ∧ (∀ k, ¬ absent " - " taskName → pathLike → taskGroup ≠ "" →
          firstAt (taskGroup +:+ groupSeparator) taskName k →
          d = JS.take k taskName
                +:+ JS.drop (k + String.length (taskGroup +:+ groupSeparator)) taskName)
  ∧ (¬ absent " - " taskName → pathLike → taskGroup ≠ "" →
     absent (taskGroup +:+ groupSeparator) taskName → d = taskName).
Proof.
  intros d pathLike.
  assert (∀ needle, negb (JS.indexOf taskName needle 0 =? -1)%Z = true
                    ↔ ¬ absent needle taskName) as Hfound.
  { intros needle. destruct (indexOf0_cases taskName needle)
      as [[-> Habs]|(k & -> & [Ho _])]; simpl.
    - split; [done|]. by intros Hn.
    - destruct (Z.eqb_spec (Z.of_nat k) (-1)); [lia|]. simpl.
      split; [|done]. intros _ Habs. by apply Habs in Ho. }
  assert ((negb (JS.indexOf taskName "/" 0 =? -1)%Z
           || negb (JS.indexOf taskName JS.backslash 0 =? -1)%Z
           || negb (JS.indexOf taskName " - tsconfig.json" 0 =? -1)%Z) = true
          ↔ pathLike) as Hpath.
  { unfold pathLike. rewrite !orb_true_iff, !Hfound. tauto. }
  assert (∀ needle, String.length (JS.removeFirst taskName needle)
                    ≤ String.length taskName) as Hrm.
  { intros needle. unfold JS.removeFirst.
    destruct (JS.search needle taskName); [|done].
    rewrite str_length_append, str_length_take, str_length_drop. lia. }
  subst d. unfold TaskItem.getDisplayName.
  destruct (negb (JS.indexOf taskName " - " 0 =? -1)%Z) eqn:Hsep;
    [apply Hfound in Hsep|apply not_true_iff_false in Hsep; rewrite Hfound in Hsep].
  2:{ simpl. split_and!; try done.
      intros k [Ho _]. destruct Hsep. intros Habs. by apply Habs in Ho. }
  destruct (negb (JS.indexOf taskName "/" 0 =? -1)%Z
            || negb (JS.indexOf taskName JS.backslash 0 =? -1)%Z
            || negb (JS.indexOf taskName " - tsconfig.json" 0 =? -1)%Z) eqn:Hp;
    [assert pathLike as Hlike by (by apply Hpath)
    |assert (¬ pathLike) as Hlike by (intros Hl; by apply Hpath in Hl)].
  2:{ simpl. split_and!; try done. }
  simpl. destruct (String.eqb_spec taskGroup "") as [->|Hgrp]; simpl.
  - destruct (indexOf0_cases taskName " - ") as [[_ Habs]|(k & Hk & Hfirst)];
      [done|].
    rewrite Hk.
    assert (k ≤ String.length taskName) as Hle by (by destruct Hfirst as [[? _] _]).
    rewrite substring_take by done.
    split_and!; try done.
    + rewrite str_length_take. lia.
    + intros k' Hk' _ _. by rewrite (firstAt_unique _ _ _ _ Hfirst Hk').
  - split_and!; try done.
    + intros k _ _ _ Hk. unfold JS.removeFirst. by rewrite (search_firstAt _ _ _ Hk).
    + intros _ _ _ Habs. unfold JS.removeFirst.
      destruct (JS.search _ taskName) as [k|] eqn:Hs; [|done].
      apply search_Some in Hs as [Ho _]. by apply Habs in Ho.
Qed.

Lemma getDisplayName_cases_witness :
  TaskItem.getDisplayName "-" "build - src/app" "" = "build"
  ∧ TaskItem.getDisplayName "-" "lint" "" = "lint".
Proof.
  destruct (getDisplayName_cases "-" "build - src/app" "") as (_ & _ & _ & Hcut & _).
  destruct (getDisplayName_cases "-" "lint" "") as (_ & Hsame & _).
  split.
  - apply (Hcut 5).
    + split; [vm_compute; split; [lia|reflexivity]|].
      intros j Hj [_ Hp]. do 5 (destruct j as [|j]; [vm_compute in Hp; discriminate|]).
      lia.
    + left. intros Habs. apply (Habs 11). vm_compute. split; [lia|reflexivity].
    + reflexivity.
  - apply Hsame. intros j [Hj Hp]. simpl in Hj.
    do 5 (destruct j as [|j]; [vm_compute in Hp; discriminate|]). lia.
Defined.

(** ** C2: rebuildCache *)






